(** * Hatari: cycle-accurate interrupt scheduling (cycInt) and the VT52 console filter

    A shallow embedding of
    - [cycInt.h]: the handler enumeration, the cycle-domain tags, the two
      conversion multipliers and the macros [INT_CONVERT_TO_INTERNAL] and
      [INT_CONVERT_FROM_INTERNAL];
    - [console.c]: [map_character] and the [vt52_emu] state machine;
    - the pending-event table, dispatcher and snapshot adapter that the
      prototypes of [cycInt.h] declare.

    C integers are mathematical integers with the two's-complement wrap of
    their width written out at every operation. *)

From Stdlib Require Import ZArith String List Lia Bool Ascii Sorted.
Import ListNotations.
Local Open Scope Z_scope.

(** ** Machine integers *)

Module CInt.

(** A signed integer of [w] bits: the representative of [z] in
    [-2^(w-1) .. 2^(w-1)-1]. *)
Definition wrap (w z : Z) : Z := (z + 2 ^ (w - 1)) mod 2 ^ w - 2 ^ (w - 1).

Definition in_range (w z : Z) : Prop := - 2 ^ (w - 1) <= z < 2 ^ (w - 1).

Definition add (w a b : Z) : Z := wrap w (a + b).
Definition sub (w a b : Z) : Z := wrap w (a - b).
Definition mul (w a b : Z) : Z := wrap w (a * b).
(** C division truncates toward zero. *)
Definition div (w a b : Z) : Z := wrap w (Z.quot a b).
Definition shl (w a n : Z) : Z := wrap w (Z.shiftl a n).
(** [>>] on a signed operand is the arithmetic shift. *)
Definition shr (w a n : Z) : Z := wrap w (Z.shiftr a n).

End CInt.

(** ** cycInt.h: handler identities, cycle domains, multipliers *)

(** Interrupt handlers in system.  [MAX_INTERRUPTS] closes the enumeration
    and is not itself a handler. *)
Inductive interrupt_id : Type :=
  | INTERRUPT_NULL
  | INTERRUPT_VIDEO_VBL
  | INTERRUPT_VIDEO_HBL
  | INTERRUPT_VIDEO_ENDLINE
  | INTERRUPT_MFP_MAIN_TIMERA
  | INTERRUPT_MFP_MAIN_TIMERB
  | INTERRUPT_MFP_MAIN_TIMERC
  | INTERRUPT_MFP_MAIN_TIMERD
  | INTERRUPT_MFP_TT_TIMERA
  | INTERRUPT_MFP_TT_TIMERB
  | INTERRUPT_MFP_TT_TIMERC
  | INTERRUPT_MFP_TT_TIMERD
  | INTERRUPT_ACIA_IKBD
  | INTERRUPT_IKBD_RESETTIMER
  | INTERRUPT_IKBD_AUTOSEND
  | INTERRUPT_DMASOUND_MICROWIRE
  | INTERRUPT_CROSSBAR_25MHZ
  | INTERRUPT_CROSSBAR_32MHZ
  | INTERRUPT_FDC
  | INTERRUPT_BLITTER
  | INTERRUPT_MIDI
  | MAX_INTERRUPTS.

(** The integer value the C enumeration gives each constant. *)
Definition interrupt_val (h : interrupt_id) : Z :=
  match h with
  | INTERRUPT_NULL => 0
  | INTERRUPT_VIDEO_VBL => 1
  | INTERRUPT_VIDEO_HBL => 2
  | INTERRUPT_VIDEO_ENDLINE => 3
  | INTERRUPT_MFP_MAIN_TIMERA => 4
  | INTERRUPT_MFP_MAIN_TIMERB => 5
  | INTERRUPT_MFP_MAIN_TIMERC => 6
  | INTERRUPT_MFP_MAIN_TIMERD => 7
  | INTERRUPT_MFP_TT_TIMERA => 8
  | INTERRUPT_MFP_TT_TIMERB => 9
  | INTERRUPT_MFP_TT_TIMERC => 10
  | INTERRUPT_MFP_TT_TIMERD => 11
  | INTERRUPT_ACIA_IKBD => 12
  | INTERRUPT_IKBD_RESETTIMER => 13
  | INTERRUPT_IKBD_AUTOSEND => 14
  | INTERRUPT_DMASOUND_MICROWIRE => 15
  | INTERRUPT_CROSSBAR_25MHZ => 16
  | INTERRUPT_CROSSBAR_32MHZ => 17
  | INTERRUPT_FDC => 18
  | INTERRUPT_BLITTER => 19
  | INTERRUPT_MIDI => 20
  | MAX_INTERRUPTS => 21
  end.

Definition INT_CPU_CYCLE : Z := 1.
Definition INT_MFP_CYCLE : Z := 2.
Definition INT_CPU8_CYCLE : Z := 3.

Definition INT_CPU_TO_INTERNAL : Z := 9600.
Definition INT_MFP_TO_INTERNAL : Z := 31333.

(** ** cycInt.h: the conversion macros

    The macros are untyped; [w] is the width of the integer type their
    operand has at the place of use, and [nCpuFreqShift] is the global the
    macro bodies read.  Every value of [type] other than [INT_CPU_CYCLE] and
    [INT_MFP_CYCLE] takes the last branch. *)
Section Converter.

Variable w : Z.
Variable nCpuFreqShift : Z.

(** Convert cpu or mfp cycles to internal cycles. *)
Definition INT_CONVERT_TO_INTERNAL (cyc type : Z) : Z :=
  if type =? INT_CPU_CYCLE then CInt.mul w cyc INT_CPU_TO_INTERNAL
  else if type =? INT_MFP_CYCLE
  then CInt.shl w (CInt.mul w cyc INT_MFP_TO_INTERNAL) nCpuFreqShift
  else CInt.shl w (CInt.mul w cyc INT_CPU_TO_INTERNAL) nCpuFreqShift.

(** Convert internal cycles to real mfp or cpu cycles. *)
Definition INT_CONVERT_FROM_INTERNAL (cyc type : Z) : Z :=
  if type =? INT_CPU_CYCLE then CInt.div w cyc INT_CPU_TO_INTERNAL
  else if type =? INT_MFP_CYCLE
  then CInt.shr w
         (CInt.div w
            (CInt.sub w (CInt.add w cyc INT_MFP_TO_INTERNAL) 1)
            INT_MFP_TO_INTERNAL)
         nCpuFreqShift
  else CInt.shr w (CInt.div w cyc INT_CPU_TO_INTERNAL) nCpuFreqShift.

End Converter.

(** Rounding of a quotient, stated without reference to how it is computed:
    [q] is the floor (resp. ceiling) of [a / b]. *)
Definition is_floor (q a b : Z) : Prop := b * q <= a < b * (q + 1).
Definition is_ceiling (q a b : Z) : Prop := b * (q - 1) < a <= b * q.

(** ** console.c: character mapping *)

(** The code of a character constant. *)
Definition ch (a : ascii) : Z := Z.of_nat (nat_of_ascii a).

Definition map_0_31 : list Z :=
  let d := ch "." in
  [ d; d; d; d; d; d; d; d;                       (* 0x00 *)
    (* white space: '\b' '\t' '\n' . . '\r' . . *)
    8; 9; 10; d; d; 13; d; d;                     (* 0x08 *)
    (* LED numbers *)
    ch "0"; ch "1"; ch "2"; ch "3"; ch "4"; ch "5"; ch "6"; ch "7";  (* 0x10 *)
    ch "8"; ch "9"; d; d; d; d; d; d ].           (* 0x18 *)

Definition map_128_255 : list Z :=
  let d := ch "." in
  [ (* accented characters *)
    ch "C"; ch "U"; ch "e"; ch "a"; ch "a"; ch "a"; ch "a"; ch "c";  (* 0x80 *)
    ch "e"; ch "e"; ch "e"; ch "i"; ch "i"; ch "i"; ch "A"; ch "A";  (* 0x88 *)
    ch "E"; ch "a"; ch "A"; ch "o"; ch "o"; ch "o"; ch "u"; ch "u";  (* 0x90 *)
    ch "y"; ch "o"; ch "u"; ch "c"; d; ch "Y"; ch "B"; ch "f";       (* 0x98 *)
    ch "a"; ch "i"; ch "o"; ch "u"; ch "n"; ch "N"; ch "a"; ch "o";  (* 0xA0 *)
    ch "?"; d; d; d; d; ch "i"; ch "<"; ch ">";                      (* 0xA8 *)
    ch "a"; ch "o"; ch "O"; ch "o"; ch "o"; ch "O"; ch "A"; ch "A";  (* 0xB0 *)
    (* 0xB9 is the double quote, code 34 *)
    ch "O"; 34; ch "'"; d; d; ch "C"; ch "R"; d;                     (* 0xB8 *)
    ch "j"; ch "J"; d; d; d; d; d; d;                                (* 0xC0 *)
    d; d; d; d; d; d; d; d;                                          (* 0xC8 *)
    d; d; d; d; d; d; d; d;                                          (* 0xD0 *)
    d; d; d; d; d; d; ch "^"; d;                                     (* 0xD8 *)
    d; d; d; d; d; d; d; d;                                          (* 0xE0 *)
    d; d; d; d; d; d; d; d;                                          (* 0xE8 *)
    d; d; d; d; d; d; d; d;                                          (* 0xF0 *)
    d; d; d; d; d; d; d; d ].                                        (* 0xF8 *)

(** [int] is 32 bits wide; a [Uint8] operand is promoted to it. *)
Definition int_add := CInt.add 32.
Definition int_sub := CInt.sub 32.

(** Reading [tbl[i]]: an index outside the array has no defined result. *)
Definition array_get (tbl : list Z) (i : Z) : option Z :=
  if i <? 0 then None else nth_error tbl (Z.to_nat i).

(** [fputc(c, stderr)] appends one byte to the stream. *)
Definition fputc (c : Z) (stderr : list Z) : list Z := stderr ++ [c].

(** Maps Atari characters to their closest ASCII equivalents.  [value] is
    the [Uint8] parameter; the result is the stream after the call, or
    [None] when a table is read out of bounds. *)
Definition map_character (value : Z) (stderr : list Z) : option (list Z) :=
  if value <? 32 then
    match array_get map_0_31 value with
    | Some c => Some (fputc c stderr)
    | None => None
    end
  else if value >? 127 then
    match array_get map_128_255 (int_sub value 128) with
    | Some c => Some (fputc c stderr)
    | None => None
    end
  else Some (fputc value stderr).

(** ** console.c: the VT52 state machine *)

Inductive escape_kind : Type := ESCAPE_NONE | ESCAPE_POSITION.

(** The function-local statics of [vt52_emu]. *)
Record vt52_state : Type := {
  escape_index : Z;
  escape_target : Z;
  hpos_host : Z;
  hpos_tos : Z;
  need_nl : bool;
  escape_type : escape_kind
}.

(** Static storage starts zeroed. *)
Definition vt52_init : vt52_state :=
  {| escape_index := 0; escape_target := 0; hpos_host := 0; hpos_tos := 0;
     need_nl := false; escape_type := ESCAPE_NONE |}.

Definition set_escape_index (v : Z) (s : vt52_state) : vt52_state :=
  {| escape_index := v; escape_target := escape_target s;
     hpos_host := hpos_host s; hpos_tos := hpos_tos s;
     need_nl := need_nl s; escape_type := escape_type s |}.
Definition set_escape_target (v : Z) (s : vt52_state) : vt52_state :=
  {| escape_index := escape_index s; escape_target := v;
     hpos_host := hpos_host s; hpos_tos := hpos_tos s;
     need_nl := need_nl s; escape_type := escape_type s |}.
Definition set_hpos_host (v : Z) (s : vt52_state) : vt52_state :=
  {| escape_index := escape_index s; escape_target := escape_target s;
     hpos_host := v; hpos_tos := hpos_tos s;
     need_nl := need_nl s; escape_type := escape_type s |}.
Definition set_hpos_tos (v : Z) (s : vt52_state) : vt52_state :=
  {| escape_index := escape_index s; escape_target := escape_target s;
     hpos_host := hpos_host s; hpos_tos := v;
     need_nl := need_nl s; escape_type := escape_type s |}.
Definition set_need_nl (v : bool) (s : vt52_state) : vt52_state :=
  {| escape_index := escape_index s; escape_target := escape_target s;
     hpos_host := hpos_host s; hpos_tos := hpos_tos s;
     need_nl := v; escape_type := escape_type s |}.
Definition set_escape_type (v : escape_kind) (s : vt52_state) : vt52_state :=
  {| escape_index := escape_index s; escape_target := escape_target s;
     hpos_host := hpos_host s; hpos_tos := hpos_tos s;
     need_nl := need_nl s; escape_type := v |}.

Definition is_position (k : escape_kind) : bool :=
  match k with ESCAPE_POSITION => true | ESCAPE_NONE => false end.

(** [fprintf] of the empty string with the star width [n]: [n] blanks; a
    negative width asks for left justification in width [-n]. *)
Definition pad (n : Z) (stderr : list Z) : list Z :=
  stderr ++ repeat (ch " ") (Z.to_nat (Z.abs n)).

(** The horizontal target of a cursor-position sequence, after the two
    range checks. *)
Definition clamp_hpos (v : Z) : Z :=
  if v >? 79 then 79 else if v <? 0 then 0 else v.

(** Lines 109-123: the last item of a position sequence gives the
    horizontal position. *)
Definition vt52_position (value : Z) (s : vt52_state) (stderr : list Z)
  : vt52_state * list Z :=
  let s := set_hpos_tos (clamp_hpos (int_sub value (ch " "))) s in
  if hpos_tos s >? hpos_host s then
    let stderr := pad (int_sub (hpos_tos s) (hpos_host s)) stderr in
    (set_hpos_host (hpos_tos s) s, stderr)
  else if hpos_tos s <? hpos_host s then
    (set_need_nl true s, stderr)
  else (s, stderr).

(** Lines 109-126: the end of an escape sequence. *)
Definition vt52_escape_end (value : Z) (s : vt52_state) (stderr : list Z)
  : vt52_state * list Z :=
  let '(s, stderr) :=
    if is_position (escape_type s) then vt52_position value s stderr
    else (s, stderr) in
  (set_escape_target 0 s, stderr).

(** Lines 164-180: host cursor horizontal movement, then the character. *)
Definition vt52_host (value : Z) (s : vt52_state) (stderr : list Z)
  : option (vt52_state * list Z) :=
  let s :=
    if value =? 8 then set_hpos_host (int_sub (hpos_host s) 1) s
    else if value =? 9
    then set_hpos_host (Z.land (int_add (hpos_host s) 8) 65520) s
    else if (value =? 13) || (value =? 10) then set_hpos_host 0 s
    else set_hpos_host (int_add (hpos_host s) 1) s in
  match map_character value stderr with
  | Some stderr => Some (s, stderr)
  | None => None
  end.

(** Convert given console character output to ASCII: one call of
    [vt52_emu], from the statics and the stream before it to those after
    it. *)
Definition vt52_emu (value : Z) (s : vt52_state) (stderr : list Z)
  : option (vt52_state * list Z) :=
  if negb (escape_target s =? 0) then
    let s := set_escape_index (int_add (escape_index s) 1) s in
    if escape_index s =? 1 then
      (* VT52 escape sequences *)
      if value =? ch "E" then
        Some (vt52_escape_end value (set_hpos_host 0 s) (stderr ++ [10]))
      else if (value =? ch "b") || (value =? ch "c") then
        Some (set_escape_target 2 s, stderr)
      else if value =? ch "Y" then
        Some (set_escape_target 3 (set_escape_type ESCAPE_POSITION s), stderr)
      else Some (vt52_escape_end value s stderr)
    else if escape_index s <? escape_target s then Some (s, stderr)
    else Some (vt52_escape_end value s stderr)
  else if value =? 27 then
    (* escape sequence start *)
    Some (set_escape_index 0
            (set_escape_target 1 (set_escape_type ESCAPE_NONE s)), stderr)
  else if need_nl s then
    (* TOS cursor horizontal movement until host output *)
    if value =? ch " " then
      Some (set_hpos_tos (int_add (hpos_tos s) 1) s, stderr)
    else if value =? 8 then
      Some (set_hpos_tos (int_sub (hpos_tos s) 1) s, stderr)
    else if value =? 9 then
      Some (set_hpos_tos (Z.land (int_add (hpos_tos s) 8) 65520) s, stderr)
    else
      let s := if (value =? 13) || (value =? 10) then set_hpos_tos 0 s
               else s in
      let stderr := stderr ++ [10] in
      let '(s, stderr) :=
        if (hpos_tos s >? 0) && (hpos_tos s <? 80)
        then (set_hpos_host (hpos_tos s) s, pad (hpos_tos s) stderr)
        else (set_hpos_host 0 s, stderr) in
      vt52_host value (set_need_nl false s) stderr
  else vt52_host value s stderr.

(** The statics after [ESC], ['Y'] and a row item, read from rest. *)
Definition vt52_after_row : vt52_state :=
  {| escape_index := 2; escape_target := 3; hpos_host := 0; hpos_tos := 0;
     need_nl := false; escape_type := ESCAPE_POSITION |}.

(** [vt52_emu] called on each byte of a sequence in turn. *)
Fixpoint vt52_feed (bytes : list Z) (s : vt52_state) (stderr : list Z)
  : option (vt52_state * list Z) :=
  match bytes with
  | [] => Some (s, stderr)
  | b :: bs =>
      match vt52_emu b s stderr with
      | Some (s', stderr') => vt52_feed bs s' stderr'
      | None => None
      end
  end.

(** The statics as they stand when the next byte is the last item of a
    cursor-position sequence: an escape is open, it is of the position
    kind, and the incremented index is past the first item and has reached
    the target. *)
Definition awaits_position_column (s : vt52_state) : Prop :=
  escape_target s <> 0
  /\ escape_type s = ESCAPE_POSITION
  /\ int_add (escape_index s) 1 <> 1
  /\ escape_target s <= int_add (escape_index s) 1.

(** ** cycInt: the pending-event table and the dispatcher

    [cycInt.h] declares the scheduler's entry points; their bodies are not
    part of the sources at hand, so this part follows the specification. *)

Definition valid_handler (h : interrupt_id) : bool :=
  (0 <=? interrupt_val h) && (interrupt_val h <? interrupt_val MAX_INTERRUPTS).

Definition interrupt_eqb (h g : interrupt_id) : bool :=
  interrupt_val h =? interrupt_val g.

(** The handler identities in enumeration order. *)
Definition handlers : list interrupt_id :=
  [ INTERRUPT_NULL; INTERRUPT_VIDEO_VBL; INTERRUPT_VIDEO_HBL;
    INTERRUPT_VIDEO_ENDLINE; INTERRUPT_MFP_MAIN_TIMERA;
    INTERRUPT_MFP_MAIN_TIMERB; INTERRUPT_MFP_MAIN_TIMERC;
    INTERRUPT_MFP_MAIN_TIMERD; INTERRUPT_MFP_TT_TIMERA;
    INTERRUPT_MFP_TT_TIMERB; INTERRUPT_MFP_TT_TIMERC;
    INTERRUPT_MFP_TT_TIMERD; INTERRUPT_ACIA_IKBD; INTERRUPT_IKBD_RESETTIMER;
    INTERRUPT_IKBD_AUTOSEND; INTERRUPT_DMASOUND_MICROWIRE;
    INTERRUPT_CROSSBAR_25MHZ; INTERRUPT_CROSSBAR_32MHZ; INTERRUPT_FDC;
    INTERRUPT_BLITTER; INTERRUPT_MIDI ].

(** Modelled from the spec: the pending-event table of cycInt.c, which is
    missing.  The armed slots, nearest first; each carries its handler
    identity and its [remaining_ticks], stored as a delta from the previous
    nearer event.  A handler that is not listed has an inactive slot. *)
Definition chain : Type := list (interrupt_id * Z).

(** Modelled from the spec: the scheduler context of cycInt.c, which is
    missing: the table, the CPU-frequency multiplier and the in-flight
    currently-dispatching marker. *)
Record State : Type := {
  table : chain;
  nCpuFreqShift : Z;
  dispatching : option interrupt_id
}.

(** Modelled from the spec: the order of the chain, missing with cycInt.c.
    Among entries with a tied time the lower-valued identity comes first. *)
Definition fires_before (t : Z) (h : interrupt_id) (d : Z) (g : interrupt_id)
  : bool :=
  (t <? d) || ((t =? d) && (interrupt_val h <? interrupt_val g)).

(** Modelled from the spec: rebalancing of the delta chain on insertion,
    missing with cycInt.c.  [t] is counted from the entry before the place
    looked at. *)
Fixpoint chain_insert (h : interrupt_id) (t : Z) (c : chain) : chain :=
  match c with
  | [] => [(h, t)]
  | (g, d) :: r =>
      if fires_before t h d g then (h, t) :: (g, d - t) :: r
      else (g, d) :: chain_insert h (t - d) r
  end.

(** Modelled from the spec: rebalancing of the delta chain on removal,
    missing with cycInt.c.  The removed entry's delta goes to the entry
    after it, whose due time so stays what it was. *)
Fixpoint chain_remove (h : interrupt_id) (c : chain) : chain :=
  match c with
  | [] => []
  | (g, d) :: r =>
      if interrupt_eqb g h then
        match r with
        | [] => []
        | (g', d') :: r' => (g', d + d') :: r'
        end
      else (g, d) :: chain_remove h r
  end.

(** Modelled from the spec: [reset()] of cycInt.c ([CycInt_Reset]), which is
    missing.  A full wipe of the table. *)
Definition CycInt_Reset (st : State) : State :=
  {| table := []; nCpuFreqShift := nCpuFreqShift st; dispatching := None |}.

(** Modelled from the spec: the insert-or-replace step of
    [arm_absolute], missing with cycInt.c; [t] is in canonical ticks. *)
Definition arm_ticks (h : interrupt_id) (t : Z) (st : State) : State :=
  {| table := chain_insert h t (chain_remove h (table st));
     nCpuFreqShift := nCpuFreqShift st;
     dispatching := dispatching st |}.

(** Modelled from the spec: [arm_absolute(handler, duration, domain)] of
    cycInt.c ([CycInt_AddAbsoluteInterrupt]), which is missing.  The
    duration is converted in 64-bit arithmetic; an invalid identity is a
    caller error. *)
Definition CycInt_AddAbsoluteInterrupt
    (CycleTime CycleType : Z) (Handler : interrupt_id) (st : State)
  : option State :=
  if valid_handler Handler then
    Some (arm_ticks Handler
            (INT_CONVERT_TO_INTERNAL 64 (nCpuFreqShift st) CycleTime CycleType)
            st)
  else None.

(** Modelled from the spec: [remove(handler)] of cycInt.c
    ([CycInt_RemovePendingInterrupt]), which is missing. *)
Definition CycInt_RemovePendingInterrupt (Handler : interrupt_id) (st : State)
  : State :=
  {| table := chain_remove Handler (table st);
     nCpuFreqShift := nCpuFreqShift st;
     dispatching := dispatching st |}.

(** Modelled from the spec: [is_active(handler)] of cycInt.c
    ([CycInt_InterruptActive]), which is missing. *)
Definition CycInt_InterruptActive (Handler : interrupt_id) (st : State) : bool :=
  existsb (fun e => interrupt_eqb (fst e) Handler) (table st).

(** Modelled from the spec: [active_now()] of cycInt.c
    ([CycInt_GetActiveInt]), which is missing: the identity at the head of
    the due queue. *)
Definition CycInt_GetActiveInt (st : State) : option interrupt_id :=
  match table st with
  | [] => None
  | (h, _) :: _ => Some h
  end.

(** Modelled from the spec: the expiry loop of [advance], missing with
    cycInt.c.  [carry] is what is still to be taken from the head: while the
    head's remaining ticks are not positive its handler is invoked, the
    entry is consumed and the negative remainder rolls into the next delta.
    The handlers belong to the device modules; here they leave the table
    alone and the result lists them in the order they were invoked. *)
Fixpoint dispatch (carry : Z) (c : chain) : list interrupt_id * chain :=
  match c with
  | [] => ([], [])
  | (h, d) :: r =>
      let left := d + carry in
      if left <=? 0 then
        let '(fired, c') := dispatch left r in (h :: fired, c')
      else ([], (h, left) :: r)
  end.

(** Modelled from the spec: [advance(elapsed_ticks)] of cycInt.c, which is
    missing.  Every invoked handler has acknowledged by the time the call
    returns, so no dispatch is in flight afterwards. *)
Definition advance (elapsed : Z) (st : State) : list interrupt_id * State :=
  let '(fired, c) := dispatch (- elapsed) (table st) in
  (fired,
   {| table := c; nCpuFreqShift := nCpuFreqShift st; dispatching := None |}).

(** Modelled from the spec: deltas resolved to absolute remaining ticks,
    as the snapshot adapter of the missing cycInt.c writes them. *)
Fixpoint resolve_from (base : Z) (c : chain) : list (interrupt_id * Z) :=
  match c with
  | [] => []
  | (h, d) :: r => (h, base + d) :: resolve_from (base + d) r
  end.

Definition resolve (c : chain) : list (interrupt_id * Z) := resolve_from 0 c.

(** The absolute remaining ticks of a handler, if it is armed. *)
Fixpoint lookup (h : interrupt_id) (l : list (interrupt_id * Z)) : option Z :=
  match l with
  | [] => None
  | (g, t) :: r => if interrupt_eqb g h then Some t else lookup h r
  end.

Definition remaining (h : interrupt_id) (st : State) : option Z :=
  lookup h (resolve (table st)).

(** Modelled from the spec: the persisted state layout of the missing
    cycInt.c: one [{active, remaining_absolute_ticks}] record per handler
    identity in enumeration order, followed by the frequency multiplier and
    the dispatching marker. *)
Record Snapshot : Type := {
  snap_entries : list (bool * Z);
  snap_shift : Z;
  snap_dispatching : option interrupt_id
}.

(** Modelled from the spec: the record a snapshot holds for one handler,
    from the absolute due times [l]; missing with cycInt.c. *)
Definition snapshot_record (l : list (interrupt_id * Z)) (h : interrupt_id)
  : bool * Z :=
  match lookup h l with
  | Some t => (true, t)
  | None => (false, 0)
  end.

(** Modelled from the spec: [capture(sink)] of the missing cycInt.c. *)
Definition capture (st : State) : Snapshot :=
  {| snap_entries := map (snapshot_record (resolve (table st))) handlers;
     snap_shift := nCpuFreqShift st;
     snap_dispatching := dispatching st |}.

(** Modelled from the spec: one step of rebuilding the delta chain from a
    snapshot, missing with cycInt.c: an active record is armed again at its
    absolute remaining ticks. *)
Definition rebuild_step (c : chain) (e : interrupt_id * (bool * Z)) : chain :=
  if fst (snd e) then chain_insert (fst e) (snd (snd e)) c else c.

(** Modelled from the spec: the rebuilding of the delta chain from the
    absolutes of a snapshot, re-sorted; missing with cycInt.c. *)
Definition rebuild (entries : list (interrupt_id * (bool * Z))) : chain :=
  fold_left rebuild_step entries [].

(** Modelled from the spec: [restore(source)] of the missing cycInt.c.  A
    snapshot whose size is not the handler count, or that holds negative
    ticks, is rejected. *)
Definition restore (snap : Snapshot) : option State :=
  if (Z.of_nat (length (snap_entries snap)) =? interrupt_val MAX_INTERRUPTS)
     && forallb (fun e => 0 <=? snd e) (snap_entries snap)
  then Some {| table := rebuild (combine handlers (snap_entries snap));
               nCpuFreqShift := snap_shift snap;
               dispatching := snap_dispatching snap |}
  else None.

(** Modelled from the spec: the entry point [cycInt.h] declares for both
    directions, its body missing with cycInt.c.  A rejected restore leaves
    the prior state untouched. *)
Definition CycInt_MemorySnapShot_Capture
    (bSave : bool) (st : State) (snap : Snapshot) : State * Snapshot :=
  if bSave then (st, capture st)
  else match restore snap with
       | Some st' => (st', snap)
       | None => (st, snap)
       end.

(** *** The table seen as absolute due times *)

(** Earlier due time first; on a tie the lower-valued identity first. *)
Definition key_lt (x y : interrupt_id * Z) : Prop :=
  snd x < snd y
  \/ (snd x = snd y /\ interrupt_val (fst x) < interrupt_val (fst y)).

(** Insertion into a list of absolute due times kept in [key_lt] order. *)
Fixpoint abs_insert (h : interrupt_id) (t : Z) (l : list (interrupt_id * Z))
  : list (interrupt_id * Z) :=
  match l with
  | [] => [(h, t)]
  | (g, u) :: r =>
      if fires_before t h u g then (h, t) :: (g, u) :: r
      else (g, u) :: abs_insert h t r
  end.

(** Removal of a handler's entry from a list of absolute due times. *)
Fixpoint abs_remove (h : interrupt_id) (l : list (interrupt_id * Z))
  : list (interrupt_id * Z) :=
  match l with
  | [] => []
  | (g, u) :: r =>
      if interrupt_eqb g h then r else (g, u) :: abs_remove h r
  end.

(** An entry is due once [e] ticks have elapsed. *)
Definition due (e : Z) (x : interrupt_id * Z) : bool := snd x <=? e.

Definition later (k : Z) (x : interrupt_id * Z) : interrupt_id * Z :=
  (fst x, snd x + k).

(** No entry has negative remaining ticks. *)
Definition nonneg_times (l : list (interrupt_id * Z)) : Prop :=
  Forall (fun x => 0 <= snd x) l.

(** The invariant of the table: due times in [key_lt] order, one entry per
    handler at most, valid identities only. *)
Definition table_ok (c : chain) : Prop :=
  StronglySorted key_lt (resolve c)
  /\ NoDup (map fst (resolve c))
  /\ Forall (fun x => valid_handler (fst x) = true) (resolve c).

(** *** Call sequences *)

Inductive call : Type :=
  | Arm (Handler : interrupt_id) (CycleTime CycleType : Z)
  | Advance (elapsed : Z).

(** Runs a sequence of calls; the log has, for each [Advance] in turn, the
    handlers it invoked. *)
Fixpoint run (st : State) (calls : list call)
  : option (State * list (list interrupt_id)) :=
  match calls with
  | [] => Some (st, [])
  | Arm h d ty :: cs =>
      match CycInt_AddAbsoluteInterrupt d ty h st with
      | Some st' => run st' cs
      | None => None
      end
  | Advance e :: cs =>
      let '(fired, st') := advance e st in
      match run st' cs with
      | Some (st'', log) => Some (st'', fired :: log)
      | None => None
      end
  end.

(** How often [h] occurs in a list of invoked handlers. *)
Definition fire_count (h : interrupt_id) (fired : list interrupt_id) : nat :=
  length (filter (interrupt_eqb h) fired).

(** The elapsed ticks of the [Advance] calls of a sequence. *)
Fixpoint elapsed_of (calls : list call) : list Z :=
  match calls with
  | [] => []
  | Arm _ _ _ :: cs => elapsed_of cs
  | Advance e :: cs => e :: elapsed_of cs
  end.

(** Whether [h] is armed anew somewhere in a sequence. *)
Definition rearms (h : interrupt_id) (calls : list call) : bool :=
  existsb (fun c => match c with
                    | Arm g _ _ => interrupt_eqb g h
                    | Advance _ => false
                    end) calls.

Definition call_valid (c : call) : bool :=
  match c with
  | Arm g _ _ => valid_handler g
  | Advance _ => true
  end.

(** The converted duration of every [Arm] of a sequence is not negative;
    [shift] is the frequency multiplier in force. *)
Definition arm_nonneg (shift : Z) (c : call) : bool :=
  match c with
  | Arm _ d ty => 0 <=? INT_CONVERT_TO_INTERNAL 64 shift d ty
  | Advance _ => true
  end.

(** The elapsed ticks accumulated by the end of the [k]-th advance
    (counted from 0). *)
Definition cumulative (elapsed : list Z) (k : nat) : Z :=
  fold_right Z.add 0 (firstn (S k) elapsed).

(** The firing schedule of an event armed for [t] ticks, one count per
    [Advance]: with [cum] the elapsed ticks accumulated so far and [done]
    telling whether the event has fired, the event fires once at the first
    advance at which the cumulative elapsed ticks reach [t], and at no
    other. *)
Fixpoint fire_schedule (t cum : Z) (done : bool) (elapsed : list Z)
  : list nat :=
  match elapsed with
  | [] => []
  | e :: es =>
      if negb done && (t <=? cum + e)
      then 1%nat :: fire_schedule t (cum + e) true es
      else 0%nat :: fire_schedule t (cum + e) done es
  end.

(** [h1] is invoked before [h2]. *)
Definition fires_in_order (h1 h2 : interrupt_id) (fired : list interrupt_id)
  : Prop :=
  exists l1 l2 l3, fired = l1 ++ h1 :: l2 ++ h2 :: l3.

(** ** console.c: what the filter writes *)

(** The byte [map_character] writes for [value]: the table entry, or the
    value itself. *)
Definition mapped_byte (value : Z) : Z :=
  if value <? 32 then nth (Z.to_nat value) map_0_31 0
  else if value >? 127 then nth (Z.to_nat (value - 128)) map_128_255 0
  else value.

(** The bytes that move the cursor without printing. *)
Definition is_blank_move (value : Z) : bool :=
  (value =? ch " ") || (value =? 8) || (value =? 9).

(** ** SDL.h of the libretro wrapper: colour packing *)

(** [RGB565(r, g, b)], in [int] arithmetic.  Green is shifted by 6. *)
Definition RGB565 (r g b : Z) : Z :=
  Z.lor (Z.lor (CInt.shl 32 r (int_add 5 6)) (CInt.shl 32 g 6)) b.

(** [SDL_MapRGB(a, r, g, b)]; the format [a] is not looked at. *)
Definition SDL_MapRGB (a r g b : Z) : Z :=
  RGB565 (CInt.shr 32 r 3) (CInt.shr 32 g 3) (CInt.shr 32 b 3).

(** The values of a five-bit colour component. *)
Definition five_bit : list Z := map Z.of_nat (seq 0 32).

(** ** gst2ascii.c: symbols, comparators and name filters *)

Module Gst2ascii.

(** A C string: its bytes without the terminating NUL. *)
Definition cstring : Type := list Z.

(** The bytes of a string literal. *)
Definition str (s : string) : cstring := map ch (list_ascii_of_string s).

(** [s[i]] for [0 <= i <= strlen(s)]; at [strlen(s)] that is the NUL. *)
Definition char_at (s : cstring) (i : Z) : Z := nth (Z.to_nat i) s 0.

(** [strcmp]: zero for equal strings, otherwise the difference of the
    first bytes that differ (of which the C standard fixes the sign). *)
Fixpoint strcmp (a b : cstring) : Z :=
  match a, b with
  | [], [] => 0
  | [], y :: _ => 0 - y
  | x :: _, [] => x - 0
  | x :: a', y :: b' => if x =? y then strcmp a' b' else x - y
  end.

(** [tolower] in the C locale. *)
Definition tolower (c : Z) : Z :=
  if (ch "A" <=? c) && (c <=? ch "Z") then c + 32 else c.

Inductive symtype_t : Type :=
  | SYMTYPE_TEXT
  | SYMTYPE_DATA
  | SYMTYPE_BSS
  | SYMTYPE_ABS.

Definition symtype_val (t : symtype_t) : Z :=
  match t with
  | SYMTYPE_TEXT => 1
  | SYMTYPE_DATA => 2
  | SYMTYPE_BSS => 4
  | SYMTYPE_ABS => 8
  end.

Record symbol_t : Type := {
  name : cstring;
  address : Z;      (* uint32_t *)
  type : symtype_t
}.

(** The [Options] of the tool; [notypes] is a mask of [symtype_t] values. *)
Record options_t : Type := {
  notypes : Z;
  no_local : bool;
  no_obj : bool;
  sort_name : bool
}.

(** compare function for qsort() to sort according to symbol address *)
Definition symbols_by_address (s1 s2 : symbol_t) : Z :=
  let addr1 := address s1 in
  let addr2 := address s2 in
  if addr1 <? addr2 then -1
  else if addr1 >? addr2 then 1
  else 0.

(** compare function for qsort() to sort according to symbol name *)
Definition symbols_by_name (s1 s2 : symbol_t) : Z :=
  strcmp (name s1) (name s2).

(** Return symbol type identifier char *)
Definition symbol_char (type : Z) : Z :=
  if type =? symtype_val SYMTYPE_TEXT then ch "T"
  else if type =? symtype_val SYMTYPE_DATA then ch "D"
  else if type =? symtype_val SYMTYPE_BSS then ch "B"
  else if type =? symtype_val SYMTYPE_ABS then ch "A"
  else ch "?".

Definition gcc_sym : list cstring :=
  [ str "___gnu_compiled_c"; str "gcc2_compiled." ].

(** Return true if symbol name matches internal GCC symbol name, or is
    object / file name. *)
Definition symbol_remove_obj (name : cstring) : bool :=
  let len := Z.of_nat (length name) in
  (* object (.a or .o) / file name? *)
  if (len >? 2)
     && (((char_at name (len - 2) =? ch ".")
          && ((char_at name (len - 1) =? ch "a")
              || (char_at name (len - 1) =? ch "o")))
         || existsb (Z.eqb (ch "/")) name)
  then true
  else
    (* useless symbols GCC (v2) seems to add to every object? *)
    existsb (fun g => strcmp name g =? 0) gcc_sym.

(** *** main: option parsing *)

(** How [main] ends before any file is read: [usage] with a message, which
    exits with status 1, or the call of [symbols_load] on a file name with
    the options as set. *)
Inductive main_outcome : Type :=
  | Usage (msg : string)
  | Load (opts : options_t) (filename : cstring).

Definition set_notypes (t : symtype_t) (o : options_t) : options_t :=
  {| notypes := Z.lor (notypes o) (symtype_val t); no_local := no_local o;
     no_obj := no_obj o; sort_name := sort_name o |}.
Definition set_no_local (o : options_t) : options_t :=
  {| notypes := notypes o; no_local := true;
     no_obj := no_obj o; sort_name := sort_name o |}.
Definition set_no_obj (o : options_t) : options_t :=
  {| notypes := notypes o; no_local := no_local o;
     no_obj := true; sort_name := sort_name o |}.
Definition set_sort_name (o : options_t) : options_t :=
  {| notypes := notypes o; no_local := no_local o;
     no_obj := no_obj o; sort_name := true |}.

(** The [switch] of the option loop: the options after the letter [c], or
    nothing for an unknown letter. *)
Definition option_letter (c : Z) (o : options_t) : option options_t :=
  if c =? ch "a" then Some (set_notypes SYMTYPE_ABS o)
  else if c =? ch "b" then Some (set_notypes SYMTYPE_BSS o)
  else if c =? ch "d" then Some (set_notypes SYMTYPE_DATA o)
  else if c =? ch "t" then Some (set_notypes SYMTYPE_TEXT o)
  else if c =? ch "l" then Some (set_no_local o)
  else if c =? ch "o" then Some (set_no_obj o)
  else if c =? ch "n" then Some (set_sort_name o)
  else None.

(** Lines 954-957: what follows the option loop; [rest] is [argv] from
    index [i] on, so [i+1 == argc] says that one argument is left. *)
Definition main_after_options (o : options_t) (rest : list cstring)
  : main_outcome :=
  match rest with
  | [filename] => Load o filename
  | _ => Usage "incorrect number of arguments"
  end.

(** Lines 924-953: the option loop; [rest] is [argv] from index [i] on, so
    [i+1 < argc] says that two arguments or more are left. *)
Fixpoint main_options (o : options_t) (rest : list cstring) : main_outcome :=
  match rest with
  | arg :: (_ :: _) as rest' =>
      if negb (char_at arg 0 =? ch "-") then main_after_options o rest
      else
        match option_letter (tolower (char_at arg 1)) o with
        | Some o' => main_options o' rest'
        | None => Usage "unknown option"
        end
  | _ => main_after_options o rest
  end.

(** The statically zeroed [Options]. *)
Definition Options0 : options_t :=
  {| notypes := 0; no_local := false; no_obj := false; sort_name := false |}.

(** parse program options and then call symbol load+save: [main] up to the
    call of [symbols_load]. *)
Definition main (argv : list cstring) : main_outcome :=
  main_options Options0 (tl argv).

(** An argument the option loop accepts: a dash followed by one of the
    option letters, in either case. *)
Definition option_arg (arg : cstring) : bool :=
  (char_at arg 0 =? ch "-")
  && existsb (Z.eqb (tolower (char_at arg 1))) (str "abdtlon").

(** Some argument of [args] carries the option letter [c]. *)
Definition has_letter (c : Z) (args : list cstring) : bool :=
  existsb (fun arg => tolower (char_at arg 1) =? c) args.

(** The options that a list of accepted option arguments stands for. *)
Definition options_of (args : list cstring) : options_t :=
  {| notypes :=
       (if has_letter (ch "a") args then symtype_val SYMTYPE_ABS else 0)
       + (if has_letter (ch "b") args then symtype_val SYMTYPE_BSS else 0)
       + (if has_letter (ch "d") args then symtype_val SYMTYPE_DATA else 0)
       + (if has_letter (ch "t") args then symtype_val SYMTYPE_TEXT else 0);
     no_local := has_letter (ch "l") args;
     no_obj := has_letter (ch "o") args;
     sort_name := has_letter (ch "n") args |}.

(** A string ends in the two bytes [x], [y]. *)
Definition ends_in (x y : Z) (s : cstring) : Prop :=
  exists p, s = p ++ [x; y].

(** *** symbols_load_dri: reading a DRI/GST symbol table *)

Record prg_section_t : Type := {
  offset : Z;       (* uint32_t *)
  end_ : Z          (* uint32_t, the field [end] *)
}.

(** What [symbols_load_dri] fills of a [symbol_list_t]; [names] holds the
    first [count] items of the array. *)
Record symbol_list_t : Type := {
  count : Z;
  symbols : Z;
  names : list symbol_t
}.

(** What the C library answers the loader: whether the [calloc] and the
    [malloc] of [symbol_list_alloc] give memory, and whether the [strdup]
    of the name stored at index [n] of the array does. *)
Record heap_t : Type := {
  calloc_ok : bool;
  malloc_ok : bool;
  strdup_ok : Z -> bool
}.

(** Allocate symbol list & names for given number of items: whether the
    result is a list, not NULL. *)
Definition symbol_list_alloc (heap : heap_t) (symbols : Z) : bool :=
  if symbols =? 0 then false
  else if calloc_ok heap then malloc_ok heap
  else false.

Definition DRI_ENTRY_SIZE : Z := 14.

(** The file from its current position on, as bytes.  [fread(buf, n, 1,
    fp)] gives the next [n] bytes and the file after them, or nothing when
    fewer than [n] bytes are left. *)
Definition fread (n : nat) (fp : list Z) : option (list Z * list Z) :=
  if (length fp <? n)%nat then None else Some (firstn n fp, skipn n fp).

(** What [SDL_SwapBE16] and [SDL_SwapBE32] make of bytes read into an
    integer: the big-endian number, on every host. *)
Definition big_endian (bytes : list Z) : Z :=
  fold_left (fun acc b => acc * 256 + b) bytes 0.

(** The C string a buffer holds: the bytes before the first NUL. *)
Fixpoint c_string (buf : list Z) : cstring :=
  match buf with
  | [] => []
  | b :: r => if b =? 0 then [] else b :: c_string r
  end.

Definition uint32 (z : Z) : Z := z mod 2 ^ 32.

(** The warnings of the loader, with the arguments of their [fprintf]. *)
Inductive dri_warning : Type :=
  | UnknownType (name : cstring) (slot symid : Z)
  | InvalidOffset (name : cstring) (symchar slot address section_end : Z).

(** The locals of the loop: the items stored so far and the counters.  The
    counters count slots, of which there are fewer than [2^32 / 14], so
    they stay within [int]. *)
Record dri_state : Type := {
  stored : list symbol_t;
  n_count : Z;
  n_invalid : Z;
  n_dtypes : Z;
  n_notypes : Z;
  n_locals : Z;
  n_ofiles : Z;
  warnings : list dri_warning
}.

Definition dri_start : dri_state :=
  {| stored := []; n_count := 0; n_invalid := 0; n_dtypes := 0;
     n_notypes := 0; n_locals := 0; n_ofiles := 0; warnings := [] |}.

Definition bump_invalid (w : dri_warning) (st : dri_state) : dri_state :=
  {| stored := stored st; n_count := n_count st;
     n_invalid := n_invalid st + 1; n_dtypes := n_dtypes st;
     n_notypes := n_notypes st; n_locals := n_locals st;
     n_ofiles := n_ofiles st; warnings := warnings st ++ [w] |}.
Definition bump_dtypes (st : dri_state) : dri_state :=
  {| stored := stored st; n_count := n_count st;
     n_invalid := n_invalid st; n_dtypes := n_dtypes st + 1;
     n_notypes := n_notypes st; n_locals := n_locals st;
     n_ofiles := n_ofiles st; warnings := warnings st |}.
Definition bump_notypes (st : dri_state) : dri_state :=
  {| stored := stored st; n_count := n_count st;
     n_invalid := n_invalid st; n_dtypes := n_dtypes st;
     n_notypes := n_notypes st + 1; n_locals := n_locals st;
     n_ofiles := n_ofiles st; warnings := warnings st |}.
Definition bump_locals (st : dri_state) : dri_state :=
  {| stored := stored st; n_count := n_count st;
     n_invalid := n_invalid st; n_dtypes := n_dtypes st;
     n_notypes := n_notypes st; n_locals := n_locals st + 1;
     n_ofiles := n_ofiles st; warnings := warnings st |}.
Definition bump_ofiles (st : dri_state) : dri_state :=
  {| stored := stored st; n_count := n_count st;
     n_invalid := n_invalid st; n_dtypes := n_dtypes st;
     n_notypes := n_notypes st; n_locals := n_locals st;
     n_ofiles := n_ofiles st + 1; warnings := warnings st |}.
Definition store_symbol (sym : symbol_t) (st : dri_state) : dri_state :=
  {| stored := stored st ++ [sym]; n_count := n_count st + 1;
     n_invalid := n_invalid st; n_dtypes := n_dtypes st;
     n_notypes := n_notypes st; n_locals := n_locals st;
     n_ofiles := n_ofiles st; warnings := warnings st |}.

(** Lines 381-385: the symbol goes to [names[count]] with a [strdup] of its
    name, and the assertion after it fails when [strdup] gave no memory:
    nothing then. *)
Definition store_asserted (heap : heap_t) (sym : symbol_t) (st : dri_state)
  : option dri_state :=
  if strdup_ok heap (n_count st) then Some (store_symbol sym st) else None.

(** [sections[k]] of the caller's array of three. *)
Definition section_at (sections : list prg_section_t) (k : nat)
  : prg_section_t :=
  nth k sections {| offset := 0; end_ := 0 |}.

(** The section check (lines 330-356): the type and the section index of a
    symbol, or a debugging symbol, or an unknown type. *)
Inductive dri_class : Type :=
  | DriSymbol (symtype : symtype_t) (section : option nat)
  | DriDebug
  | DriUnknown.

Definition dri_classify (symid : Z) : dri_class :=
  let k := Z.land symid 0xf00 in
  if k =? 0x0200 then DriSymbol SYMTYPE_TEXT (Some 0%nat)
  else if k =? 0x0400 then DriSymbol SYMTYPE_DATA (Some 1%nat)
  else if k =? 0x0100 then DriSymbol SYMTYPE_BSS (Some 2%nat)
  else if Z.land symid 0xe000 =? 0xe000 then DriDebug
  else if Z.land symid 0x4000 =? 0x4000 then DriSymbol SYMTYPE_ABS None
  else DriUnknown.

(** Lines 329-386: what one slot does to the locals, once it is read,
    or nothing when the assertion on [strdup] fails.  [buf] is the name
    buffer up to its terminator, [i] the slot number as the warnings print
    it. *)
Definition dri_slot (Options : options_t) (heap : heap_t)
    (sections : list prg_section_t)
    (i : Z) (buf : list Z) (symid address : Z) (st : dri_state)
  : option dri_state :=
  let name := c_string buf in
  match dri_classify symid with
  | DriDebug => Some (bump_dtypes st)
  | DriUnknown => Some (bump_invalid (UnknownType name i symid) st)
  | DriSymbol symtype section =>
      if negb (Z.land (notypes Options) (symtype_val symtype) =? 0)
      then Some (bump_notypes st)
      else if no_local Options
              && (char_at buf 0 =? ch ".") && (char_at buf 1 =? ch "L")
      then Some (bump_locals st)
      else if no_obj Options && symbol_remove_obj name
      then Some (bump_ofiles st)
      else
        match section with
        | Some k =>
            let sec := section_at sections k in
            let address := uint32 (address + offset sec) in
            if address >? end_ sec
            then Some (bump_invalid
                         (InvalidOffset name
                            (symbol_char (symtype_val symtype)) i
                            address (end_ sec)) st)
            else store_asserted heap
                   {| name := name; address := address; type := symtype |} st
        | None =>
            store_asserted heap
              {| name := name; address := address; type := symtype |} st
        end
  end.

(** How the loop over the slots ends. *)
Inductive dri_exit : Type :=
  | LoopLeft (i : Z) (st : dri_state)  (* by its condition or by a break *)
  | AssertionFailed.                   (* [assert] aborts the tool *)

(** Lines 307-387: the loop over the slots, from slot [i] on.  The result
    is the value of [i] and the locals when the loop is left, by its
    condition or by a [break] at a failed read, or the failed assertion;
    [None] when [fuel] runs out. *)
Fixpoint dri_loop (fuel : nat) (Options : options_t) (heap : heap_t)
    (sections : list prg_section_t) (symbols i : Z) (fp : list Z)
    (st : dri_state) : option dri_exit :=
  match fuel with
  | O => None
  | S fuel' =>
      if i <=? symbols then
        (* read DRI symbol table slot *)
        match fread 8 fp with
        | None => Some (LoopLeft i st)
        | Some (name8, fp) =>
            match fread 2 fp with
            | None => Some (LoopLeft i st)
            | Some (symid, fp) =>
                match fread 4 fp with
                | None => Some (LoopLeft i st)
                | Some (address, fp) =>
                    let address := big_endian address in
                    let symid := big_endian symid in
                    (* GST extended DRI symbol format? *)
                    if negb (Z.land symid 0x0048 =? 0) then
                      (* next slot is rest of name *)
                      let i := i + 1 in
                      match fread 14 fp with
                      | None => Some (LoopLeft i st)
                      | Some (more, fp) =>
                          match dri_slot Options heap sections i
                                  (name8 ++ more ++ [0]) symid address st with
                          | Some st =>
                              dri_loop fuel' Options heap sections symbols
                                (i + 1) fp st
                          | None => Some AssertionFailed
                          end
                      end
                    else
                      match dri_slot Options heap sections i (name8 ++ [0])
                              symid address st with
                      | Some st =>
                          dri_loop fuel' Options heap sections symbols
                            (i + 1) fp st
                      | None => Some AssertionFailed
                      end
                end
            end
        end
      else Some (LoopLeft i st)
  end.

(** Why [symbols_load_dri] gives no list: its three NULL returns, and the
    assertion that aborts the tool. *)
Inductive dri_error : Type :=
  | InvalidTableSize     (* the size is no multiple of the entry size *)
  | NoList               (* [symbol_list_alloc] returned NULL *)
  | ReadFailed           (* the loop was left before the last slot *)
  | AssertFailed.        (* [strdup] gave no memory *)

(** Load symbols from a DRI/GST format symbol table.  The result is the
    list with the locals as they stand at the end (the NOTE lines print the
    counters), or the reason for having none.  The outer [None] stands for
    the loop running out of fuel. *)
Definition symbols_load_dri (Options : options_t) (heap : heap_t)
    (fp : list Z) (sections : list prg_section_t) (tablesize : Z)
  : option (dri_error + symbol_list_t * dri_state) :=
  if negb (tablesize mod DRI_ENTRY_SIZE =? 0) then Some (inl InvalidTableSize)
  else
    let symbols := tablesize / DRI_ENTRY_SIZE in
    if negb (symbol_list_alloc heap symbols) then Some (inl NoList)
    else
      match dri_loop (S (Z.to_nat symbols)) Options heap sections symbols 1
              fp dri_start with
      | None => None
      | Some AssertionFailed => Some (inl AssertFailed)
      | Some (LoopLeft i st) =>
          if i <=? symbols then Some (inl ReadFailed)
          else Some (inr ({| count := n_count st; symbols := symbols;
                             names := stored st |}, st))
      end.

(** What holds of every symbol the loader stores. *)
Definition symbol_kept (Options : options_t) (sections : list prg_section_t)
    (sym : symbol_t) : Prop :=
  Z.land (notypes Options) (symtype_val (type sym)) = 0
  /\ (no_local Options = true ->
      forall r, name sym <> ch "." :: ch "L" :: r)
  /\ (no_obj Options = true -> symbol_remove_obj (name sym) = false)
  /\ match type sym with
     | SYMTYPE_TEXT => address sym <= end_ (section_at sections 0)
     | SYMTYPE_DATA => address sym <= end_ (section_at sections 1)
     | SYMTYPE_BSS => address sym <= end_ (section_at sections 2)
     | SYMTYPE_ABS => True
     end
  /\ Forall (fun c => c <> 0) (name sym)
  /\ (length (name sym) <= 22)%nat.

(** The invariant of the loader's loop. *)
Definition dri_inv (Options : options_t) (sections : list prg_section_t)
    (st : dri_state) : Prop :=
  Forall (symbol_kept Options sections) (stored st)
  /\ n_count st = Z.of_nat (length (stored st))
  /\ n_invalid st = Z.of_nat (length (warnings st))
  /\ 0 <= n_dtypes st /\ 0 <= n_notypes st /\ 0 <= n_locals st
  /\ 0 <= n_ofiles st.

(** The slots the counters account for. *)
Definition tally (st : dri_state) : Z :=
  n_count st + n_invalid st + n_dtypes st + n_notypes st + n_locals st
  + n_ofiles st.

(** A table of four slots for the examples: [_main] in TEXT, [_buf] in
    BSS, the local [.L1] in TEXT and [_table] in DATA at offset 0x100; and
    the sections of a program with 256 bytes of text and 128 bytes each of
    data and bss. *)
Definition sample_table : list Z :=
  [95; 109; 97; 105; 110; 0; 0; 0;  162; 0;  0; 0; 0; 0]
  ++ [95; 98; 117; 102; 0; 0; 0; 0;  161; 0;  0; 0; 0; 16]
  ++ [46; 76; 49; 0; 0; 0; 0; 0;  130; 0;  0; 0; 0; 32]
  ++ [95; 116; 97; 98; 108; 101; 0; 0;  164; 0;  0; 0; 1; 0].

Definition sample_sections : list prg_section_t :=
  [ {| offset := 0; end_ := 256 |}; {| offset := 256; end_ := 384 |};
    {| offset := 384; end_ := 512 |} ].

(** Memory for every request. *)
Definition sample_heap : heap_t :=
  {| calloc_ok := true; malloc_ok := true; strdup_ok := fun _ => true |}.

Definition sample_options : options_t :=
  {| notypes := 4; no_local := true; no_obj := false; sort_name := false |}.

Definition sample_loaded : symbol_list_t * dri_state :=
  ({| count := 1; symbols := 4;
      names := [ {| name := str "_main"; address := 0;
                    type := SYMTYPE_TEXT |} ] |},
   {| stored := [ {| name := str "_main"; address := 0;
                     type := SYMTYPE_TEXT |} ];
      n_count := 1; n_invalid := 1; n_dtypes := 0; n_notypes := 1;
      n_locals := 1; n_ofiles := 0;
      warnings := [ InvalidOffset (str "_table") (ch "D") 4 512 384 ] |}).

End Gst2ascii.

(** ** console.c: Console_Check *)

(** [printf]'s [%x]: lower-case hexadecimal digits, no leading zeros. *)
Definition hex_digit (d : Z) : Z := if d <? 10 then ch "0" + d else ch "a" + (d - 10).

Fixpoint hex_digits (fuel : nat) (n : Z) (acc : list Z) : list Z :=
  match fuel with
  | O => acc
  | S fuel' =>
      let acc := hex_digit (n mod 16) :: acc in
      if n / 16 =? 0 then acc else hex_digits fuel' (n / 16) acc
  end.

Definition printf_x (n : Z) : list Z := hex_digits 8 n [].

Section ConsoleCheck.

(** What [Console_Check] takes from the rest of the emulator, none of it in
    the sources at hand: the two memory readers, the sizes [SIZE_LONG] and
    [SIZE_WORD], the option [ConOutDevice], the program counter
    ([M68000_GetPC()]) and the stack pointer ([Regs[REG_A7]]). *)
Variable STMemory_ReadLong : Z -> Z.
Variable STMemory_ReadWord : Z -> Z.
Variable SIZE_LONG SIZE_WORD : Z.
Variable ConOutDevice : Z.
Variable pc : Z.
Variable a7 : Z.

Definition Uint32 (z : Z) : Z := z mod 2 ^ 32.

Definition warn_short_skipping : list Z :=
  Gst2ascii.str "WARNING: xconout stack args not found by skipping return addresses, trying short skipping."
  ++ [10].

Definition warn_not_found : list Z :=
  Gst2ascii.str "WARNING: xconout args not found from stack." ++ [10].

Definition warn_high_bits (chr : Z) : list Z :=
  Gst2ascii.str "WARNING: xconout character has high bits: 0x"
  ++ printf_x chr ++ Gst2ascii.str " '" ++ [Z.land chr 255]
  ++ Gst2ascii.str "'." ++ [10].

(** Lines 212-228: the search for the stack frame of xconout.  The result
    is the address of the device word, or nothing when the search gives up,
    with the stream after the warnings; [None] when [fuel] runs out. *)
Fixpoint find_stack_args (fuel : nat) (stackbeg stackend stack increment : Z)
    (stderr : list Z) : option (option Z * list Z) :=
  match fuel with
  | O => None
  | S fuel' =>
      if negb (STMemory_ReadWord stack =? ConOutDevice) then
        let stack := Uint32 (stack + increment) in
        if stack >? stackend then
          if increment =? SIZE_LONG then
            (* skipping return addresses not enough, try skipping
               potential local args too *)
            find_stack_args fuel' stackbeg stackend stackbeg SIZE_WORD
              (stderr ++ warn_short_skipping)
          else
            (* failed *)
            Some (None, stderr ++ warn_not_found)
        else find_stack_args fuel' stackbeg stackend stack increment stderr
      else Some (Some stack, stderr)
  end.

(** Catch requested xconout vector calls and show their output on
    console: one call, from the statics of [vt52_emu] and the stream before
    it to those after it. *)
Definition Console_Check (fuel : nat) (s : vt52_state) (stderr : list Z)
  : option (vt52_state * list Z) :=
  (* xconout vector for requested device? *)
  let xconout :=
    STMemory_ReadLong
      (Uint32 (int_add 0x57e (CInt.mul 32 ConOutDevice SIZE_LONG))) in
  if negb (pc =? xconout) then Some (s, stderr)
  else
    let stackbeg := a7 in
    let stackend := Uint32 (a7 + 16) in
    match find_stack_args fuel stackbeg stackend a7 SIZE_LONG stderr with
    | None => None
    | Some (None, stderr) => Some (s, stderr)
    | Some (Some stack, stderr) =>
        let chr := STMemory_ReadWord (Uint32 (stack + SIZE_WORD)) in
        if negb (Z.land chr 0xff00 =? 0) then
          (* higher bits, assume not correct arg *)
          Some (s, stderr ++ warn_high_bits chr)
        else if ConOutDevice =? 2 then
          (* EmuTOS/TOS/MiNT/etc console *)
          vt52_emu (chr mod 256) s stderr
        else if (ConOutDevice =? 1) || (ConOutDevice =? 3)
                || (ConOutDevice =? 5) then
          (* debug consoles and the raw screen device *)
          match map_character (chr mod 256) stderr with
          | Some stderr => Some (s, stderr)
          | None => None
          end
        else Some (s, stderr)
    end.

(** The offsets from the stack pointer at which the search looks for the
    device word, in the order it looks: long steps first, then word
    steps. *)
Definition search_offsets : list Z :=
  [0; 4; 8; 12; 16] ++ [0; 2; 4; 6; 8; 10; 12; 14; 16].

(** The first of the offsets at which memory holds the device number. *)
Definition first_device_word : option Z :=
  find (fun o => STMemory_ReadWord (a7 + o) =? ConOutDevice) search_offsets.

End ConsoleCheck.

(** ** gst2ascii.c: the checks for duplicates *)

Section SymbolChecks.

Import Gst2ascii.

(** [syms[i]]: an index outside the array has no defined result. *)
Definition syms_get (syms : list symbol_t) (i : Z) : option symbol_t :=
  if i <? 0 then None else nth_error syms (Z.to_nat i).

(** [s.type == SYMTYPE_ABS] *)
Definition is_abs (s : symbol_t) : bool :=
  symtype_val (type s) =? symtype_val SYMTYPE_ABS.

Definition warn_same_address (si sj : symbol_t) : list Z :=
  str "WARNING: symbols '" ++ name si ++ str "' & '" ++ name sj
  ++ str "' have the same 0x" ++ printf_x (address si)
  ++ str " address." ++ [10].

Definition warn_same_name (si sj : symbol_t) : list Z :=
  str "WARNING: addresses 0x" ++ printf_x (address si) ++ str " & 0x"
  ++ printf_x (address sj) ++ str " have the same '" ++ name si
  ++ str "' name." ++ [10].

(** The inner loop of [symbols_check_addresses], entered with [j] set: the
    result is [i] as the loop leaves it and the stream.  [None] when an
    index leaves the array or [fuel] runs out. *)
Fixpoint check_addresses_inner (fuel : nat) (syms : list symbol_t)
    (count i j : Z) (stderr : list Z) : option (Z * list Z) :=
  match fuel with
  | O => None
  | S fuel' =>
      if j <? count then
        match syms_get syms i, syms_get syms j with
        | Some si, Some sj =>
            if address si =? address sj then
              if is_abs sj then
                check_addresses_inner fuel' syms count i (int_add j 1) stderr
              else
                check_addresses_inner fuel' syms count j (int_add j 1)
                  (stderr ++ warn_same_address si sj)
            else Some (i, stderr)
        | _, _ => None
        end
      else Some (i, stderr)
  end.

(** The outer loop of [symbols_check_addresses], from [i] on. *)
Fixpoint check_addresses_outer (fuel : nat) (syms : list symbol_t)
    (count i : Z) (stderr : list Z) : option (list Z) :=
  match fuel with
  | O => None
  | S fuel' =>
      if i <? int_sub count 1 then
        match syms_get syms i with
        | Some si =>
            (* absolute symbols have values, not addresses *)
            if is_abs si then
              check_addresses_outer fuel' syms count (int_add i 1) stderr
            else
              match check_addresses_inner fuel' syms count i (int_add i 1)
                      stderr with
              | Some (i, stderr) =>
                  check_addresses_outer fuel' syms count (int_add i 1) stderr
              | None => None
              end
        | None => None
        end
      else Some stderr
  end.

(** check for duplicate addresses in symbol list *)
Definition symbols_check_addresses (fuel : nat) (syms : list symbol_t)
    (count : Z) (stderr : list Z) : option (list Z) :=
  check_addresses_outer fuel syms count 0 stderr.

(** The inner loop of [symbols_check_names], entered with [j] set. *)
Fixpoint check_names_inner (fuel : nat) (syms : list symbol_t)
    (count i j : Z) (stderr : list Z) : option (Z * list Z) :=
  match fuel with
  | O => None
  | S fuel' =>
      if j <? count then
        match syms_get syms i, syms_get syms j with
        | Some si, Some sj =>
            if strcmp (name si) (name sj) =? 0 then
              check_names_inner fuel' syms count j (int_add j 1)
                (stderr ++ warn_same_name si sj)
            else Some (i, stderr)
        | _, _ => None
        end
      else Some (i, stderr)
  end.

(** The outer loop of [symbols_check_names], from [i] on. *)
Fixpoint check_names_outer (fuel : nat) (syms : list symbol_t)
    (count i : Z) (stderr : list Z) : option (list Z) :=
  match fuel with
  | O => None
  | S fuel' =>
      if i <? int_sub count 1 then
        match check_names_inner fuel' syms count i (int_add i 1) stderr with
        | Some (i, stderr) =>
            check_names_outer fuel' syms count (int_add i 1) stderr
        | None => None
        end
      else Some stderr
  end.

(** check for duplicate names in symbol list *)
Definition symbols_check_names (fuel : nat) (syms : list symbol_t)
    (count : Z) (stderr : list Z) : option (list Z) :=
  check_names_outer fuel syms count 0 stderr.

(** The pairs of neighbours in a list that carry the same name, in the
    order of the list. *)
Fixpoint same_name_pairs (l : list symbol_t) : list (symbol_t * symbol_t) :=
  match l with
  | [] => []
  | a :: t =>
      match t with
      | b :: _ =>
          if strcmp (name a) (name b) =? 0
          then (a, b) :: same_name_pairs t
          else same_name_pairs t
      | [] => []
      end
  end.

(** One pass over a list that pairs each symbol that is not absolute with
    the next such symbol, as long as every symbol from the one to the
    other, absolute or not, has the address of the first.  [cur] is the
    symbol waiting for a partner. *)
Fixpoint same_address_pairs (cur : option symbol_t) (l : list symbol_t)
  : list (symbol_t * symbol_t) :=
  match l with
  | [] => []
  | s :: t =>
      let restart := if is_abs s then None else Some s in
      match cur with
      | None => same_address_pairs restart t
      | Some c =>
          if address c =? address s then
            if is_abs s then same_address_pairs cur t
            else (c, s) :: same_address_pairs (Some s) t
          else same_address_pairs restart t
      end
  end.

(** The symbols of the examples, sorted by name and by address. *)
Definition sample_names : list symbol_t :=
  [ {| name := str "_exit"; address := 64; type := SYMTYPE_TEXT |};
    {| name := str "_main"; address := 0; type := SYMTYPE_TEXT |};
    {| name := str "_main"; address := 512; type := SYMTYPE_DATA |};
    {| name := str "_zero"; address := 64; type := SYMTYPE_ABS |} ].

Definition sample_addresses : list symbol_t :=
  [ {| name := str "_main"; address := 0; type := SYMTYPE_TEXT |};
    {| name := str "_exit"; address := 64; type := SYMTYPE_TEXT |};
    {| name := str "_zero"; address := 64; type := SYMTYPE_ABS |};
    {| name := str "_quit"; address := 64; type := SYMTYPE_TEXT |};
    {| name := str "_data"; address := 512; type := SYMTYPE_DATA |} ].

End SymbolChecks.

(** A stack for the examples: the stack pointer is 1000, the device word
    (2, the VT52 console) lies at offset 4 and the character 65 after it. *)
Definition sample_stack (x : Z) : Z :=
  if x =? 1004 then 2 else if x =? 1006 then 65 else 0.

(** * Properties *)

(** ** Machine integers *)

Module CIntFacts.
Import CInt.

Lemma width_pos w z : in_range w z -> 0 < w.
Proof.
  unfold in_range. intros [Hlo Hhi].
  destruct (Z_lt_le_dec 0 w) as [Hw | Hw]; [exact Hw | exfalso].
  rewrite Z.pow_neg_r in Hlo, Hhi by lia. lia.
Qed.

Lemma pow_double w : 0 < w -> 2 ^ w = 2 * 2 ^ (w - 1).
Proof.
  intros Hw. replace w with (Z.succ (w - 1)) at 1 by lia.
  apply Z.pow_succ_r. lia.
Qed.

Lemma wrap_small w z : in_range w z -> wrap w z = z.
Proof.
  intros Hr. pose proof (width_pos _ _ Hr) as Hw.
  unfold in_range in Hr. unfold wrap.
  rewrite (pow_double w Hw). rewrite Z.mod_small; lia.
Qed.

Lemma in_range_between w a b :
  0 <= a <= b -> in_range w b -> in_range w a.
Proof.
  unfold in_range. intros Hab Hb.
  assert (0 <= 2 ^ (w - 1)) by (apply Z.pow_nonneg; lia). lia.
Qed.

Lemma in_range_wide w z : 32 <= w -> - 2 ^ 31 <= z < 2 ^ 31 -> in_range w z.
Proof.
  unfold in_range. intros Hw Hz.
  assert (2 ^ 31 <= 2 ^ (w - 1)) by (apply Z.pow_le_mono_r; lia). lia.
Qed.

Lemma mul_small w a b : in_range w (a * b) -> mul w a b = a * b.
Proof. apply wrap_small. Qed.

Lemma shl_small w a n :
  0 <= n -> in_range w (a * 2 ^ n) -> shl w a n = a * 2 ^ n.
Proof.
  intros Hn Hr. unfold shl. rewrite Z.shiftl_mul_pow2 by exact Hn.
  now apply wrap_small.
Qed.

Lemma div_small w a b :
  0 <= a -> 0 < b -> in_range w a -> div w a b = a / b.
Proof.
  intros Ha Hb Hr. unfold div. rewrite Z.quot_div_nonneg by lia.
  apply wrap_small. apply (in_range_between w (a / b) a); [| exact Hr].
  split; [apply Z.div_pos; lia |].
  apply Z.div_le_upper_bound; nia.
Qed.

Lemma shr_small w a n :
  0 <= a -> 0 <= n -> in_range w a -> shr w a n = a / 2 ^ n.
Proof.
  intros Ha Hn Hr. unfold shr. rewrite Z.shiftr_div_pow2 by exact Hn.
  assert (0 < 2 ^ n) by (apply Z.pow_pos_nonneg; lia).
  apply wrap_small. apply (in_range_between w (a / 2 ^ n) a); [| exact Hr].
  split; [apply Z.div_pos; lia |].
  apply Z.div_le_upper_bound; nia.
Qed.

End CIntFacts.

(** ** The conversion macros on operands that fit their type *)

Section ConverterFacts.

Import CInt CIntFacts.

Variable w : Z.
Variable s : Z.
Hypothesis shift_nonneg : 0 <= s.

Lemma pow_shift_pos : 1 <= 2 ^ s.
Proof. assert (0 < 2 ^ s) by (apply Z.pow_pos_nonneg; lia). lia. Qed.

Lemma to_internal_cpu d :
  0 <= d -> in_range w (d * INT_CPU_TO_INTERNAL) ->
  INT_CONVERT_TO_INTERNAL w s d INT_CPU_CYCLE = d * INT_CPU_TO_INTERNAL.
Proof. intros _ Hr. unfold INT_CONVERT_TO_INTERNAL. simpl. now apply mul_small. Qed.

Lemma to_internal_mfp d :
  0 <= d -> in_range w (d * INT_MFP_TO_INTERNAL * 2 ^ s) ->
  INT_CONVERT_TO_INTERNAL w s d INT_MFP_CYCLE
  = d * INT_MFP_TO_INTERNAL * 2 ^ s.
Proof.
  intros Hd Hr. pose proof pow_shift_pos as Hp.
  unfold INT_CONVERT_TO_INTERNAL. simpl.
  rewrite mul_small.
  - now apply shl_small.
  - apply (in_range_between w _ _ ) with (2 := Hr).
    unfold INT_MFP_TO_INTERNAL. nia.
Qed.

Lemma to_internal_boosted d ty :
  ty <> INT_CPU_CYCLE -> ty <> INT_MFP_CYCLE ->
  0 <= d -> in_range w (d * INT_CPU_TO_INTERNAL * 2 ^ s) ->
  INT_CONVERT_TO_INTERNAL w s d ty = d * INT_CPU_TO_INTERNAL * 2 ^ s.
Proof.
  intros H1 H2 Hd Hr. pose proof pow_shift_pos as Hp.
  unfold INT_CONVERT_TO_INTERNAL.
  destruct (Z.eqb_spec ty INT_CPU_CYCLE); [contradiction |].
  destruct (Z.eqb_spec ty INT_MFP_CYCLE); [contradiction |].
  rewrite mul_small.
  - now apply shl_small.
  - apply (in_range_between w _ _ ) with (2 := Hr).
    unfold INT_CPU_TO_INTERNAL. nia.
Qed.

Lemma from_internal_cpu c :
  0 <= c -> in_range w c ->
  INT_CONVERT_FROM_INTERNAL w s c INT_CPU_CYCLE = c / INT_CPU_TO_INTERNAL.
Proof.
  intros Hc Hr. unfold INT_CONVERT_FROM_INTERNAL. simpl.
  apply div_small; [exact Hc | reflexivity | exact Hr].
Qed.

Lemma from_internal_mfp c :
  0 <= c -> in_range w (c + INT_MFP_TO_INTERNAL) ->
  INT_CONVERT_FROM_INTERNAL w s c INT_MFP_CYCLE
  = (c + INT_MFP_TO_INTERNAL - 1) / INT_MFP_TO_INTERNAL / 2 ^ s.
Proof.
  intros Hc Hr. unfold INT_CONVERT_FROM_INTERNAL. simpl.
  unfold add. rewrite (wrap_small w (c + INT_MFP_TO_INTERNAL)) by exact Hr.
  assert (Hr' : in_range w (c + INT_MFP_TO_INTERNAL - 1)).
  { apply (in_range_between w _ _) with (2 := Hr).
    unfold INT_MFP_TO_INTERNAL. lia. }
  unfold sub. rewrite wrap_small by exact Hr'.
  assert (Hq : 0 <= c + INT_MFP_TO_INTERNAL - 1)
    by (unfold INT_MFP_TO_INTERNAL; lia).
  rewrite div_small; [| exact Hq | reflexivity | exact Hr'].
  apply shr_small; [apply Z.div_pos; [exact Hq | reflexivity] | exact shift_nonneg |].
  apply (in_range_between w _ _) with (2 := Hr').
  split; [apply Z.div_pos; [exact Hq | reflexivity] |].
  apply Z.div_le_upper_bound; [reflexivity |].
  unfold INT_MFP_TO_INTERNAL in *. lia.
Qed.

Lemma from_internal_boosted c ty :
  ty <> INT_CPU_CYCLE -> ty <> INT_MFP_CYCLE ->
  0 <= c -> in_range w c ->
  INT_CONVERT_FROM_INTERNAL w s c ty = c / INT_CPU_TO_INTERNAL / 2 ^ s.
Proof.
  intros H1 H2 Hc Hr. unfold INT_CONVERT_FROM_INTERNAL.
  destruct (Z.eqb_spec ty INT_CPU_CYCLE); [contradiction |].
  destruct (Z.eqb_spec ty INT_MFP_CYCLE); [contradiction |].
  rewrite div_small; [| exact Hc | reflexivity | exact Hr].
  apply shr_small; [apply Z.div_pos; [exact Hc | reflexivity] | exact shift_nonneg |].
  apply (in_range_between w _ _) with (2 := Hr).
  split; [apply Z.div_pos; [exact Hc | reflexivity] |].
  apply Z.div_le_upper_bound; [reflexivity |].
  unfold INT_CPU_TO_INTERNAL. lia.
Qed.

(** Converting a duration and converting it back gives the duration, in
    every domain. *)
Lemma from_to_internal d ty :
  0 <= d -> in_range w (d * INT_MFP_TO_INTERNAL * 2 ^ s + INT_MFP_TO_INTERNAL) ->
  INT_CONVERT_FROM_INTERNAL w s (INT_CONVERT_TO_INTERNAL w s d ty) ty = d.
Proof.
  intros Hd Hr. pose proof pow_shift_pos as Hp.
  assert (Hm : in_range w (d * INT_MFP_TO_INTERNAL * 2 ^ s)).
  { apply (in_range_between w _ _) with (2 := Hr).
    unfold INT_MFP_TO_INTERNAL. nia. }
  assert (Hb : in_range w (d * INT_CPU_TO_INTERNAL * 2 ^ s)).
  { apply (in_range_between w _ _) with (2 := Hm).
    unfold INT_MFP_TO_INTERNAL, INT_CPU_TO_INTERNAL. nia. }
  assert (Hc : in_range w (d * INT_CPU_TO_INTERNAL)).
  { apply (in_range_between w _ _) with (2 := Hb).
    unfold INT_CPU_TO_INTERNAL. nia. }
  destruct (Z.eq_dec ty INT_CPU_CYCLE) as [-> | Hn1].
  - rewrite to_internal_cpu by assumption.
    rewrite from_internal_cpu; [| unfold INT_CPU_TO_INTERNAL; lia | exact Hc].
    apply Z.div_mul. discriminate.
  - destruct (Z.eq_dec ty INT_MFP_CYCLE) as [-> | Hn2].
    + rewrite to_internal_mfp by assumption.
      rewrite from_internal_mfp;
        [| unfold INT_MFP_TO_INTERNAL; nia | exact Hr].
      replace (d * INT_MFP_TO_INTERNAL * 2 ^ s + INT_MFP_TO_INTERNAL - 1)
        with (d * 2 ^ s * INT_MFP_TO_INTERNAL + (INT_MFP_TO_INTERNAL - 1))
        by ring.
      rewrite Z.div_add_l by discriminate.
      rewrite (Z.div_small (INT_MFP_TO_INTERNAL - 1)) by (unfold INT_MFP_TO_INTERNAL; lia).
      rewrite Z.add_0_r. apply Z.div_mul. lia.
    + rewrite to_internal_boosted by assumption.
      rewrite from_internal_boosted;
        [| assumption | assumption | unfold INT_CPU_TO_INTERNAL; nia | exact Hb].
      replace (d * INT_CPU_TO_INTERNAL * 2 ^ s)
        with (d * 2 ^ s * INT_CPU_TO_INTERNAL) by ring.
      rewrite Z.div_mul by discriminate. apply Z.div_mul. lia.
Qed.

End ConverterFacts.

(** ** Rounding of the inverse conversion *)

Lemma floor_div a b : 0 < b -> is_floor (a / b) a b.
Proof.
  intros Hb. unfold is_floor.
  pose proof (Z.div_mod a b) as Hd. pose proof (Z.mod_pos_bound a b Hb). lia.
Qed.

Lemma ceiling_div a b : 0 < b -> is_ceiling ((a + b - 1) / b) a b.
Proof.
  intros Hb. unfold is_ceiling.
  pose proof (Z.div_mod (a + b - 1) b) as Hd.
  pose proof (Z.mod_pos_bound (a + b - 1) b Hb). lia.
Qed.

Lemma floor_unique q q' a b : 0 < b -> is_floor q a b -> is_floor q' a b -> q = q'.
Proof. unfold is_floor. intros Hb H1 H2. nia. Qed.

Ltac fits := vm_compute; split; [discriminate | reflexivity].

(** ** The conversion macros, one condition per domain *)

Section ConverterDomains.

Import CInt CIntFacts.

Variable w : Z.

Lemma in_range_pos_half z : in_range w z -> 0 < 2 ^ (w - 1).
Proof. unfold in_range. lia. Qed.

(** A product that fits keeps fitting without its factor [2 ^ s]. *)
Lemma in_range_unshifted x s :
  0 <= s -> in_range w (x * 2 ^ s) -> in_range w x.
Proof.
  intros Hs Hr. pose proof (in_range_pos_half _ Hr) as Hw.
  assert (Hp : 1 <= 2 ^ s)
    by (assert (0 < 2 ^ s) by (apply Z.pow_pos_nonneg; lia); lia).
  unfold in_range in *. nia.
Qed.

Lemma wrap_sub_wrap a b : in_range w (a - b) -> wrap w (wrap w a - b) = a - b.
Proof.
  intros Hr. pose proof (width_pos _ _ Hr) as Hw.
  rewrite <- (wrap_small w (a - b) Hr). unfold wrap. f_equal.
  replace ((a + 2 ^ (w - 1)) mod 2 ^ w - 2 ^ (w - 1) - b + 2 ^ (w - 1))
    with ((a + 2 ^ (w - 1)) mod 2 ^ w - b) by ring.
  rewrite Zminus_mod_idemp_l. f_equal. ring.
Qed.

Lemma to_internal_cpu_any s d :
  in_range w (d * INT_CPU_TO_INTERNAL) ->
  INT_CONVERT_TO_INTERNAL w s d INT_CPU_CYCLE = d * INT_CPU_TO_INTERNAL.
Proof. intros Hr. unfold INT_CONVERT_TO_INTERNAL. simpl. now apply mul_small. Qed.

Lemma to_internal_mfp_any s d :
  0 <= s -> in_range w (d * INT_MFP_TO_INTERNAL * 2 ^ s) ->
  INT_CONVERT_TO_INTERNAL w s d INT_MFP_CYCLE
  = d * INT_MFP_TO_INTERNAL * 2 ^ s.
Proof.
  intros Hs Hr. unfold INT_CONVERT_TO_INTERNAL. simpl.
  rewrite mul_small by (now apply (in_range_unshifted _ s)).
  now apply shl_small.
Qed.

Lemma to_internal_boosted_any s d :
  0 <= s -> in_range w (d * INT_CPU_TO_INTERNAL * 2 ^ s) ->
  INT_CONVERT_TO_INTERNAL w s d INT_CPU8_CYCLE
  = d * INT_CPU_TO_INTERNAL * 2 ^ s.
Proof.
  intros Hs Hr. unfold INT_CONVERT_TO_INTERNAL. simpl.
  rewrite mul_small by (now apply (in_range_unshifted _ s)).
  now apply shl_small.
Qed.

Lemma from_internal_cpu_any s c :
  0 <= c -> in_range w c ->
  INT_CONVERT_FROM_INTERNAL w s c INT_CPU_CYCLE = c / INT_CPU_TO_INTERNAL.
Proof.
  intros Hc Hr. unfold INT_CONVERT_FROM_INTERNAL. simpl.
  apply div_small; [exact Hc | reflexivity | exact Hr].
Qed.

Lemma from_internal_boosted_any s c :
  0 <= s -> 0 <= c -> in_range w c ->
  INT_CONVERT_FROM_INTERNAL w s c INT_CPU8_CYCLE
  = c / INT_CPU_TO_INTERNAL / 2 ^ s.
Proof.
  intros Hs Hc Hr. unfold INT_CONVERT_FROM_INTERNAL. simpl.
  rewrite div_small; [| exact Hc | reflexivity | exact Hr].
  apply shr_small; [apply Z.div_pos; [exact Hc | reflexivity] | exact Hs |].
  apply (in_range_between w _ _) with (2 := Hr).
  split; [apply Z.div_pos; [exact Hc | reflexivity] |].
  apply Z.div_le_upper_bound; [reflexivity |].
  unfold INT_CPU_TO_INTERNAL. lia.
Qed.

(** The MFP branch adds the multiplier and takes one off again; what has to
    fit is the sum that is divided. *)
Lemma from_internal_mfp_any s c :
  0 <= s -> 0 <= c -> in_range w (c + INT_MFP_TO_INTERNAL - 1) ->
  INT_CONVERT_FROM_INTERNAL w s c INT_MFP_CYCLE
  = (c + INT_MFP_TO_INTERNAL - 1) / INT_MFP_TO_INTERNAL / 2 ^ s.
Proof.
  intros Hs Hc Hr. unfold INT_CONVERT_FROM_INTERNAL.
  change (INT_MFP_CYCLE =? INT_CPU_CYCLE) with false.
  change (INT_MFP_CYCLE =? INT_MFP_CYCLE) with true. cbv iota.
  unfold sub, add.
  rewrite wrap_sub_wrap by exact Hr.
  assert (Hq : 0 <= c + INT_MFP_TO_INTERNAL - 1)
    by (unfold INT_MFP_TO_INTERNAL; lia).
  rewrite div_small; [| exact Hq | reflexivity | exact Hr].
  apply shr_small; [apply Z.div_pos; [exact Hq | reflexivity] | exact Hs |].
  apply (in_range_between w _ _) with (2 := Hr).
  split; [apply Z.div_pos; [exact Hq | reflexivity] |].
  apply Z.div_le_upper_bound; [reflexivity |].
  unfold INT_MFP_TO_INTERNAL in *. lia.
Qed.

End ConverterDomains.

(** C1, as the code has it.  For a non-negative tick count that fits its
    integer type, [INT_CONVERT_FROM_INTERNAL] truncates for the nominal-CPU
    domain, whatever the frequency shift is.  For the boosted-CPU domain and
    a shift count [s >= 0] it truncates in the same way and shifts the
    quotient right, which is the floor of ticks over [9600 * 2^s].  For the
    MFP domain, when the sum [ticks + 31333 - 1] the macro divides still
    fits the type, it takes the ceiling of ticks over 31333 and shifts that
    right by [s >= 0]; at shift 0 the result is the ceiling itself. *)
Theorem from_internal_rounding (w s c : Z) :
  0 <= c -> CInt.in_range w c ->
  is_floor (INT_CONVERT_FROM_INTERNAL w s c INT_CPU_CYCLE) c INT_CPU_TO_INTERNAL
  /\ (0 <= s ->
      (exists q, is_floor q c INT_CPU_TO_INTERNAL
                 /\ INT_CONVERT_FROM_INTERNAL w s c INT_CPU8_CYCLE
                    = Z.shiftr q s)
      /\ is_floor (INT_CONVERT_FROM_INTERNAL w s c INT_CPU8_CYCLE) c
           (INT_CPU_TO_INTERNAL * 2 ^ s))
  /\ (CInt.in_range w (c + INT_MFP_TO_INTERNAL - 1) ->
      (0 <= s ->
       exists q, is_ceiling q c INT_MFP_TO_INTERNAL
                 /\ INT_CONVERT_FROM_INTERNAL w s c INT_MFP_CYCLE
                    = Z.shiftr q s)
      /\ is_ceiling (INT_CONVERT_FROM_INTERNAL w 0 c INT_MFP_CYCLE) c
           INT_MFP_TO_INTERNAL).
Proof.
  intros Hc Hr. split; [| split].
  - rewrite from_internal_cpu_any by assumption. apply floor_div. reflexivity.
  - intros Hs.
    assert (Hp : 0 < 2 ^ s) by (apply Z.pow_pos_nonneg; lia).
    rewrite from_internal_boosted_any by assumption. split.
    + exists (c / INT_CPU_TO_INTERNAL). split.
      * apply floor_div. reflexivity.
      * now rewrite Z.shiftr_div_pow2.
    + rewrite Z.div_div by (unfold INT_CPU_TO_INTERNAL; lia).
      apply floor_div. unfold INT_CPU_TO_INTERNAL. lia.
  - intros Hm. split.
    + intros Hs. exists ((c + INT_MFP_TO_INTERNAL - 1) / INT_MFP_TO_INTERNAL).
      split.
      * apply ceiling_div. reflexivity.
      * rewrite from_internal_mfp_any by assumption.
        now rewrite Z.shiftr_div_pow2.
    + rewrite from_internal_mfp_any by (assumption || lia).
      rewrite Z.div_1_r. apply ceiling_div. reflexivity.
Qed.

Lemma from_internal_rounding_witness :
  is_floor (INT_CONVERT_FROM_INTERNAL 32 1 2147483647 INT_CPU_CYCLE)
    2147483647 INT_CPU_TO_INTERNAL
  /\ (exists q, is_floor q 2147483647 INT_CPU_TO_INTERNAL
                /\ INT_CONVERT_FROM_INTERNAL 32 1 2147483647 INT_CPU8_CYCLE
                   = Z.shiftr q 1)
  /\ is_floor (INT_CONVERT_FROM_INTERNAL 32 1 2147483647 INT_CPU8_CYCLE)
       2147483647 (INT_CPU_TO_INTERNAL * 2 ^ 1)
  /\ (exists q, is_ceiling q 9500 INT_MFP_TO_INTERNAL
                /\ INT_CONVERT_FROM_INTERNAL 32 1 9500 INT_MFP_CYCLE
                   = Z.shiftr q 1)
  /\ is_ceiling (INT_CONVERT_FROM_INTERNAL 32 0 9500 INT_MFP_CYCLE) 9500
       INT_MFP_TO_INTERNAL.
Proof.
  destruct (from_internal_rounding 32 1 2147483647 ltac:(lia) ltac:(fits))
    as (Hcpu & Hboost & _).
  destruct (Hboost ltac:(lia)) as (Hq & Hfloor).
  destruct (from_internal_rounding 32 1 9500 ltac:(lia) ltac:(fits))
    as (_ & _ & Hmfp).
  destruct (Hmfp ltac:(fits)) as (Hshift & Hceil).
  split; [exact Hcpu |]. split; [exact Hq |]. split; [exact Hfloor |].
  split; [apply Hshift; lia | exact Hceil].
Defined.

(** C1 as stated fails for the boosted-CPU domain: one canonical tick
    converts to 0 boosted cycles at shift 0, where a ceiling division by the
    CPU multiplier would give 1.  It also fails for the MFP domain at the
    top of the type: in 32 bits the largest tick count converts to a
    negative number of MFP cycles, the sum the macro divides not fitting
    the type. *)
Lemma from_internal_boosted_not_ceiling :
  INT_CONVERT_FROM_INTERNAL 32 0 1 INT_CPU8_CYCLE = 0
  /\ is_ceiling 1 1 INT_CPU_TO_INTERNAL
  /\ ~ is_ceiling (INT_CONVERT_FROM_INTERNAL 32 0 1 INT_CPU8_CYCLE) 1
         INT_CPU_TO_INTERNAL
  /\ INT_CONVERT_FROM_INTERNAL 32 0 2147483647 INT_MFP_CYCLE = -68536
  /\ ~ is_ceiling (INT_CONVERT_FROM_INTERNAL 32 0 2147483647 INT_MFP_CYCLE)
         2147483647 INT_MFP_TO_INTERNAL.
Proof.
  split; [reflexivity |]. split; [| split; [| split; [reflexivity |]]].
  - unfold is_ceiling, INT_CPU_TO_INTERNAL. lia.
  - change (INT_CONVERT_FROM_INTERNAL 32 0 1 INT_CPU8_CYCLE) with 0.
    unfold is_ceiling, INT_CPU_TO_INTERNAL. lia.
  - change (INT_CONVERT_FROM_INTERNAL 32 0 2147483647 INT_MFP_CYCLE)
      with (-68536).
    unfold is_ceiling, INT_MFP_TO_INTERNAL. lia.
Qed.

(** ** Round trip *)

(** C2, as the code has it.  For a non-negative duration [d], converting
    [d] to canonical ticks and back gives exactly [d] for the nominal-CPU
    domain when [d * 9600] fits the integer type, whatever the frequency
    shift is; for a shift count [s >= 0] it gives a value not below [d] for
    the MFP domain when [d * 31333 * 2^s + 31333 - 1] fits, and for the
    boosted-CPU domain when [d * 9600 * 2^s] fits. *)
Theorem from_to_internal_round_trip (w s d : Z) :
  0 <= d ->
  (CInt.in_range w (d * INT_CPU_TO_INTERNAL) ->
   INT_CONVERT_FROM_INTERNAL w s
     (INT_CONVERT_TO_INTERNAL w s d INT_CPU_CYCLE) INT_CPU_CYCLE = d)
  /\ (0 <= s ->
      CInt.in_range w
        (d * INT_MFP_TO_INTERNAL * 2 ^ s + INT_MFP_TO_INTERNAL - 1) ->
      d <= INT_CONVERT_FROM_INTERNAL w s
             (INT_CONVERT_TO_INTERNAL w s d INT_MFP_CYCLE) INT_MFP_CYCLE)
  /\ (0 <= s ->
      CInt.in_range w (d * INT_CPU_TO_INTERNAL * 2 ^ s) ->
      d <= INT_CONVERT_FROM_INTERNAL w s
             (INT_CONVERT_TO_INTERNAL w s d INT_CPU8_CYCLE) INT_CPU8_CYCLE).
Proof.
  intros Hd. split; [| split].
  - intros Hr. rewrite to_internal_cpu_any by exact Hr.
    rewrite from_internal_cpu_any;
      [| unfold INT_CPU_TO_INTERNAL; lia | exact Hr].
    apply Z.div_mul. discriminate.
  - intros Hs Hr.
    assert (Hp : 0 < 2 ^ s) by (apply Z.pow_pos_nonneg; lia).
    assert (Hm : CInt.in_range w (d * INT_MFP_TO_INTERNAL * 2 ^ s)).
    { apply (CIntFacts.in_range_between w _ _) with (2 := Hr).
      unfold INT_MFP_TO_INTERNAL. nia. }
    rewrite to_internal_mfp_any by assumption.
    rewrite from_internal_mfp_any;
      [| exact Hs | unfold INT_MFP_TO_INTERNAL; nia | exact Hr].
    replace (d * INT_MFP_TO_INTERNAL * 2 ^ s + INT_MFP_TO_INTERNAL - 1)
      with (d * 2 ^ s * INT_MFP_TO_INTERNAL + (INT_MFP_TO_INTERNAL - 1))
      by ring.
    rewrite Z.div_add_l by discriminate.
    rewrite (Z.div_small (INT_MFP_TO_INTERNAL - 1))
      by (unfold INT_MFP_TO_INTERNAL; lia).
    rewrite Z.add_0_r, Z.div_mul by lia. lia.
  - intros Hs Hr.
    assert (Hp : 0 < 2 ^ s) by (apply Z.pow_pos_nonneg; lia).
    rewrite to_internal_boosted_any by assumption.
    rewrite from_internal_boosted_any;
      [| exact Hs | unfold INT_CPU_TO_INTERNAL; nia | exact Hr].
    replace (d * INT_CPU_TO_INTERNAL * 2 ^ s)
      with (d * 2 ^ s * INT_CPU_TO_INTERNAL) by ring.
    rewrite Z.div_mul by discriminate. rewrite Z.div_mul by lia. lia.
Qed.

Lemma from_to_internal_round_trip_witness :
  INT_CONVERT_FROM_INTERNAL 32 2
    (INT_CONVERT_TO_INTERNAL 32 2 200000 INT_CPU_CYCLE) INT_CPU_CYCLE = 200000
  /\ 1000 <= INT_CONVERT_FROM_INTERNAL 32 2
               (INT_CONVERT_TO_INTERNAL 32 2 1000 INT_MFP_CYCLE) INT_MFP_CYCLE
  /\ 1000 <= INT_CONVERT_FROM_INTERNAL 32 2
               (INT_CONVERT_TO_INTERNAL 32 2 1000 INT_CPU8_CYCLE)
               INT_CPU8_CYCLE.
Proof.
  destruct (from_to_internal_round_trip 32 2 200000 ltac:(lia))
    as (Hcpu & _ & _).
  destruct (from_to_internal_round_trip 32 2 1000 ltac:(lia))
    as (_ & Hmfp & Hboost).
  split; [apply Hcpu; fits |].
  split; [apply Hmfp; [lia | fits] | apply Hboost; [lia | fits]].
Defined.

(** C2 as stated, for every duration and every frequency shift, fails where
    the ticks do not fit the integer type.  In 32 bits at shift 0 a round
    trip of 300000 nominal-CPU cycles does not give 300000 back, and those
    of 70000 MFP cycles and (at shift 1) of 150000 boosted-CPU cycles give
    less than they started from; in 64 bits at shift 50 so does a round trip
    of 1000 MFP cycles. *)
Lemma from_to_internal_round_trip_overflow :
  INT_CONVERT_FROM_INTERNAL 32 0
    (INT_CONVERT_TO_INTERNAL 32 0 300000 INT_CPU_CYCLE) INT_CPU_CYCLE
  <> 300000
  /\ ~ 70000 <= INT_CONVERT_FROM_INTERNAL 32 0
                  (INT_CONVERT_TO_INTERNAL 32 0 70000 INT_MFP_CYCLE)
                  INT_MFP_CYCLE
  /\ ~ 150000 <= INT_CONVERT_FROM_INTERNAL 32 1
                   (INT_CONVERT_TO_INTERNAL 32 1 150000 INT_CPU8_CYCLE)
                   INT_CPU8_CYCLE
  /\ ~ 1000 <= INT_CONVERT_FROM_INTERNAL 64 50
                 (INT_CONVERT_TO_INTERNAL 64 50 1000 INT_MFP_CYCLE)
                 INT_MFP_CYCLE.
Proof. repeat split; vm_compute; intros H; (discriminate H || now apply H). Qed.

(** ** Frequency shift *)

(** C6, as the code has it.  A nominal-CPU duration converts to the same
    ticks at every frequency shift, and to the duration times the CPU
    multiplier when that product fits the integer type.  For a shift count
    [s >= 0], an MFP duration and a boosted-CPU duration convert to their
    product with the domain's multiplier shifted left by the frequency
    shift, when the shifted product fits the integer type. *)
Theorem to_internal_frequency_shift (w s d : Z) :
  (forall s', INT_CONVERT_TO_INTERNAL w s' d INT_CPU_CYCLE
              = INT_CONVERT_TO_INTERNAL w s d INT_CPU_CYCLE)
  /\ (CInt.in_range w (d * INT_CPU_TO_INTERNAL) ->
      INT_CONVERT_TO_INTERNAL w s d INT_CPU_CYCLE = d * INT_CPU_TO_INTERNAL)
  /\ (0 <= s -> CInt.in_range w (d * INT_MFP_TO_INTERNAL * 2 ^ s) ->
      INT_CONVERT_TO_INTERNAL w s d INT_MFP_CYCLE
      = Z.shiftl (d * INT_MFP_TO_INTERNAL) s)
  /\ (0 <= s -> CInt.in_range w (d * INT_CPU_TO_INTERNAL * 2 ^ s) ->
      INT_CONVERT_TO_INTERNAL w s d INT_CPU8_CYCLE
      = Z.shiftl (d * INT_CPU_TO_INTERNAL) s).
Proof.
  split; [reflexivity |].
  split; [apply to_internal_cpu_any |].
  split; intros Hs Hr; rewrite Z.shiftl_mul_pow2 by exact Hs.
  - now apply to_internal_mfp_any.
  - now apply to_internal_boosted_any.
Qed.

Lemma to_internal_frequency_shift_witness :
  (forall s', INT_CONVERT_TO_INTERNAL 32 s' 200000 INT_CPU_CYCLE
              = INT_CONVERT_TO_INTERNAL 32 1 200000 INT_CPU_CYCLE)
  /\ INT_CONVERT_TO_INTERNAL 32 1 200000 INT_CPU_CYCLE
     = 200000 * INT_CPU_TO_INTERNAL
  /\ INT_CONVERT_TO_INTERNAL 32 1 10 INT_MFP_CYCLE
     = Z.shiftl (10 * INT_MFP_TO_INTERNAL) 1
  /\ INT_CONVERT_TO_INTERNAL 32 1 10 INT_CPU8_CYCLE
     = Z.shiftl (10 * INT_CPU_TO_INTERNAL) 1.
Proof.
  destruct (to_internal_frequency_shift 32 1 200000) as (Hany & Hcpu & _ & _).
  destruct (to_internal_frequency_shift 32 1 10) as (_ & _ & Hmfp & Hboost).
  split; [exact Hany |]. split; [apply Hcpu; fits |].
  split; [apply Hmfp; [lia | fits] | apply Hboost; [lia | fits]].
Defined.

(** C6 as stated, for every duration, fails where the product does not fit
    the integer type: in 32 bits, 300000 nominal-CPU cycles do not convert
    to 300000 times the CPU multiplier, nor do 70000 MFP cycles at shift 1
    convert to their product with the MFP multiplier shifted left by 1. *)
Lemma to_internal_frequency_shift_overflow :
  INT_CONVERT_TO_INTERNAL 32 0 300000 INT_CPU_CYCLE
  <> 300000 * INT_CPU_TO_INTERNAL
  /\ INT_CONVERT_TO_INTERNAL 32 1 70000 INT_MFP_CYCLE
     <> Z.shiftl (70000 * INT_MFP_TO_INTERNAL) 1
  /\ INT_CONVERT_TO_INTERNAL 32 1 150000 INT_CPU8_CYCLE
     <> Z.shiftl (150000 * INT_CPU_TO_INTERNAL) 1.
Proof. repeat split; vm_compute; discriminate. Qed.

(** C7.  With an integer type of at least 32 bits, an MFP duration of 10
    units converts at frequency multiplier 1 to exactly twice the ticks it
    converts to at multiplier 0 (626660 against 313330). *)
Theorem mfp_ten_units_doubles (w : Z) :
  32 <= w ->
  INT_CONVERT_TO_INTERNAL w 1 10 INT_MFP_CYCLE
  = 2 * INT_CONVERT_TO_INTERNAL w 0 10 INT_MFP_CYCLE
  /\ INT_CONVERT_TO_INTERNAL w 0 10 INT_MFP_CYCLE = 313330.
Proof.
  intros Hw.
  rewrite !to_internal_mfp;
    try (apply CIntFacts.in_range_wide; [exact Hw | vm_compute; split; discriminate || reflexivity]);
    try lia.
  split; reflexivity.
Qed.

Lemma mfp_ten_units_doubles_witness :
  INT_CONVERT_TO_INTERNAL 64 1 10 INT_MFP_CYCLE
  = 2 * INT_CONVERT_TO_INTERNAL 64 0 10 INT_MFP_CYCLE
  /\ INT_CONVERT_TO_INTERNAL 64 0 10 INT_MFP_CYCLE = 313330.
Proof. apply (mfp_ten_units_doubles 64). lia. Defined.

(** C8.  The two multipliers are the positive integer constants 9600 and
    31333, which have no common factor; one nominal-CPU cycle is 9600
    canonical ticks at every frequency shift and one MFP cycle is 31333
    canonical ticks at shift 0. *)
Theorem multipliers_coprime :
  INT_CPU_TO_INTERNAL = 9600 /\ INT_MFP_TO_INTERNAL = 31333
  /\ 0 < INT_CPU_TO_INTERNAL /\ 0 < INT_MFP_TO_INTERNAL
  /\ Z.gcd INT_CPU_TO_INTERNAL INT_MFP_TO_INTERNAL = 1
  /\ (forall s, INT_CONVERT_TO_INTERNAL 32 s 1 INT_CPU_CYCLE = 9600)
  /\ INT_CONVERT_TO_INTERNAL 32 0 1 INT_MFP_CYCLE = 31333.
Proof. repeat split. Qed.

(** ** console.c *)

Lemma int_sub_small a b :
  - 2 ^ 31 <= a - b < 2 ^ 31 -> int_sub a b = a - b.
Proof.
  intros H. unfold int_sub, CInt.sub. apply CIntFacts.wrap_small.
  apply CIntFacts.in_range_wide; [lia | exact H].
Qed.

Lemma array_get_in_bounds tbl i :
  0 <= i < Z.of_nat (length tbl) -> exists c, array_get tbl i = Some c.
Proof.
  intros [Hlo Hhi]. unfold array_get.
  destruct (Z.ltb_spec i 0); [lia |].
  destruct (nth_error tbl (Z.to_nat i)) as [c |] eqn:E; [now exists c |].
  apply nth_error_None in E. lia.
Qed.

(** C9.  For every 8-bit value [map_character] appends exactly one byte to
    the stream and reads no table out of bounds: below 32 the byte is
    [map_0_31[value]], an index within the 32 entries; above 127 it is
    [map_128_255[value - 128]], an index within the 128 entries; otherwise
    it is the value itself. *)
Theorem map_character_one_byte_in_bounds (value : Z) (stderr : list Z) :
  0 <= value < 256 ->
  length map_0_31 = 32%nat /\ length map_128_255 = 128%nat
  /\ exists c,
       map_character value stderr = Some (stderr ++ [c])
       /\ (value < 32 ->
           0 <= value < Z.of_nat (length map_0_31)
           /\ array_get map_0_31 value = Some c)
       /\ (127 < value ->
           0 <= value - 128 < Z.of_nat (length map_128_255)
           /\ array_get map_128_255 (value - 128) = Some c)
       /\ (32 <= value <= 127 -> c = value).
Proof.
  intros Hv. split; [reflexivity |]. split; [reflexivity |].
  unfold map_character.
  destruct (Z.ltb_spec value 32) as [Hlt | Hge].
  - destruct (array_get_in_bounds map_0_31 value) as [c Hc];
      [change (length map_0_31) with 32%nat; lia |].
    exists c. rewrite Hc. unfold fputc.
    change (Z.of_nat (length map_0_31)) with 32.
    repeat split; try lia; try assumption.
  - destruct (Z.gtb_spec value 127) as [Hgt | Hle].
    + rewrite int_sub_small by lia.
      destruct (array_get_in_bounds map_128_255 (value - 128)) as [c Hc];
        [change (length map_128_255) with 128%nat; lia |].
      exists c. rewrite Hc. unfold fputc.
      change (Z.of_nat (length map_128_255)) with 128.
      repeat split; try lia; try assumption.
    + exists value. unfold fputc. repeat split; lia.
Qed.

Lemma map_character_one_byte_in_bounds_witness :
  length map_0_31 = 32%nat /\ length map_128_255 = 128%nat
  /\ exists c,
       map_character 255 [] = Some ([] ++ [c])
       /\ (255 < 32 ->
           0 <= 255 < Z.of_nat (length map_0_31)
           /\ array_get map_0_31 255 = Some c)
       /\ (127 < 255 ->
           0 <= 255 - 128 < Z.of_nat (length map_128_255)
           /\ array_get map_128_255 (255 - 128) = Some c)
       /\ (32 <= 255 <= 127 -> c = 255).
Proof. apply (map_character_one_byte_in_bounds 255 []). lia. Defined.

Lemma clamp_hpos_range v : 0 <= clamp_hpos v <= 79.
Proof.
  unfold clamp_hpos.
  destruct (Z.gtb_spec v 79); [lia |].
  destruct (Z.ltb_spec v 0); lia.
Qed.

(** The position step of lines 109-123 on its own. *)
Lemma vt52_position_spec value s stderr :
  let target := clamp_hpos (int_sub value (ch " ")) in
  let '(s', out) := vt52_position value s stderr in
  hpos_tos s' = target
  /\ escape_target s' = escape_target s
  /\ (hpos_host s < target ->
      hpos_host s' = target /\ need_nl s' = need_nl s
      /\ out = pad (int_sub target (hpos_host s)) stderr)
  /\ (target < hpos_host s ->
      hpos_host s' = hpos_host s /\ need_nl s' = true /\ out = stderr)
  /\ (target = hpos_host s ->
      hpos_host s' = hpos_host s /\ need_nl s' = need_nl s /\ out = stderr).
Proof.
  unfold vt52_position. simpl.
  destruct (Z.gtb_spec (clamp_hpos (int_sub value (ch " "))) (hpos_host s)).
  - simpl. repeat split; intros; try lia; reflexivity.
  - destruct (Z.ltb_spec (clamp_hpos (int_sub value (ch " "))) (hpos_host s));
      simpl; repeat split; intros; try lia; reflexivity.
Qed.

(** From rest, [ESC], ['Y'] and the row item leave the statics waiting
    for the column item. *)
Lemma vt52_position_prefix s stderr row :
  escape_target s = 0 ->
  exists s', vt52_feed [27; ch "Y"; row] s stderr = Some (s', stderr)
             /\ awaits_position_column s'
             /\ hpos_host s' = hpos_host s /\ need_nl s' = need_nl s.
Proof.
  intros H0. unfold vt52_feed, vt52_emu. rewrite H0. simpl.
  eexists. split; [reflexivity |]. unfold awaits_position_column. simpl.
  repeat split; try discriminate; try reflexivity.
Qed.

(** The two range checks of lines 111-115 clamp: a target above 79 becomes
    79, one below 0 becomes 0, and one within 0..79 is kept. *)
Lemma clamp_hpos_clamps v : clamp_hpos v = Z.max 0 (Z.min 79 v).
Proof.
  unfold clamp_hpos.
  destruct (Z.gtb_spec v 79); [lia |]. destruct (Z.ltb_spec v 0); lia.
Qed.

(** C10.  When [vt52_emu] reads the last item of a cursor-position
    sequence, the horizontal target it stores is [value - ' '] clamped to
    0..79: 79 for a column item above 111, and [value - ' '] itself for an
    item within 32..111.  The cursor movement that follows (padding the
    host line, or asking for a new line) is computed from that clamped
    target. *)
Theorem vt52_position_target_clamped (value : Z) (s : vt52_state)
    (stderr : list Z) :
  0 <= value < 256 -> awaits_position_column s ->
  exists s' out,
    vt52_emu value s stderr = Some (s', out)
    /\ 0 <= hpos_tos s' <= 79
    /\ hpos_tos s' = Z.max 0 (Z.min 79 (value - 32))
    /\ escape_target s' = 0
    /\ (hpos_host s < hpos_tos s' ->
        hpos_host s' = hpos_tos s'
        /\ out = pad (int_sub (hpos_tos s') (hpos_host s)) stderr)
    /\ (hpos_tos s' < hpos_host s ->
        hpos_host s' = hpos_host s /\ need_nl s' = true /\ out = stderr)
    /\ (hpos_tos s' = hpos_host s ->
        hpos_host s' = hpos_host s /\ out = stderr).
Proof.
  intros Hv (Ht & Hk & Hi & Hr).
  unfold vt52_emu.
  destruct (Z.eqb_spec (escape_target s) 0) as [| _]; [contradiction |].
  cbn [negb]. cbn [escape_index set_escape_index escape_target].
  destruct (Z.eqb_spec (int_add (escape_index s) 1) 1) as [| _];
    [contradiction |].
  destruct (Z.ltb_spec (int_add (escape_index s) 1) (escape_target s));
    [lia |].
  unfold vt52_escape_end. cbn [escape_type set_escape_index].
  rewrite Hk. cbn [is_position].
  pose proof (vt52_position_spec value
                (set_escape_index (int_add (escape_index s) 1) s) stderr) as P.
  cbv zeta in P.
  destruct (vt52_position value _ stderr) as [s1 out].
  destruct P as (P1 & P2 & P3 & P4 & P5).
  cbn [hpos_host need_nl set_escape_index] in P3, P4, P5.
  replace (int_sub value (ch " ")) with (value - 32) in *
    by (symmetry; apply int_sub_small; change (ch " ") with 32; lia).
  exists (set_escape_target 0 s1), out.
  cbn [hpos_tos hpos_host need_nl escape_target set_escape_target].
  rewrite P1. pose proof (clamp_hpos_range (value - 32)).
  split; [reflexivity |]. split; [lia |].
  split; [apply clamp_hpos_clamps |].
  split; [reflexivity |].
  split; [intros H1; destruct (P3 H1) as (? & ? & ?); now split |].
  split; [intros H1; exact (P4 H1) |].
  intros H1; destruct (P5 H1) as (? & ? & ?); now split.
Qed.

Lemma vt52_position_target_clamped_witness :
  exists s' out,
    vt52_emu 255 vt52_after_row [] = Some (s', out)
    /\ 0 <= hpos_tos s' <= 79
    /\ hpos_tos s' = Z.max 0 (Z.min 79 (255 - 32))
    /\ escape_target s' = 0
    /\ (hpos_host vt52_after_row < hpos_tos s' ->
        hpos_host s' = hpos_tos s'
        /\ out = pad (int_sub (hpos_tos s') (hpos_host vt52_after_row)) [])
    /\ (hpos_tos s' < hpos_host vt52_after_row ->
        hpos_host s' = hpos_host vt52_after_row
        /\ need_nl s' = true /\ out = [])
    /\ (hpos_tos s' = hpos_host vt52_after_row ->
        hpos_host s' = hpos_host vt52_after_row /\ out = []).
Proof.
  apply (vt52_position_target_clamped 255 vt52_after_row []).
  - lia.
  - unfold awaits_position_column. vm_compute.
    repeat split; discriminate.
Defined.

(** The row item does lead there: the statics after [ESC Y row] from rest
    are [vt52_after_row]. *)
Lemma vt52_after_row_reached row :
  vt52_feed [27; ch "Y"; row] vt52_init [] = Some (vt52_after_row, []).
Proof. reflexivity. Qed.

(** A column item of 255 is clamped to column 79 and 79 blanks pad the host
    line. *)
Example vt52_position_far_right :
  vt52_feed [27; ch "Y"; 32; 255] vt52_init []
  = Some ({| escape_index := 3; escape_target := 0; hpos_host := 79;
             hpos_tos := 79; need_nl := false;
             escape_type := ESCAPE_POSITION |},
          repeat 32 79).
Proof. reflexivity. Qed.

(** ** cycInt: handler identities *)

Lemma interrupt_val_inj h g : interrupt_val h = interrupt_val g -> h = g.
Proof. destruct h, g; simpl; intros H; (reflexivity || discriminate H). Qed.

Lemma interrupt_eqb_eq h g : interrupt_eqb h g = true <-> h = g.
Proof.
  unfold interrupt_eqb. rewrite Z.eqb_eq. split.
  - apply interrupt_val_inj.
  - now intros ->.
Qed.

Lemma interrupt_eqb_refl h : interrupt_eqb h h = true.
Proof. now apply interrupt_eqb_eq. Qed.

Lemma interrupt_eqb_neq h g : interrupt_eqb h g = false <-> h <> g.
Proof.
  rewrite <- interrupt_eqb_eq. destruct (interrupt_eqb h g); split; congruence.
Qed.

Lemma interrupt_eqb_sym h g : interrupt_eqb h g = interrupt_eqb g h.
Proof. unfold interrupt_eqb. apply Z.eqb_sym. Qed.

Lemma valid_handler_listed h : valid_handler h = true <-> In h handlers.
Proof.
  split.
  - destruct h; simpl; intros H; try discriminate H; tauto.
  - intros H. simpl in H.
    repeat (destruct H as [<- | H]; [reflexivity |]). contradiction.
Qed.

Lemma handlers_NoDup : NoDup handlers.
Proof.
  unfold handlers.
  repeat (constructor; [simpl; intros H;
    repeat (destruct H as [H | H]; [discriminate H |]); exact H |]).
  constructor.
Qed.

Lemma fires_before_key t h d g :
  fires_before t h d g = true <-> key_lt (h, t) (g, d).
Proof.
  unfold fires_before, key_lt. simpl.
  rewrite orb_true_iff, andb_true_iff, !Z.ltb_lt, Z.eqb_eq. tauto.
Qed.

Lemma fires_before_shift b t h d g :
  fires_before (b + t) h (b + d) g = fires_before t h d g.
Proof.
  unfold fires_before.
  destruct (Z.ltb_spec (b + t) (b + d)), (Z.ltb_spec t d),
    (Z.eqb_spec (b + t) (b + d)), (Z.eqb_spec t d);
    try lia; reflexivity.
Qed.

Lemma key_lt_irrefl x : ~ key_lt x x.
Proof. unfold key_lt. lia. Qed.

Lemma key_lt_trans x y z : key_lt x y -> key_lt y z -> key_lt x z.
Proof. unfold key_lt. lia. Qed.

Lemma key_lt_total x y : key_lt x y \/ x = y \/ key_lt y x.
Proof.
  destruct x as [h t], y as [g u]. unfold key_lt. simpl.
  destruct (Z.lt_trichotomy t u) as [H | [H | H]]; try lia.
  destruct (Z.lt_trichotomy (interrupt_val h) (interrupt_val g))
    as [H' | [H' | H']]; try lia.
  right. left. apply interrupt_val_inj in H'. congruence.
Qed.

(** ** cycInt: the delta chain against the absolute due times *)

Lemma resolve_from_handlers b c : map fst (resolve_from b c) = map fst c.
Proof.
  revert b. induction c as [| [g d] r IH]; intros b; simpl;
    [reflexivity | now rewrite IH].
Qed.

Lemma resolve_from_shift b k c :
  resolve_from (b + k) c = map (later k) (resolve_from b c).
Proof.
  revert b. induction c as [| [g d] r IH]; intros b; simpl; [reflexivity |].
  unfold later at 1. simpl. f_equal.
  - f_equal. lia.
  - replace (b + k + d) with (b + d + k) by lia. apply IH.
Qed.

Lemma resolve_from_inj b c1 c2 :
  resolve_from b c1 = resolve_from b c2 -> c1 = c2.
Proof.
  revert b c2. induction c1 as [| [g d] r IH]; intros b [| [g' d'] r'];
    simpl; intros H; try discriminate H; [reflexivity |].
  injection H as Hg Hd Hr. subst g'.
  assert (d = d') by lia. subst d'. f_equal. now apply (IH (b + d)).
Qed.

Lemma resolve_insert h t b c :
  resolve_from b (chain_insert h t c) = abs_insert h (b + t) (resolve_from b c).
Proof.
  revert b t. induction c as [| [g d] r IH]; intros b t; simpl.
  - reflexivity.
  - rewrite fires_before_shift. destruct (fires_before t h d g); simpl.
    + replace (b + t + (d - t)) with (b + d) by lia. reflexivity.
    + rewrite IH. replace (b + d + (t - d)) with (b + t) by lia. reflexivity.
Qed.

Lemma resolve_remove h b c :
  resolve_from b (chain_remove h c) = abs_remove h (resolve_from b c).
Proof.
  revert b. induction c as [| [g d] r IH]; intros b; simpl.
  - reflexivity.
  - destruct (interrupt_eqb g h).
    + destruct r as [| [g' d'] r']; simpl; [reflexivity |].
      replace (b + (d + d')) with (b + d + d') by lia. reflexivity.
    + simpl. now rewrite IH.
Qed.

(** ** cycInt: lists of absolute due times *)

Section AbsoluteTimes.

Implicit Types (l : list (interrupt_id * Z)) (h g : interrupt_id).

Lemma abs_insert_In h t l x :
  In x (abs_insert h t l) <-> x = (h, t) \/ In x l.
Proof.
  induction l as [| [g u] r IH]; simpl.
  - intuition congruence.
  - destruct (fires_before t h u g); simpl.
    + intuition congruence.
    + rewrite IH. intuition congruence.
Qed.

Lemma abs_insert_handlers h t l g :
  In g (map fst (abs_insert h t l)) <-> g = h \/ In g (map fst l).
Proof.
  rewrite !in_map_iff. split.
  - intros [x [Hx Hin]]. apply abs_insert_In in Hin as [-> | Hin].
    + left. now symmetry.
    + right. now exists x.
  - intros [-> | [x [Hx Hin]]].
    + exists (h, t). split; [reflexivity |]. apply abs_insert_In. now left.
    + exists x. split; [exact Hx |]. apply abs_insert_In. now right.
Qed.

Lemma abs_insert_sorted h t l :
  StronglySorted key_lt l -> ~ In h (map fst l) ->
  StronglySorted key_lt (abs_insert h t l).
Proof.
  induction l as [| [g u] r IH]; simpl; intros Hs Hn.
  - repeat constructor.
  - apply StronglySorted_inv in Hs as [Hr Hall].
    destruct (fires_before t h u g) eqn:E.
    + apply fires_before_key in E. constructor.
      * now constructor.
      * constructor; [exact E |].
        eapply Forall_impl; [| exact Hall].
        intros y Hy. now apply (key_lt_trans _ (g, u)).
    + assert (Hgu : key_lt (g, u) (h, t)).
      { destruct (key_lt_total (h, t) (g, u)) as [H | [H | H]].
        - apply fires_before_key in H. congruence.
        - exfalso. apply Hn. left. congruence.
        - exact H. }
      constructor.
      * apply IH; [exact Hr | tauto].
      * apply Forall_forall. intros y Hy.
        apply abs_insert_In in Hy as [-> | Hy]; [exact Hgu |].
        rewrite Forall_forall in Hall. now apply Hall.
Qed.

Lemma abs_insert_NoDup h t l :
  NoDup (map fst l) -> ~ In h (map fst l) ->
  NoDup (map fst (abs_insert h t l)).
Proof.
  induction l as [| [g u] r IH]; simpl; intros Hd Hn.
  - repeat constructor. simpl. tauto.
  - apply NoDup_cons_iff in Hd as [Hg Hd].
    destruct (fires_before t h u g); simpl.
    + constructor; [simpl; tauto |]. now constructor.
    + constructor.
      * rewrite abs_insert_handlers. intros [-> | H]; tauto.
      * apply IH; tauto.
Qed.

Lemma abs_remove_incl h l x : In x (abs_remove h l) -> In x l.
Proof.
  induction l as [| [g u] r IH]; simpl; [tauto |].
  destruct (interrupt_eqb g h); simpl; tauto.
Qed.

Lemma abs_remove_sorted h l :
  StronglySorted key_lt l -> StronglySorted key_lt (abs_remove h l).
Proof.
  induction l as [| [g u] r IH]; simpl; intros Hs; [constructor |].
  apply StronglySorted_inv in Hs as [Hr Hall].
  destruct (interrupt_eqb g h); [exact Hr |].
  constructor; [now apply IH |].
  apply Forall_forall. intros y Hy. apply abs_remove_incl in Hy.
  rewrite Forall_forall in Hall. now apply Hall.
Qed.

Lemma abs_remove_handlers h l g :
  In g (map fst (abs_remove h l)) -> In g (map fst l).
Proof.
  rewrite !in_map_iff. intros [x [Hx Hin]]. exists x.
  split; [exact Hx | now apply abs_remove_incl in Hin].
Qed.

Lemma abs_remove_gone h l :
  NoDup (map fst l) -> ~ In h (map fst (abs_remove h l)).
Proof.
  induction l as [| [g u] r IH]; simpl; intros Hd; [tauto |].
  apply NoDup_cons_iff in Hd as [Hg Hd].
  destruct (interrupt_eqb g h) eqn:E.
  - apply interrupt_eqb_eq in E. now subst g.
  - apply interrupt_eqb_neq in E. simpl. intros [H | H]; [congruence |].
    now apply IH.
Qed.

Lemma abs_remove_NoDup h l :
  NoDup (map fst l) -> NoDup (map fst (abs_remove h l)).
Proof.
  induction l as [| [g u] r IH]; simpl; intros Hd; [constructor |].
  apply NoDup_cons_iff in Hd as [Hg Hd].
  destruct (interrupt_eqb g h); [exact Hd |]. simpl.
  constructor; [| now apply IH].
  intros H. apply Hg. now apply abs_remove_handlers in H.
Qed.

Lemma lookup_None h l : lookup h l = None <-> ~ In h (map fst l).
Proof.
  induction l as [| [g u] r IH]; simpl; [tauto |].
  destruct (interrupt_eqb g h) eqn:E.
  - apply interrupt_eqb_eq in E. split; [discriminate | tauto].
  - apply interrupt_eqb_neq in E. rewrite IH. tauto.
Qed.

Lemma lookup_In h t l :
  NoDup (map fst l) -> lookup h l = Some t <-> In (h, t) l.
Proof.
  induction l as [| [g u] r IH]; simpl; intros Hd.
  - split; [discriminate | tauto].
  - apply NoDup_cons_iff in Hd as [Hg Hd].
    destruct (interrupt_eqb g h) eqn:E.
    + apply interrupt_eqb_eq in E. subst g. split.
      * intros H. left. congruence.
      * intros [H | H]; [congruence |].
        exfalso. apply Hg. apply in_map_iff. now exists (h, t).
    + apply interrupt_eqb_neq in E. rewrite (IH Hd).
      split; [tauto | intros [H | H]; [congruence | exact H]].
Qed.

Lemma lookup_insert h t l g :
  ~ In h (map fst l) ->
  lookup g (abs_insert h t l)
  = if interrupt_eqb h g then Some t else lookup g l.
Proof.
  induction l as [| [g' u] r IH]; simpl; intros Hn; [reflexivity |].
  destruct (fires_before t h u g'); simpl; [reflexivity |].
  rewrite IH by tauto.
  destruct (interrupt_eqb g' g) eqn:E1, (interrupt_eqb h g) eqn:E2;
    try reflexivity.
  apply interrupt_eqb_eq in E1, E2. exfalso. apply Hn. left. congruence.
Qed.

Lemma lookup_remove h l g :
  NoDup (map fst l) ->
  lookup g (abs_remove h l)
  = if interrupt_eqb h g then None else lookup g l.
Proof.
  induction l as [| [g' u] r IH]; simpl; intros Hd.
  - now destruct (interrupt_eqb h g).
  - apply NoDup_cons_iff in Hd as [Hg Hd].
    destruct (interrupt_eqb g' h) eqn:E1.
    + apply interrupt_eqb_eq in E1. subst g'.
      destruct (interrupt_eqb h g) eqn:E2; [| reflexivity].
      apply interrupt_eqb_eq in E2. subst g. now apply lookup_None.
    + simpl. rewrite IH by exact Hd.
      destruct (interrupt_eqb g' g) eqn:E2, (interrupt_eqb h g) eqn:E3;
        try reflexivity.
      apply interrupt_eqb_eq in E2, E3. apply interrupt_eqb_neq in E1.
      congruence.
Qed.

(** Two strictly sorted lists with the same elements are the same list. *)
Lemma sorted_same_elements l1 l2 :
  StronglySorted key_lt l1 -> StronglySorted key_lt l2 ->
  (forall x, In x l1 <-> In x l2) -> l1 = l2.
Proof.
  revert l2. induction l1 as [| x r IH]; intros [| y r'] H1 H2 Hin.
  - reflexivity.
  - exfalso. apply (Hin y). now left.
  - exfalso. apply (Hin x). now left.
  - apply StronglySorted_inv in H1 as [Hr Hx].
    apply StronglySorted_inv in H2 as [Hr' Hy].
    rewrite Forall_forall in Hx, Hy.
    assert (x = y).
    { destruct (proj1 (Hin x) (or_introl eq_refl)) as [E | E];
        [now symmetry |].
      destruct (proj2 (Hin y) (or_introl eq_refl)) as [E' | E'];
        [exact E' |].
      exfalso. apply (key_lt_irrefl x).
      apply (key_lt_trans _ y); [now apply Hx | now apply Hy]. }
    subst y. f_equal. apply IH; try assumption.
    intros z. split; intros Hz.
    + destruct (proj1 (Hin z) (or_intror Hz)) as [E | E]; [| exact E].
      subst z. exfalso. apply (key_lt_irrefl x). now apply Hx.
    + destruct (proj2 (Hin z) (or_intror Hz)) as [E | E]; [| exact E].
      subst z. exfalso. apply (key_lt_irrefl x). now apply Hy.
Qed.

(** In a sorted list an entry with the smaller key comes first. *)
Lemma sorted_split l x y :
  StronglySorted key_lt l -> In x l -> In y l -> key_lt x y ->
  exists l1 l2 l3, l = l1 ++ x :: l2 ++ y :: l3.
Proof.
  induction l as [| z r IH]; intros Hs Hx Hy Hlt; [contradiction |].
  apply StronglySorted_inv in Hs as [Hr Hz]. rewrite Forall_forall in Hz.
  destruct Hx as [-> | Hx].
  - destruct Hy as [-> | Hy]; [now apply key_lt_irrefl in Hlt |].
    apply in_split in Hy as [l2 [l3 ->]]. now exists [], l2, l3.
  - destruct Hy as [-> | Hy].
    + exfalso. apply (key_lt_irrefl x).
      apply (key_lt_trans _ y); [exact Hlt | now apply Hz].
    + destruct (IH Hr Hx Hy Hlt) as (l1 & l2 & l3 & ->).
      now exists (z :: l1), l2, l3.
Qed.

End AbsoluteTimes.

(** ** cycInt: the expiry loop *)

Section Dispatch.

Implicit Types (l : list (interrupt_id * Z)) (c : chain).

Lemma filter_none {A} (p : A -> bool) (l : list A) :
  Forall (fun x => p x = false) l -> filter p l = [].
Proof.
  induction 1 as [| x r Hx _ IH]; simpl; [reflexivity |].
  now rewrite Hx.
Qed.

Lemma filter_all {A} (p : A -> bool) (l : list A) :
  Forall (fun x => p x = true) l -> filter p l = l.
Proof.
  induction 1 as [| x r Hx _ IH]; simpl; [reflexivity |].
  now rewrite Hx, IH.
Qed.

Lemma sorted_head_first x l :
  StronglySorted key_lt (x :: l) -> Forall (fun y => snd x <= snd y) l.
Proof.
  intros Hs. apply StronglySorted_inv in Hs as [_ Hall].
  eapply Forall_impl; [| exact Hall]. unfold key_lt. intros y. lia.
Qed.

Lemma dispatch_fired c b k :
  StronglySorted key_lt (resolve_from b c) ->
  fst (dispatch k c)
  = map fst (filter (fun x => snd x - b + k <=? 0) (resolve_from b c)).
Proof.
  revert b k. induction c as [| [h d] r IH]; intros b k Hs; simpl;
    [reflexivity |].
  simpl in Hs. replace (b + d - b + k) with (d + k) by lia.
  destruct (Z.leb_spec (d + k) 0) as [Hle | Hgt].
  - destruct (dispatch (d + k) r) as [fired c'] eqn:E. simpl. f_equal.
    change fired with (fst (fired, c')). rewrite <- E.
    rewrite (IH (b + d) (d + k))
      by now apply StronglySorted_inv in Hs as [Hr _].
    f_equal. apply filter_ext. intros x. f_equal. lia.
  - simpl. rewrite filter_none; [reflexivity |].
    apply sorted_head_first in Hs. simpl in Hs.
    eapply Forall_impl; [| exact Hs].
    intros y Hy. cbn in Hy. apply Z.leb_gt. lia.
Qed.

Lemma dispatch_rest c b k :
  StronglySorted key_lt (resolve_from b c) ->
  resolve_from b (snd (dispatch k c))
  = map (later k)
      (filter (fun x => negb (snd x - b + k <=? 0)) (resolve_from b c)).
Proof.
  revert b k. induction c as [| [h d] r IH]; intros b k Hs; simpl;
    [reflexivity |].
  simpl in Hs. replace (b + d - b + k) with (d + k) by lia.
  destruct (Z.leb_spec (d + k) 0) as [Hle | Hgt].
  - destruct (dispatch (d + k) r) as [fired c'] eqn:E. simpl.
    change c' with (snd (fired, c')). rewrite <- E.
    replace b with (b + d + - d) at 1 by lia.
    rewrite resolve_from_shift.
    rewrite (IH (b + d) (d + k))
      by now apply StronglySorted_inv in Hs as [Hr _].
    rewrite map_map.
    erewrite filter_ext.
    + apply map_ext. intros [g u]. unfold later. simpl. f_equal. lia.
    + intros x. simpl. f_equal. f_equal. lia.
  - simpl. unfold later at 1. simpl. f_equal; [f_equal; lia |].
    rewrite filter_all.
    + replace (b + (d + k)) with (b + d + k) by lia.
      apply resolve_from_shift.
    + apply sorted_head_first in Hs. simpl in Hs.
      eapply Forall_impl; [| exact Hs].
      intros y Hy. cbn in Hy. apply negb_true_iff, Z.leb_gt. lia.
Qed.

Lemma advance_fired e st :
  table_ok (table st) ->
  fst (advance e st) = map fst (filter (due e) (resolve (table st))).
Proof.
  intros (Hs & _ & _). unfold advance.
  destruct (dispatch (- e) (table st)) as [fired c'] eqn:E. simpl.
  change fired with (fst (fired, c')). rewrite <- E.
  unfold resolve in *. rewrite (dispatch_fired _ 0 (- e) Hs).
  f_equal. apply filter_ext. intros x. unfold due.
  destruct (Z.leb_spec (snd x - 0 + - e) 0), (Z.leb_spec (snd x) e);
    (reflexivity || lia).
Qed.

Lemma advance_table e st :
  table_ok (table st) ->
  resolve (table (snd (advance e st)))
  = map (later (- e))
      (filter (fun x => negb (due e x)) (resolve (table st))).
Proof.
  intros (Hs & _ & _). unfold advance.
  destruct (dispatch (- e) (table st)) as [fired c'] eqn:E. simpl.
  change c' with (snd (fired, c')). rewrite <- E.
  unfold resolve in *. rewrite (dispatch_rest _ 0 (- e) Hs).
  f_equal. apply filter_ext. intros x. unfold due. f_equal.
  destruct (Z.leb_spec (snd x - 0 + - e) 0), (Z.leb_spec (snd x) e);
    (reflexivity || lia).
Qed.

Lemma advance_shift e st :
  nCpuFreqShift (snd (advance e st)) = nCpuFreqShift st.
Proof. unfold advance. now destruct (dispatch (- e) (table st)). Qed.

Lemma filter_sorted (p : interrupt_id * Z -> bool) l :
  StronglySorted key_lt l -> StronglySorted key_lt (filter p l).
Proof.
  induction 1 as [| x r Hr IH Hx]; simpl; [constructor |].
  destruct (p x); [| exact IH].
  constructor; [exact IH |].
  apply Forall_forall. intros y Hy. apply filter_In in Hy as [Hy _].
  rewrite Forall_forall in Hx. now apply Hx.
Qed.

Lemma later_sorted k l :
  StronglySorted key_lt l -> StronglySorted key_lt (map (later k) l).
Proof.
  induction 1 as [| x r Hr IH Hx]; simpl; constructor; [exact IH |].
  apply Forall_forall. intros y Hy.
  apply in_map_iff in Hy as [z [<- Hz]].
  rewrite Forall_forall in Hx. specialize (Hx z Hz).
  unfold key_lt, later in *. simpl. lia.
Qed.

Lemma later_handlers k l : map fst (map (later k) l) = map fst l.
Proof. rewrite map_map. now apply map_ext. Qed.

Lemma filter_handlers_NoDup (p : interrupt_id * Z -> bool) l :
  NoDup (map fst l) -> NoDup (map fst (filter p l)).
Proof.
  induction l as [| x r IH]; simpl; intros Hd; [constructor |].
  apply NoDup_cons_iff in Hd as [Hx Hd].
  destruct (p x); simpl; [| now apply IH].
  constructor; [| now apply IH].
  intros H. apply Hx. apply in_map_iff in H as [y [Hy Hin]].
  apply filter_In in Hin as [Hin _]. apply in_map_iff. now exists y.
Qed.

Lemma lookup_later_filter (p : interrupt_id * Z -> bool) k l h :
  NoDup (map fst l) ->
  lookup h (map (later k) (filter p l))
  = match lookup h l with
    | Some t => if p (h, t) then Some (t + k) else None
    | None => None
    end.
Proof.
  induction l as [| [g u] r IH]; simpl; intros Hd; [reflexivity |].
  apply NoDup_cons_iff in Hd as [Hg Hd]. simpl in Hg.
  destruct (interrupt_eqb g h) eqn:E.
  - apply interrupt_eqb_eq in E. subst g.
    destruct (p (h, u)); simpl.
    + now rewrite interrupt_eqb_refl.
    + rewrite (IH Hd).
      now rewrite (proj2 (lookup_None h r) Hg).
  - destruct (p (g, u)); simpl; [rewrite E |]; now apply IH.
Qed.

Lemma fire_count_filter (p : interrupt_id * Z -> bool) l h :
  NoDup (map fst l) ->
  fire_count h (map fst (filter p l))
  = match lookup h l with
    | Some t => if p (h, t) then 1%nat else 0%nat
    | None => 0%nat
    end.
Proof.
  unfold fire_count.
  induction l as [| [g u] r IH]; simpl; intros Hd; [reflexivity |].
  apply NoDup_cons_iff in Hd as [Hg Hd]. simpl in Hg.
  destruct (interrupt_eqb g h) eqn:E.
  - apply interrupt_eqb_eq in E. subst g.
    specialize (IH Hd). rewrite (proj2 (lookup_None h r) Hg) in IH.
    destruct (p (h, u)); simpl; [| exact IH].
    rewrite interrupt_eqb_refl. simpl. now rewrite IH.
  - destruct (p (g, u)); simpl; [| now apply IH].
    rewrite interrupt_eqb_sym, E. now apply IH.
Qed.

End Dispatch.

(** ** cycInt: the invariant of the table *)

Section Invariant.

Implicit Types (st : State) (h g : interrupt_id).

Lemma reset_ok st : table_ok (table (CycInt_Reset st)).
Proof. repeat split; constructor. Qed.

Lemma arm_resolve h t st :
  resolve (table (arm_ticks h t st))
  = abs_insert h t (abs_remove h (resolve (table st))).
Proof.
  unfold resolve, arm_ticks. simpl.
  now rewrite resolve_insert, resolve_remove.
Qed.

Lemma arm_ok h t st :
  table_ok (table st) -> valid_handler h = true ->
  table_ok (table (arm_ticks h t st)).
Proof.
  intros (Hs & Hd & Hv) Hh. unfold table_ok. rewrite arm_resolve.
  pose proof (abs_remove_gone h _ Hd) as Hgone.
  split; [| split].
  - apply abs_insert_sorted; [now apply abs_remove_sorted | exact Hgone].
  - apply abs_insert_NoDup; [now apply abs_remove_NoDup | exact Hgone].
  - apply Forall_forall. intros x Hx.
    apply abs_insert_In in Hx as [-> | Hx]; [exact Hh |].
    apply abs_remove_incl in Hx. rewrite Forall_forall in Hv.
    now apply Hv.
Qed.

Lemma arm_remaining h t st g :
  table_ok (table st) ->
  remaining g (arm_ticks h t st)
  = if interrupt_eqb h g then Some t else remaining g st.
Proof.
  intros (_ & Hd & _). unfold remaining. rewrite arm_resolve.
  rewrite lookup_insert by now apply abs_remove_gone.
  rewrite lookup_remove by exact Hd.
  now destruct (interrupt_eqb h g).
Qed.

Lemma advance_ok e st :
  table_ok (table st) -> table_ok (table (snd (advance e st))).
Proof.
  intros Hok. pose proof Hok as (Hs & Hd & Hv). unfold table_ok.
  rewrite (advance_table e st Hok). split; [| split].
  - now apply later_sorted, filter_sorted.
  - rewrite later_handlers. now apply filter_handlers_NoDup.
  - apply Forall_forall. intros x Hx.
    apply in_map_iff in Hx as [y [<- Hy]]. apply filter_In in Hy as [Hy _].
    rewrite Forall_forall in Hv. exact (Hv y Hy).
Qed.

Lemma advance_remaining e st h :
  table_ok (table st) ->
  remaining h (snd (advance e st))
  = match remaining h st with
    | Some t => if t <=? e then None else Some (t - e)
    | None => None
    end.
Proof.
  intros Hok. pose proof Hok as (_ & Hd & _). unfold remaining.
  rewrite (advance_table e st Hok), lookup_later_filter by exact Hd.
  destruct (lookup h (resolve (table st))) as [t |]; [| reflexivity].
  unfold due. simpl. destruct (t <=? e); reflexivity.
Qed.

Lemma advance_count e st h :
  table_ok (table st) ->
  fire_count h (fst (advance e st))
  = match remaining h st with
    | Some t => if t <=? e then 1%nat else 0%nat
    | None => 0%nat
    end.
Proof.
  intros Hok. pose proof Hok as (_ & Hd & _). unfold remaining.
  rewrite (advance_fired e st Hok), fire_count_filter by exact Hd.
  reflexivity.
Qed.

Lemma arm_absolute_valid d ty h st :
  valid_handler h = true ->
  CycInt_AddAbsoluteInterrupt d ty h st
  = Some (arm_ticks h
            (INT_CONVERT_TO_INTERNAL 64 (nCpuFreqShift st) d ty) st).
Proof. intros Hh. unfold CycInt_AddAbsoluteInterrupt. now rewrite Hh. Qed.

Lemma arm_absolute_inv d ty h st st' :
  CycInt_AddAbsoluteInterrupt d ty h st = Some st' ->
  valid_handler h = true
  /\ st' = arm_ticks h
             (INT_CONVERT_TO_INTERNAL 64 (nCpuFreqShift st) d ty) st.
Proof.
  unfold CycInt_AddAbsoluteInterrupt.
  destruct (valid_handler h); [| discriminate].
  intros H. injection H as <-. now split.
Qed.

End Invariant.

(** ** cycInt: call sequences *)

Section Runs.

Implicit Types (st : State) (calls : list call).

Lemma run_app calls1 calls2 st :
  run st (calls1 ++ calls2)
  = match run st calls1 with
    | Some (st1, log1) =>
        match run st1 calls2 with
        | Some (st2, log2) => Some (st2, log1 ++ log2)
        | None => None
        end
    | None => None
    end.
Proof.
  revert st. induction calls1 as [| [h d ty | e] cs IH]; intros st; simpl.
  - now destruct (run st calls2) as [[st2 log2] |].
  - destruct (CycInt_AddAbsoluteInterrupt d ty h st); [apply IH | reflexivity].
  - destruct (advance e st) as [fired st1]. rewrite IH.
    destruct (run st1 cs) as [[st2 log2] |]; [| reflexivity].
    now destruct (run st2 calls2) as [[st3 log3] |].
Qed.

(** A run that returns keeps the invariant and the frequency multiplier,
    and logs one entry per [Advance]. *)
Lemma run_ok calls st st' log :
  table_ok (table st) -> run st calls = Some (st', log) ->
  table_ok (table st')
  /\ nCpuFreqShift st' = nCpuFreqShift st
  /\ length log = length (elapsed_of calls).
Proof.
  revert st st' log.
  induction calls as [| [h d ty | e] cs IH]; intros st st' log Hok; simpl.
  - intros H. injection H as <- <-. split; [exact Hok | split; reflexivity].
  - destruct (CycInt_AddAbsoluteInterrupt d ty h st) as [st1 |] eqn:E;
      [| discriminate].
    apply arm_absolute_inv in E as [Hh ->]. intros H.
    apply IH in H; [exact H | now apply arm_ok].
  - pose proof (advance_ok e st Hok) as Hok1.
    pose proof (advance_shift e st) as Hsh.
    destruct (advance e st) as [fired st1]. simpl in Hok1, Hsh.
    destruct (run st1 cs) as [[st2 log2] |] eqn:E; [| discriminate].
    intros H. injection H as <- <-.
    destruct (IH _ _ _ Hok1 E) as (H1 & H2 & H3).
    simpl. split; [exact H1 | split; [congruence | now rewrite H3]].
Qed.

(** A sequence of valid calls returns. *)
Lemma run_total calls st :
  forallb call_valid calls = true -> exists st' log, run st calls = Some (st', log).
Proof.
  revert st. induction calls as [| [h d ty | e] cs IH]; intros st; simpl.
  - intros _. now exists st, [].
  - intros H. apply andb_true_iff in H as [Hh Hcs].
    rewrite (arm_absolute_valid d ty h st Hh). now apply IH.
  - intros H. destruct (advance e st) as [fired st1].
    destruct (IH st1 H) as (st2 & log & ->). now exists st2, (fired :: log).
Qed.

(** While [h] is not armed anew, its firings follow the schedule of its
    remaining ticks. *)
Lemma run_schedule h (t : Z) calls st (cum : Z) (done : bool) :
  table_ok (table st) ->
  forallb call_valid calls = true -> rearms h calls = false ->
  remaining h st = (if done then None else Some (t - cum)) ->
  exists st' log,
    run st calls = Some (st', log)
    /\ map (fire_count h) log = fire_schedule t cum done (elapsed_of calls).
Proof.
  revert st cum done.
  induction calls as [| [g d ty | e] cs IH]; intros st cum done Hok Hv Hr Hrem;
    simpl in *.
  - now exists st, [].
  - apply andb_true_iff in Hv as [Hg Hv].
    apply orb_false_iff in Hr as [Hgh Hr].
    rewrite (arm_absolute_valid d ty g st Hg).
    apply IH; try assumption.
    + now apply arm_ok.
    + rewrite arm_remaining by exact Hok. now rewrite Hgh.
  - pose proof (advance_ok e st Hok) as Hok1.
    pose proof (advance_remaining e st h Hok) as Hrem1.
    pose proof (advance_count e st h Hok) as Hcnt.
    destruct (advance e st) as [fired st1]. simpl in Hok1, Hrem1, Hcnt.
    rewrite Hrem in Hrem1, Hcnt.
    destruct done; simpl.
    + destruct (IH st1 (cum + e) true Hok1 Hv Hr Hrem1) as (st2 & log & -> & Hlog).
      exists st2, (fired :: log). split; [reflexivity |].
      simpl. now rewrite Hcnt, Hlog.
    + replace (t <=? cum + e) with (t - cum <=? e)
        by (destruct (Z.leb_spec (t - cum) e), (Z.leb_spec t (cum + e));
            (reflexivity || lia)).
      destruct (t - cum <=? e).
      * destruct (IH st1 (cum + e) true Hok1 Hv Hr Hrem1)
          as (st2 & log & -> & Hlog).
        exists st2, (fired :: log). split; [reflexivity |].
        simpl. now rewrite Hcnt, Hlog.
      * replace (t - cum - e) with (t - (cum + e)) in Hrem1 by lia.
        destruct (IH st1 (cum + e) false Hok1 Hv Hr Hrem1)
          as (st2 & log & -> & Hlog).
        exists st2, (fired :: log). split; [reflexivity |].
        simpl. now rewrite Hcnt, Hlog.
Qed.

Lemma fire_schedule_once (t cum : Z) (done : bool) es :
  (list_sum (fire_schedule t cum done es) <= if done then 0 else 1)%nat.
Proof.
  revert cum done. induction es as [| e es IH]; intros cum done; simpl.
  - destruct done; lia.
  - destruct done; simpl.
    + apply (IH (cum + e) true).
    + destruct (t <=? cum + e); simpl.
      * pose proof (IH (cum + e) true). simpl in *. lia.
      * apply (IH (cum + e) false).
Qed.

Lemma fire_schedule_done (t cum : Z) es k :
  nth k (fire_schedule t cum true es) 0%nat = 0%nat.
Proof.
  revert cum k. induction es as [| e es IH]; intros cum [| k]; simpl;
    try reflexivity.
  apply IH.
Qed.

(** The schedule has a 1 at position [k] exactly when the cumulative
    elapsed ticks reach [t] at the [k]-th advance and at none before. *)
Lemma fire_schedule_nth (t cum : Z) es k :
  (k < length es)%nat ->
  nth k (fire_schedule t cum false es) 0%nat = 1%nat
  <-> (t <= cum + cumulative es k
       /\ forall j, (j < k)%nat -> cum + cumulative es j < t).
Proof.
  revert cum k. induction es as [| e es IH]; intros cum k Hk; simpl in Hk;
    [lia |].
  cbn [fire_schedule negb andb].
  destruct (Z.leb_spec t (cum + e)) as [Hle | Hgt].
  - destruct k as [| k]; cbn [nth].
    + unfold cumulative. simpl. split; [| reflexivity].
      intros _. split; [lia | intros j Hj; lia].
    + rewrite fire_schedule_done. split; [discriminate |].
      intros [_ H]. specialize (H 0%nat ltac:(lia)).
      unfold cumulative in H. simpl in H. lia.
  - destruct k as [| k]; cbn [nth].
    + unfold cumulative. simpl. split; [discriminate | lia].
    + rewrite (IH (cum + e) k) by lia. unfold cumulative.
      cbn [firstn fold_right]. split.
      * intros [H1 H2]. split; [lia |].
        intros [| j] Hj; [simpl; lia |].
        specialize (H2 j ltac:(lia)). cbn [firstn fold_right]. lia.
      * intros [H1 H2]. split; [lia |].
        intros j Hj. specialize (H2 (S j) ltac:(lia)).
        cbn [firstn fold_right] in H2. lia.
Qed.

End Runs.

(** ** cycInt: when an armed event fires *)

(** C4, as the table has it.  Take any sequence of valid [arm_absolute]
    and [advance] calls after a reset, any arming of [h] in it, and the
    calls [post] that follow up to the next arming of [h] or, when there is
    none, to the end of the sequence.  The run returns, and counting per
    [advance] of [post] how often [h] is invoked gives: nothing before the
    elapsed ticks accumulated since the arming reach the armed ticks, one
    invocation at the first advance where they do, nothing afterwards; so
    one invocation at most.  Arming [h] anew replaces its countdown, which
    is why the count stops at the next arming of [h]. *)
Theorem armed_event_fires_once_when_due
    (st0 : State) (pre post rest : list call) (h : interrupt_id) (d ty : Z) :
  forallb call_valid pre = true ->
  valid_handler h = true ->
  forallb call_valid post = true ->
  forallb call_valid rest = true ->
  rearms h post = false ->
  exists st log_pre log_post log_rest,
    run (CycInt_Reset st0) (pre ++ Arm h d ty :: post ++ rest)
    = Some (st, log_pre ++ log_post ++ log_rest)
    /\ length log_pre = length (elapsed_of pre)
    /\ length log_post = length (elapsed_of post)
    /\ map (fire_count h) log_post
       = fire_schedule (INT_CONVERT_TO_INTERNAL 64 (nCpuFreqShift st0) d ty)
           0 false (elapsed_of post)
    /\ (forall k, (k < length (elapsed_of post))%nat ->
        nth k (map (fire_count h) log_post) 0%nat = 1%nat
        <-> (INT_CONVERT_TO_INTERNAL 64 (nCpuFreqShift st0) d ty
             <= cumulative (elapsed_of post) k
             /\ forall j, (j < k)%nat ->
                cumulative (elapsed_of post) j
                < INT_CONVERT_TO_INTERNAL 64 (nCpuFreqShift st0) d ty))
    /\ (list_sum (map (fire_count h) log_post) <= 1)%nat.
Proof.
  intros Hpre Hh Hpost Hrest Hre.
  destruct (run_total pre (CycInt_Reset st0) Hpre) as (st1 & log1 & E1).
  destruct (run_ok _ _ _ _ (reset_ok st0) E1) as (Hok1 & Hsh1 & Hlen1).
  set (t := INT_CONVERT_TO_INTERNAL 64 (nCpuFreqShift st0) d ty).
  assert (Hok2 : table_ok (table (arm_ticks h t st1))) by now apply arm_ok.
  destruct (run_schedule h t post (arm_ticks h t st1) 0 false Hok2 Hpost Hre)
    as (st2 & log2 & E2 & Hlog).
  { rewrite arm_remaining by exact Hok1. rewrite interrupt_eqb_refl.
    now rewrite Z.sub_0_r. }
  destruct (run_ok _ _ _ _ Hok2 E2) as (_ & _ & Hlen2).
  destruct (run_total rest st2 Hrest) as (st3 & log3 & E3).
  exists st3, log1, log2, log3. rewrite run_app, E1. simpl.
  rewrite (arm_absolute_valid d ty h st1 Hh). rewrite Hsh1. simpl.
  fold t. rewrite run_app, E2, E3.
  split; [reflexivity |]. split; [exact Hlen1 |]. split; [exact Hlen2 |].
  split; [exact Hlog |].
  rewrite Hlog. split.
  - intros k Hk. apply (fire_schedule_nth t 0 _ k Hk).
  - apply (fire_schedule_once t 0 false).
Qed.

Lemma armed_event_fires_once_when_due_witness :
  exists st log_pre log_post log_rest,
    run (CycInt_Reset {| table := []; nCpuFreqShift := 0; dispatching := None |})
      ([Arm INTERRUPT_VIDEO_HBL 512 INT_CPU_CYCLE; Advance 9600]
       ++ Arm INTERRUPT_MFP_MAIN_TIMERA 2 INT_MFP_CYCLE
       :: [Advance 60000; Arm INTERRUPT_VIDEO_VBL 1 INT_CPU_CYCLE;
           Advance 2666; Advance 1]
       ++ [Arm INTERRUPT_MFP_MAIN_TIMERA 5 INT_MFP_CYCLE; Advance 100000])
    = Some (st, log_pre ++ log_post ++ log_rest)
    /\ length log_pre = length (elapsed_of
                         [Arm INTERRUPT_VIDEO_HBL 512 INT_CPU_CYCLE;
                          Advance 9600])
    /\ length log_post
       = length (elapsed_of
                   [Advance 60000; Arm INTERRUPT_VIDEO_VBL 1 INT_CPU_CYCLE;
                    Advance 2666; Advance 1])
    /\ map (fire_count INTERRUPT_MFP_MAIN_TIMERA) log_post
       = fire_schedule (INT_CONVERT_TO_INTERNAL 64 0 2 INT_MFP_CYCLE)
           0 false
           (elapsed_of [Advance 60000; Arm INTERRUPT_VIDEO_VBL 1 INT_CPU_CYCLE;
                        Advance 2666; Advance 1])
    /\ (forall k,
          (k < length (elapsed_of
                         [Advance 60000; Arm INTERRUPT_VIDEO_VBL 1 INT_CPU_CYCLE;
                          Advance 2666; Advance 1]))%nat ->
        nth k (map (fire_count INTERRUPT_MFP_MAIN_TIMERA) log_post) 0%nat
        = 1%nat
        <-> (INT_CONVERT_TO_INTERNAL 64 0 2 INT_MFP_CYCLE
             <= cumulative
                  (elapsed_of
                     [Advance 60000; Arm INTERRUPT_VIDEO_VBL 1 INT_CPU_CYCLE;
                      Advance 2666; Advance 1]) k
             /\ forall j, (j < k)%nat ->
                cumulative
                  (elapsed_of
                     [Advance 60000; Arm INTERRUPT_VIDEO_VBL 1 INT_CPU_CYCLE;
                      Advance 2666; Advance 1]) j
                < INT_CONVERT_TO_INTERNAL 64 0 2 INT_MFP_CYCLE))
    /\ (list_sum (map (fire_count INTERRUPT_MFP_MAIN_TIMERA) log_post) <= 1)%nat.
Proof.
  apply (armed_event_fires_once_when_due
           {| table := []; nCpuFreqShift := 0; dispatching := None |}
           [Arm INTERRUPT_VIDEO_HBL 512 INT_CPU_CYCLE; Advance 9600]
           [Advance 60000; Arm INTERRUPT_VIDEO_VBL 1 INT_CPU_CYCLE;
            Advance 2666; Advance 1]
           [Arm INTERRUPT_MFP_MAIN_TIMERA 5 INT_MFP_CYCLE; Advance 100000]
           INTERRUPT_MFP_MAIN_TIMERA 2 INT_MFP_CYCLE); reflexivity.
Defined.

(** C4 as stated, once per armed occurrence, fails when a handler is armed
    anew before it is due.  Armed for 10 CPU cycles, which are 96000 ticks,
    and then for 20, the handler is not invoked by the advance that reaches
    96000 ticks, and the two armings give one invocation. *)
Lemma rearmed_event_fires_once :
  INT_CONVERT_TO_INTERNAL 64 0 10 INT_CPU_CYCLE = 96000
  /\ run (CycInt_Reset
            {| table := []; nCpuFreqShift := 0; dispatching := None |})
       [Arm INTERRUPT_VIDEO_VBL 10 INT_CPU_CYCLE;
        Arm INTERRUPT_VIDEO_VBL 20 INT_CPU_CYCLE;
        Advance 96000; Advance 96000]
     = Some ({| table := []; nCpuFreqShift := 0; dispatching := None |},
             [[]; [INTERRUPT_VIDEO_VBL]]).
Proof. split; reflexivity. Qed.

(** The scenario of the specification: A armed for 100 canonical ticks and B
    for 250; [advance 100] invokes A and leaves B with 150; [advance 200]
    invokes B once, and nothing is left. *)
Example scenario_100_250 :
  let A := INTERRUPT_VIDEO_VBL in
  let B := INTERRUPT_VIDEO_HBL in
  let st0 := {| table := []; nCpuFreqShift := 0; dispatching := None |} in
  let st1 := arm_ticks B 250 (arm_ticks A 100 st0) in
  fst (advance 100 st1) = [A]
  /\ remaining A (snd (advance 100 st1)) = None
  /\ remaining B (snd (advance 100 st1)) = Some 150
  /\ fst (advance 200 (snd (advance 100 st1))) = [B]
  /\ table (snd (advance 200 (snd (advance 100 st1)))) = [].
Proof. repeat split. Qed.

(** ** cycInt: events due at the same time *)

(** C5.  In any state reached from a reset by [arm_absolute] and [advance]
    calls, let [h1] and [h2] be armed with the same absolute remaining
    ticks [t], [h1] the lower-valued identity.  An [advance] that reaches
    [t] invokes both, each once, [h1] before [h2]; an [advance] that does
    not reach [t] invokes neither. *)
Theorem tied_events_fire_in_identity_order
    (st0 st : State) (calls : list call) (log : list (list interrupt_id))
    (h1 h2 : interrupt_id) (t e : Z) :
  run (CycInt_Reset st0) calls = Some (st, log) ->
  remaining h1 st = Some t -> remaining h2 st = Some t ->
  interrupt_val h1 < interrupt_val h2 ->
  (t <= e ->
   fires_in_order h1 h2 (fst (advance e st))
   /\ fire_count h1 (fst (advance e st)) = 1%nat
   /\ fire_count h2 (fst (advance e st)) = 1%nat)
  /\ (e < t ->
      fire_count h1 (fst (advance e st)) = 0%nat
      /\ fire_count h2 (fst (advance e st)) = 0%nat).
Proof.
  intros Hrun H1 H2 Hlt.
  destruct (run_ok _ _ _ _ (reset_ok st0) Hrun) as (Hok & _ & _).
  pose proof Hok as (Hs & Hd & _).
  rewrite !(advance_count e st _ Hok), H1, H2.
  split; intros Hte.
  - destruct (Z.leb_spec t e); [| lia].
    split; [| split; reflexivity].
    unfold remaining in H1, H2.
    apply (lookup_In _ _ _ Hd) in H1, H2.
    destruct (sorted_split _ (h1, t) (h2, t) Hs H1 H2) as (l1 & l2 & l3 & E).
    { right. simpl. split; [reflexivity | exact Hlt]. }
    rewrite (advance_fired e st Hok), E.
    rewrite filter_app. simpl.
    unfold due at 2. simpl. destruct (Z.leb_spec t e); [| lia].
    rewrite filter_app. simpl.
    unfold due at 3. simpl. destruct (Z.leb_spec t e); [| lia].
    rewrite map_app. simpl. rewrite map_app. simpl.
    now eexists _, _, _.
  - destruct (Z.leb_spec t e); [lia |]. split; reflexivity.
Qed.

Lemma tied_events_fire_in_identity_order_witness :
  let st0 := {| table := []; nCpuFreqShift := 0; dispatching := None |} in
  let st := {| table := [(INTERRUPT_VIDEO_VBL, 9600);
                         (INTERRUPT_MFP_MAIN_TIMERB, 0)];
               nCpuFreqShift := 0; dispatching := None |} in
  (9600 <= 9600 ->
   fires_in_order INTERRUPT_VIDEO_VBL INTERRUPT_MFP_MAIN_TIMERB
     (fst (advance 9600 st))
   /\ fire_count INTERRUPT_VIDEO_VBL (fst (advance 9600 st)) = 1%nat
   /\ fire_count INTERRUPT_MFP_MAIN_TIMERB (fst (advance 9600 st)) = 1%nat)
  /\ (9600 < 9600 ->
      fire_count INTERRUPT_VIDEO_VBL (fst (advance 9600 st)) = 0%nat
      /\ fire_count INTERRUPT_MFP_MAIN_TIMERB (fst (advance 9600 st)) = 0%nat).
Proof.
  apply (tied_events_fire_in_identity_order
           {| table := []; nCpuFreqShift := 0; dispatching := None |}
           {| table := [(INTERRUPT_VIDEO_VBL, 9600);
                        (INTERRUPT_MFP_MAIN_TIMERB, 0)];
              nCpuFreqShift := 0; dispatching := None |}
           [Arm INTERRUPT_MFP_MAIN_TIMERB 2 INT_CPU_CYCLE; Advance 9600;
            Arm INTERRUPT_VIDEO_VBL 1 INT_CPU_CYCLE]
           [[]]
           INTERRUPT_VIDEO_VBL INTERRUPT_MFP_MAIN_TIMERB 9600 9600);
    (reflexivity || (vm_compute; reflexivity)).
Defined.

(** ** cycInt: snapshots *)

Section Snapshots.

Implicit Types (st : State) (l : list (interrupt_id * Z)).

Lemma arm_nonneg_times h t st :
  0 <= t -> nonneg_times (resolve (table st)) ->
  nonneg_times (resolve (table (arm_ticks h t st))).
Proof.
  intros Ht Hn. unfold nonneg_times in *. rewrite arm_resolve.
  apply Forall_forall. intros x Hx.
  apply abs_insert_In in Hx as [-> | Hx]; [exact Ht |].
  apply abs_remove_incl in Hx. rewrite Forall_forall in Hn. now apply Hn.
Qed.

Lemma advance_nonneg_times e st :
  table_ok (table st) -> nonneg_times (resolve (table (snd (advance e st)))).
Proof.
  intros Hok. unfold nonneg_times. rewrite (advance_table e st Hok).
  apply Forall_forall. intros x Hx.
  apply in_map_iff in Hx as [y [<- Hy]]. apply filter_In in Hy as [_ Hy].
  unfold due in Hy. apply negb_true_iff, Z.leb_gt in Hy.
  unfold later. simpl. lia.
Qed.

Lemma run_nonneg_times calls st st' log :
  table_ok (table st) -> nonneg_times (resolve (table st)) ->
  forallb (arm_nonneg (nCpuFreqShift st)) calls = true ->
  run st calls = Some (st', log) ->
  nonneg_times (resolve (table st')).
Proof.
  revert st st' log.
  induction calls as [| [h d ty | e] cs IH]; intros st st' log Hok Hn Ha;
    simpl in *.
  - intros H. now injection H as <- <-.
  - apply andb_true_iff in Ha as [Ht Ha]. apply Z.leb_le in Ht.
    destruct (CycInt_AddAbsoluteInterrupt d ty h st) as [st1 |] eqn:E;
      [| discriminate].
    apply arm_absolute_inv in E as [Hh ->].
    apply IH; [now apply arm_ok | now apply arm_nonneg_times | exact Ha].
  - pose proof (advance_ok e st Hok) as Hok1.
    pose proof (advance_nonneg_times e st Hok) as Hn1.
    pose proof (advance_shift e st) as Hsh.
    destruct (advance e st) as [fired st1]. simpl in Hok1, Hn1, Hsh.
    destruct (run st1 cs) as [[st2 log2] |] eqn:E; [| discriminate].
    intros H. injection H as <- <-.
    apply (IH st1 st2 log2); try assumption. now rewrite Hsh.
Qed.

Lemma combine_map_self {A B} (f : A -> B) (xs : list A) :
  combine xs (map f xs) = map (fun x => (x, f x)) xs.
Proof. induction xs as [| x r IH]; simpl; [reflexivity | now rewrite IH]. Qed.

Lemma rebuild_step_record l h acc :
  rebuild_step acc (h, snapshot_record l h)
  = match lookup h l with
    | Some t => chain_insert h t acc
    | None => acc
    end.
Proof. unfold rebuild_step, snapshot_record. now destruct (lookup h l). Qed.

Lemma rebuild_fold l hs acc :
  NoDup hs -> StronglySorted key_lt (resolve acc) ->
  (forall h, In h hs -> ~ In h (map fst (resolve acc))) ->
  let c := fold_left rebuild_step
             (map (fun h => (h, snapshot_record l h)) hs) acc in
  StronglySorted key_lt (resolve c)
  /\ forall x, In x (resolve c)
               <-> In x (resolve acc)
                   \/ (In (fst x) hs /\ lookup (fst x) l = Some (snd x)).
Proof.
  revert acc. induction hs as [| h hs IH]; intros acc Hd Hs Hfresh;
    cbn [map fold_left].
  - split; [exact Hs | intros x; simpl; tauto].
  - apply NoDup_cons_iff in Hd as [Hh Hd].
    rewrite rebuild_step_record.
    destruct (lookup h l) as [t |] eqn:E.
    + assert (Er : resolve (chain_insert h t acc)
                   = abs_insert h t (resolve acc)).
      { unfold resolve. now rewrite resolve_insert. }
      destruct (IH (chain_insert h t acc) Hd) as [Hs' Hin].
      * rewrite Er. apply abs_insert_sorted; [exact Hs |].
        apply Hfresh. now left.
      * intros g Hg. rewrite Er, abs_insert_handlers.
        intros [-> | H]; [contradiction |].
        apply (Hfresh g); [now right | exact H].
      * split; [exact Hs' |]. intros [g u]. rewrite Hin, Er, abs_insert_In.
        simpl. split.
        -- intros [[H | H] | [H1 H2]]; [| tauto | tauto].
           injection H as -> ->. right. split; [now left | exact E].
        -- intros [H | [[H1 | H1] H2]]; [tauto | | tauto].
           subst g. left. left. congruence.
    + destruct (IH acc Hd Hs) as [Hs' Hin].
      * intros g Hg. apply Hfresh. now right.
      * split; [exact Hs' |]. intros [g u]. rewrite Hin. simpl. split.
        -- tauto.
        -- intros [H | [[H1 | H1] H2]]; [tauto | | tauto].
           subst g. congruence.
Qed.

Lemma rebuild_capture c :
  table_ok c ->
  rebuild (combine handlers (map (snapshot_record (resolve c)) handlers)) = c.
Proof.
  intros (Hs & Hd & Hv). rewrite combine_map_self.
  destruct (rebuild_fold (resolve c) handlers [] handlers_NoDup)
    as [Hs' Hin]; [constructor | intros h _ [] |].
  apply (resolve_from_inj 0). apply sorted_same_elements;
    [exact Hs' | exact Hs |].
  intros [g u]. unfold rebuild.
  change (resolve_from 0) with resolve. rewrite Hin. simpl. split.
  - intros [[] | [_ H]]. now apply (lookup_In _ _ _ Hd).
  - intros H. right. split.
    + apply valid_handler_listed. rewrite Forall_forall in Hv.
      exact (Hv _ H).
    + now apply (lookup_In _ _ _ Hd).
Qed.

Lemma restore_capture st :
  table_ok (table st) -> nonneg_times (resolve (table st)) ->
  restore (capture st) = Some st.
Proof.
  intros Hok Hn. pose proof Hok as (_ & Hd & _).
  unfold restore, capture. cbn [snap_entries snap_shift snap_dispatching].
  rewrite length_map.
  change (Z.of_nat (length handlers) =? interrupt_val MAX_INTERRUPTS)
    with true.
  replace (forallb _ _) with true.
  - cbn [andb]. rewrite (rebuild_capture _ Hok). now destruct st.
  - symmetry. apply forallb_forall. intros x Hx.
    apply in_map_iff in Hx as [h [<- _]]. unfold snapshot_record.
    destruct (lookup h (resolve (table st))) as [t |] eqn:E;
      simpl; [| reflexivity].
    apply (lookup_In _ _ _ Hd) in E. apply Z.leb_le.
    unfold nonneg_times in Hn. rewrite Forall_forall in Hn.
    exact (Hn _ E).
Qed.

End Snapshots.

(** A pending event with negative remaining ticks makes [restore] reject
    the snapshot that [capture] has just written. *)
Lemma restore_rejects_negative st h t :
  table_ok (table st) -> remaining h st = Some t -> t < 0 ->
  restore (capture st) = None.
Proof.
  intros (_ & Hd & Hv) Hrem Ht. unfold remaining in Hrem.
  unfold restore, capture. cbn [snap_entries snap_shift snap_dispatching].
  destruct (forallb (fun e => 0 <=? snd e)
              (map (snapshot_record (resolve (table st))) handlers)) eqn:E;
    [| now rewrite andb_false_r].
  exfalso. rewrite forallb_forall in E.
  specialize (E (true, t)). cbn [snd] in E.
  assert (Hin : In (true, t)
                  (map (snapshot_record (resolve (table st))) handlers)).
  { apply in_map_iff. exists h. split.
    - unfold snapshot_record. now rewrite Hrem.
    - apply valid_handler_listed. apply (lookup_In _ _ _ Hd) in Hrem.
      rewrite Forall_forall in Hv. exact (Hv _ Hrem). }
  apply E in Hin. apply Z.leb_le in Hin. lia.
Qed.




(** * Further properties of the conversion macros *)

Lemma wrap_in_range w z : 0 < w -> CInt.in_range w (CInt.wrap w z).
Proof.
  intros Hw. unfold CInt.in_range, CInt.wrap.
  rewrite (CIntFacts.pow_double w Hw).
  assert (0 < 2 ^ (w - 1)) by (apply Z.pow_pos_nonneg; lia).
  pose proof (Z.mod_pos_bound (z + 2 ^ (w - 1)) (2 * 2 ^ (w - 1))). lia.
Qed.

Lemma wrap_fixed_iff w z : 0 < w -> CInt.wrap w z = z <-> CInt.in_range w z.
Proof.
  intros Hw. split.
  - intros <-. now apply wrap_in_range.
  - apply CIntFacts.wrap_small.
Qed.



(** The value of [INT_CONVERT_TO_INTERNAL] when nothing overflows. *)
Lemma to_internal_value w s d ty :
  0 <= d -> 0 <= s -> CInt.in_range w (d * INT_MFP_TO_INTERNAL * 2 ^ s) ->
  INT_CONVERT_TO_INTERNAL w s d ty
  = if ty =? INT_CPU_CYCLE then d * INT_CPU_TO_INTERNAL
    else if ty =? INT_MFP_CYCLE then d * INT_MFP_TO_INTERNAL * 2 ^ s
    else d * INT_CPU_TO_INTERNAL * 2 ^ s.
Proof.
  intros Hd Hs Hr.
  assert (Hp : 1 <= 2 ^ s) by now apply pow_shift_pos.
  assert (Hb : CInt.in_range w (d * INT_CPU_TO_INTERNAL * 2 ^ s)).
  { apply (CIntFacts.in_range_between w _ _) with (2 := Hr).
    unfold INT_MFP_TO_INTERNAL, INT_CPU_TO_INTERNAL. nia. }
  assert (Hc : CInt.in_range w (d * INT_CPU_TO_INTERNAL)).
  { apply (CIntFacts.in_range_between w _ _) with (2 := Hb).
    unfold INT_CPU_TO_INTERNAL. nia. }
  destruct (Z.eqb_spec ty INT_CPU_CYCLE) as [-> | H1].
  - now apply to_internal_cpu.
  - destruct (Z.eqb_spec ty INT_MFP_CYCLE) as [-> | H2].
    + now apply to_internal_mfp.
    + now apply to_internal_boosted.
Qed.







(** X5.  Converting a tick count to cycles and the cycles back to ticks
    stays within one unit of the domain: for the nominal CPU the result is
    at most the ticks and less than 9600 below them; for the boosted CPU it
    is at most the ticks and less than [9600 * 2^s] below them; for the MFP
    it is less than 31333 above the ticks and less than [31333 * 2^s] below
    them, and at shift 0 it is never below them. *)
Theorem from_then_to_within_one_unit (w s c : Z) :
  0 <= c -> 0 <= s -> CInt.in_range w (c + INT_MFP_TO_INTERNAL) ->
  (INT_CONVERT_TO_INTERNAL w s
     (INT_CONVERT_FROM_INTERNAL w s c INT_CPU_CYCLE) INT_CPU_CYCLE <= c
   /\ c < INT_CONVERT_TO_INTERNAL w s
            (INT_CONVERT_FROM_INTERNAL w s c INT_CPU_CYCLE) INT_CPU_CYCLE
          + INT_CPU_TO_INTERNAL)
  /\ (INT_CONVERT_TO_INTERNAL w s
        (INT_CONVERT_FROM_INTERNAL w s c INT_CPU8_CYCLE) INT_CPU8_CYCLE <= c
      /\ c < INT_CONVERT_TO_INTERNAL w s
               (INT_CONVERT_FROM_INTERNAL w s c INT_CPU8_CYCLE) INT_CPU8_CYCLE
             + INT_CPU_TO_INTERNAL * 2 ^ s)
  /\ (c - INT_MFP_TO_INTERNAL * 2 ^ s
      < INT_CONVERT_TO_INTERNAL w s
          (INT_CONVERT_FROM_INTERNAL w s c INT_MFP_CYCLE) INT_MFP_CYCLE
      /\ INT_CONVERT_TO_INTERNAL w s
           (INT_CONVERT_FROM_INTERNAL w s c INT_MFP_CYCLE) INT_MFP_CYCLE
         < c + INT_MFP_TO_INTERNAL)
  /\ (s = 0 ->
      c <= INT_CONVERT_TO_INTERNAL w s
             (INT_CONVERT_FROM_INTERNAL w s c INT_MFP_CYCLE) INT_MFP_CYCLE).
Proof.
  intros Hc Hs Hr.
  assert (Hr0 : CInt.in_range w c).
  { apply (CIntFacts.in_range_between w _ _) with (2 := Hr).
    unfold INT_MFP_TO_INTERNAL. lia. }
  assert (Hp : 1 <= 2 ^ s) by now apply pow_shift_pos.
  rewrite from_internal_cpu by assumption.
  rewrite from_internal_boosted by (assumption || discriminate).
  rewrite from_internal_mfp by assumption.
  pose proof (floor_div c INT_CPU_TO_INTERNAL eq_refl) as F1.
  pose proof (floor_div (c / INT_CPU_TO_INTERNAL) (2 ^ s) ltac:(lia)) as F2.
  pose proof (ceiling_div c INT_MFP_TO_INTERNAL eq_refl) as F3.
  pose proof (floor_div ((c + INT_MFP_TO_INTERNAL - 1) / INT_MFP_TO_INTERNAL)
                (2 ^ s) ltac:(lia)) as F4.
  unfold is_floor, is_ceiling in *.
  set (q1 := c / INT_CPU_TO_INTERNAL) in *.
  set (q2 := q1 / 2 ^ s) in *.
  set (m1 := (c + INT_MFP_TO_INTERNAL - 1) / INT_MFP_TO_INTERNAL) in *.
  set (m2 := m1 / 2 ^ s) in *.
  set (p := 2 ^ s) in *.
  assert (0 <= q1) by (apply Z.div_pos; [lia | reflexivity]).
  assert (0 <= q2) by (apply Z.div_pos; lia).
  assert (0 <= m1)
    by (apply Z.div_pos; [unfold INT_MFP_TO_INTERNAL; lia | reflexivity]).
  assert (0 <= m2) by (apply Z.div_pos; lia).
  unfold INT_CPU_TO_INTERNAL, INT_MFP_TO_INTERNAL in F1, F3, Hr.
  rewrite to_internal_cpu
    by first [ lia
             | apply (CIntFacts.in_range_between w _ _) with (2 := Hr0);
               unfold INT_CPU_TO_INTERNAL; lia ].
  rewrite to_internal_boosted
    by first [ discriminate | lia
             | apply (CIntFacts.in_range_between w _ _) with (2 := Hr0);
               unfold INT_CPU_TO_INTERNAL; fold p; nia ].
  rewrite to_internal_mfp
    by first [ lia
             | apply (CIntFacts.in_range_between w _ _) with (2 := Hr);
               unfold INT_MFP_TO_INTERNAL; fold p; nia ].
  fold p. unfold INT_CPU_TO_INTERNAL, INT_MFP_TO_INTERNAL.
  assert (Hp0 : s = 0 -> p = 1) by (intros ->; reflexivity).
  clearbody q1 q2 m1 m2 p. clear Hr Hr0.
  assert (E2 : q2 * 9600 * p = 9600 * (p * q2)) by ring.
  assert (E4 : m2 * 31333 * p = 31333 * (p * m2)) by ring.
  rewrite E2, E4.
  split; [lia |]. split; [lia |]. split; [lia |].
  intros Hz. specialize (Hp0 Hz). subst p. lia.
Qed.

Lemma from_then_to_within_one_unit_witness :
  (INT_CONVERT_TO_INTERNAL 32 1
     (INT_CONVERT_FROM_INTERNAL 32 1 100000 INT_CPU_CYCLE) INT_CPU_CYCLE
   <= 100000
   /\ 100000 < INT_CONVERT_TO_INTERNAL 32 1
                 (INT_CONVERT_FROM_INTERNAL 32 1 100000 INT_CPU_CYCLE)
                 INT_CPU_CYCLE
               + INT_CPU_TO_INTERNAL)
  /\ (INT_CONVERT_TO_INTERNAL 32 1
        (INT_CONVERT_FROM_INTERNAL 32 1 100000 INT_CPU8_CYCLE) INT_CPU8_CYCLE
      <= 100000
      /\ 100000 < INT_CONVERT_TO_INTERNAL 32 1
                    (INT_CONVERT_FROM_INTERNAL 32 1 100000 INT_CPU8_CYCLE)
                    INT_CPU8_CYCLE
                  + INT_CPU_TO_INTERNAL * 2 ^ 1)
  /\ (100000 - INT_MFP_TO_INTERNAL * 2 ^ 1
      < INT_CONVERT_TO_INTERNAL 32 1
          (INT_CONVERT_FROM_INTERNAL 32 1 100000 INT_MFP_CYCLE) INT_MFP_CYCLE
      /\ INT_CONVERT_TO_INTERNAL 32 1
           (INT_CONVERT_FROM_INTERNAL 32 1 100000 INT_MFP_CYCLE) INT_MFP_CYCLE
         < 100000 + INT_MFP_TO_INTERNAL)
  /\ (1 = 0 ->
      100000 <= INT_CONVERT_TO_INTERNAL 32 1
                  (INT_CONVERT_FROM_INTERNAL 32 1 100000 INT_MFP_CYCLE)
                  INT_MFP_CYCLE).
Proof.
  apply (from_then_to_within_one_unit 32 1 100000); [lia | lia | fits].
Defined.

(** X6.  Tick counts below one cycle.  Fewer than 9600 ticks convert to 0
    cycles in the nominal-CPU and in the boosted-CPU domain (the quotient is
    truncated); any positive tick count converts to at least 1 MFP cycle at
    shift 0; at a shift of 1 or more, up to 31333 ticks convert to 0 MFP
    cycles, because the right shift follows the rounding. *)
Theorem ticks_below_one_cycle (w s c : Z) :
  0 <= s -> 0 < c -> CInt.in_range w (c + INT_MFP_TO_INTERNAL) ->
  (c < INT_CPU_TO_INTERNAL ->
   INT_CONVERT_FROM_INTERNAL w s c INT_CPU_CYCLE = 0
   /\ INT_CONVERT_FROM_INTERNAL w s c INT_CPU8_CYCLE = 0)
  /\ 1 <= INT_CONVERT_FROM_INTERNAL w 0 c INT_MFP_CYCLE
  /\ (1 <= s -> c <= INT_MFP_TO_INTERNAL ->
      INT_CONVERT_FROM_INTERNAL w s c INT_MFP_CYCLE = 0).
Proof.
  intros Hs Hc Hr.
  assert (Hr0 : CInt.in_range w c).
  { apply (CIntFacts.in_range_between w _ _) with (2 := Hr).
    unfold INT_MFP_TO_INTERNAL. lia. }
  rewrite from_internal_cpu by (assumption || lia).
  rewrite from_internal_boosted by (assumption || discriminate || lia).
  rewrite !from_internal_mfp by (assumption || lia).
  split; [| split].
  - intros Hlt. rewrite (Z.div_small c) by lia. split; [reflexivity |].
    apply Z.div_0_l. assert (0 < 2 ^ s) by (apply Z.pow_pos_nonneg; lia). lia.
  - rewrite Z.div_1_r.
    pose proof (ceiling_div c INT_MFP_TO_INTERNAL eq_refl) as F.
    unfold is_ceiling, INT_MFP_TO_INTERNAL in *. lia.
  - intros H1 Hle.
    assert (E : (c + INT_MFP_TO_INTERNAL - 1) / INT_MFP_TO_INTERNAL = 1).
    { pose proof (ceiling_div c INT_MFP_TO_INTERNAL eq_refl) as F.
      unfold is_ceiling, INT_MFP_TO_INTERNAL in *. lia. }
    rewrite E. apply Z.div_small.
    assert (2 ^ 1 <= 2 ^ s) by (apply Z.pow_le_mono_r; lia).
    change (2 ^ 1) with 2 in *. lia.
Qed.

Lemma ticks_below_one_cycle_witness :
  (9500 < INT_CPU_TO_INTERNAL ->
   INT_CONVERT_FROM_INTERNAL 32 1 9500 INT_CPU_CYCLE = 0
   /\ INT_CONVERT_FROM_INTERNAL 32 1 9500 INT_CPU8_CYCLE = 0)
  /\ 1 <= INT_CONVERT_FROM_INTERNAL 32 0 9500 INT_MFP_CYCLE
  /\ (1 <= 1 -> 9500 <= INT_MFP_TO_INTERNAL ->
      INT_CONVERT_FROM_INTERNAL 32 1 9500 INT_MFP_CYCLE = 0).
Proof. apply (ticks_below_one_cycle 32 1 9500); [lia | lia | fits]. Defined.

(** X7.  The inverse conversion is monotone: more ticks never convert to
    fewer cycles, in every domain. *)
Theorem from_internal_monotone (w s a b ty : Z) :
  0 <= a -> a <= b -> 0 <= s -> CInt.in_range w (b + INT_MFP_TO_INTERNAL) ->
  INT_CONVERT_FROM_INTERNAL w s a ty <= INT_CONVERT_FROM_INTERNAL w s b ty.
Proof.
  intros Ha Hab Hs Hrb.
  assert (Hra : CInt.in_range w (a + INT_MFP_TO_INTERNAL)).
  { apply (CIntFacts.in_range_between w _ _) with (2 := Hrb).
    unfold INT_MFP_TO_INTERNAL. lia. }
  assert (Hra0 : CInt.in_range w a).
  { apply (CIntFacts.in_range_between w _ _) with (2 := Hra).
    unfold INT_MFP_TO_INTERNAL. lia. }
  assert (Hrb0 : CInt.in_range w b).
  { apply (CIntFacts.in_range_between w _ _) with (2 := Hrb).
    unfold INT_MFP_TO_INTERNAL. lia. }
  assert (Hp : 0 < 2 ^ s) by (apply Z.pow_pos_nonneg; lia).
  destruct (Z.eq_dec ty INT_CPU_CYCLE) as [-> | H1].
  - rewrite !from_internal_cpu by (assumption || lia).
    apply Z.div_le_mono; [reflexivity | exact Hab].
  - destruct (Z.eq_dec ty INT_MFP_CYCLE) as [-> | H2].
    + rewrite !from_internal_mfp by (assumption || lia).
      apply Z.div_le_mono; [exact Hp |].
      apply Z.div_le_mono; [reflexivity | lia].
    + rewrite !from_internal_boosted by (assumption || lia).
      apply Z.div_le_mono; [exact Hp |].
      apply Z.div_le_mono; [reflexivity | exact Hab].
Qed.

Lemma from_internal_monotone_witness :
  INT_CONVERT_FROM_INTERNAL 32 1 62666 INT_MFP_CYCLE
  <= INT_CONVERT_FROM_INTERNAL 32 1 62667 INT_MFP_CYCLE.
Proof.
  apply (from_internal_monotone 32 1 62666 62667 INT_MFP_CYCLE);
    [lia | lia | lia | fits].
Defined.

(** X8.  The nominal-CPU conversion gives the true product exactly when
    the product fits the integer type; in 32-bit arithmetic that is, for a
    non-negative duration, exactly when the duration is at most 223696
    cycles. *)
Theorem cpu_conversion_exact_iff_fits (w s d : Z) :
  0 < w ->
  (INT_CONVERT_TO_INTERNAL w s d INT_CPU_CYCLE = d * INT_CPU_TO_INTERNAL
   <-> CInt.in_range w (d * INT_CPU_TO_INTERNAL))
  /\ (0 <= d ->
      INT_CONVERT_TO_INTERNAL 32 s d INT_CPU_CYCLE = d * INT_CPU_TO_INTERNAL
      <-> d <= 223696).
Proof.
  intros Hw. split.
  - unfold INT_CONVERT_TO_INTERNAL. simpl. unfold CInt.mul.
    now apply wrap_fixed_iff.
  - intros Hd. unfold INT_CONVERT_TO_INTERNAL. simpl. unfold CInt.mul.
    rewrite wrap_fixed_iff by lia.
    unfold CInt.in_range, INT_CPU_TO_INTERNAL.
    change (2 ^ (32 - 1)) with 2147483648. lia.
Qed.

Lemma cpu_conversion_exact_iff_fits_witness :
  (INT_CONVERT_TO_INTERNAL 32 0 223697 INT_CPU_CYCLE
   = 223697 * INT_CPU_TO_INTERNAL
   <-> CInt.in_range 32 (223697 * INT_CPU_TO_INTERNAL))
  /\ (0 <= 223697 ->
      INT_CONVERT_TO_INTERNAL 32 0 223697 INT_CPU_CYCLE
      = 223697 * INT_CPU_TO_INTERNAL
      <-> 223697 <= 223696).
Proof. apply (cpu_conversion_exact_iff_fits 32 0 223697). lia. Defined.

(** * Further properties of console.c *)

Lemma tables_ascii :
  forallb (fun c => (32 <=? c) && (c <=? 126)
                    || (c =? 8) || (c =? 9) || (c =? 10) || (c =? 13))
    (map_0_31 ++ map_128_255) = true.
Proof. reflexivity. Qed.

Lemma nth_in_table tbl i :
  0 <= i < Z.of_nat (length tbl) ->
  array_get tbl i = Some (nth (Z.to_nat i) tbl 0)
  /\ In (nth (Z.to_nat i) tbl 0) tbl.
Proof.
  intros [Hlo Hhi]. unfold array_get.
  destruct (Z.ltb_spec i 0); [lia |].
  assert (Hn : (Z.to_nat i < length tbl)%nat) by lia.
  split; [now apply nth_error_nth' | now apply nth_In].
Qed.

Lemma map_character_mapped value stderr :
  0 <= value < 256 ->
  map_character value stderr = Some (stderr ++ [mapped_byte value]).
Proof.
  intros Hv. unfold map_character, mapped_byte, fputc.
  destruct (Z.ltb_spec value 32).
  - destruct (nth_in_table map_0_31 value) as [-> _];
      [change (Z.of_nat (length map_0_31)) with 32; lia | reflexivity].
  - destruct (Z.gtb_spec value 127); [| reflexivity].
    rewrite int_sub_small by lia.
    destruct (nth_in_table map_128_255 (value - 128)) as [-> _];
      [change (Z.of_nat (length map_128_255)) with 128; lia | reflexivity].
Qed.

Lemma mapped_byte_ascii value :
  0 <= value < 256 ->
  32 <= mapped_byte value <= 127
  \/ In (mapped_byte value) [8; 9; 10; 13].
Proof.
  intros Hv. pose proof tables_ascii as T.
  rewrite forallb_forall in T. unfold mapped_byte.
  assert (K : forall c, In c (map_0_31 ++ map_128_255) ->
                        32 <= c <= 127 \/ In c [8; 9; 10; 13]).
  { intros c Hc. specialize (T c Hc).
    rewrite !orb_true_iff, andb_true_iff, !Z.leb_le, !Z.eqb_eq in T.
    simpl. lia. }
  destruct (Z.ltb_spec value 32).
  - apply K, in_or_app. left.
    apply (nth_in_table map_0_31 value).
    change (Z.of_nat (length map_0_31)) with 32. lia.
  - destruct (Z.gtb_spec value 127); [| lia].
    apply K, in_or_app. right.
    apply (nth_in_table map_128_255 (value - 128)).
    change (Z.of_nat (length map_128_255)) with 128. lia.
Qed.

Lemma mapped_byte_fixed c :
  32 <= c <= 127 \/ In c [8; 9; 10; 13] -> mapped_byte c = c.
Proof.
  intros [H | H].
  - unfold mapped_byte.
    destruct (Z.ltb_spec c 32); [lia |].
    destruct (Z.gtb_spec c 127); [lia | reflexivity].
  - simpl in H. destruct H as [<- | [<- | [<- | [<- | []]]]]; reflexivity.
Qed.

(** X9.  Whatever 8-bit value comes in, what [map_character] writes is
    7-bit ASCII: a byte in 32..127, or one of backspace, tab, line feed and
    carriage return. *)
Theorem map_character_writes_ascii (value : Z) (stderr : list Z) :
  0 <= value < 256 ->
  exists c,
    map_character value stderr = Some (stderr ++ [c])
    /\ (32 <= c <= 127 \/ c = 8 \/ c = 9 \/ c = 10 \/ c = 13).
Proof.
  intros Hv. exists (mapped_byte value).
  split; [now apply map_character_mapped |].
  destruct (mapped_byte_ascii value Hv) as [H | H]; [now left |].
  right. simpl in H. lia.
Qed.

Lemma map_character_writes_ascii_witness :
  exists c,
    map_character 158 [65] = Some ([65] ++ [c])
    /\ (32 <= c <= 127 \/ c = 8 \/ c = 9 \/ c = 10 \/ c = 13).
Proof. apply (map_character_writes_ascii 158 [65]). lia. Defined.

(** X10.  [map_character] is idempotent: the byte it writes for a value is
    a byte it passes through unchanged. *)
Theorem map_character_idempotent (value : Z) (stderr stderr' : list Z) :
  0 <= value < 256 ->
  exists c,
    map_character value stderr = Some (stderr ++ [c])
    /\ map_character c stderr' = Some (stderr' ++ [c]).
Proof.
  intros Hv. exists (mapped_byte value).
  split; [now apply map_character_mapped |].
  pose proof (mapped_byte_ascii value Hv) as H.
  rewrite map_character_mapped.
  - now rewrite mapped_byte_fixed.
  - destruct H as [H | H]; [lia |].
    simpl in H. lia.
Qed.

Lemma map_character_idempotent_witness :
  exists c,
    map_character 17 [] = Some ([] ++ [c])
    /\ map_character c [10] = Some ([10] ++ [c]).
Proof. apply (map_character_idempotent 17 [] [10]). lia. Defined.

Lemma vt52_host_mapped value s stderr :
  0 <= value < 256 ->
  exists s',
    vt52_host value s stderr = Some (s', stderr ++ [mapped_byte value])
    /\ escape_index s' = escape_index s
    /\ escape_target s' = escape_target s
    /\ hpos_tos s' = hpos_tos s
    /\ need_nl s' = need_nl s
    /\ escape_type s' = escape_type s
    /\ hpos_host s'
       = if value =? 8 then int_sub (hpos_host s) 1
         else if value =? 9 then Z.land (int_add (hpos_host s) 8) 65520
         else if (value =? 13) || (value =? 10) then 0
         else int_add (hpos_host s) 1.
Proof.
  intros Hv. unfold vt52_host. rewrite map_character_mapped by exact Hv.
  eexists. split; [reflexivity |].
  destruct (value =? 8); [now repeat split |].
  destruct (value =? 9); [now repeat split |].
  destruct ((value =? 13) || (value =? 10)); now repeat split.
Qed.

Lemma vt52_emu_appends (value : Z) (s : vt52_state) (stderr : list Z) :
  0 <= value < 256 ->
  exists s' out, vt52_emu value s stderr = Some (s', stderr ++ out).
Proof.
  intros Hv. unfold vt52_emu.
  destruct (negb (escape_target s =? 0)).
  - cbn [escape_index set_escape_index].
    unfold vt52_escape_end, vt52_position, pad.
    repeat match goal with
           | |- context [if ?b then _ else _] => destruct b
           end;
      try (eexists _, []; rewrite app_nil_r; reflexivity);
      try (eexists _, _; rewrite <- ?app_assoc; reflexivity).
  - destruct (value =? 27);
      [eexists _, []; rewrite app_nil_r; reflexivity |].
    destruct (need_nl s).
    + cbv zeta.
      repeat match goal with
             | |- context [if ?b then _ else _] => destruct b
             end;
        cbv beta iota;
        first
          [ eexists _, []; rewrite app_nil_r; reflexivity
          | match goal with
            | |- context [vt52_host value ?st ?err] =>
                destruct (vt52_host_mapped value st err Hv)
                  as (s'' & E' & _);
                rewrite E'
            end;
            unfold pad; eexists _, _; rewrite <- ?app_assoc; reflexivity ].
    + destruct (vt52_host_mapped value s stderr Hv) as (s' & -> & _).
      now eexists _, _.
Qed.

(** X11.  [vt52_emu] never fails and never takes back output: for every
    8-bit value and every state of its statics it returns, and the stream
    afterwards is the stream before with zero or more bytes appended. *)
Theorem vt52_emu_returns_and_appends (value : Z) (s : vt52_state)
    (stderr : list Z) :
  0 <= value < 256 ->
  exists s' out, vt52_emu value s stderr = Some (s', stderr ++ out).
Proof. apply vt52_emu_appends. Qed.

Lemma vt52_emu_returns_and_appends_witness :
  exists s' out, vt52_emu 200 vt52_after_row [1; 2] = Some (s', [1; 2] ++ out).
Proof. apply (vt52_emu_returns_and_appends 200 vt52_after_row [1; 2]). lia. Defined.


(** X12.  While an escape sequence is open the byte read is never printed:
    whatever the value, the call returns and what it appends consists of
    line feeds and blanks only. *)
Theorem vt52_escape_bytes_not_printed (value : Z) (s : vt52_state)
    (stderr : list Z) :
  escape_target s <> 0 ->
  exists s' out,
    vt52_emu value s stderr = Some (s', stderr ++ out)
    /\ Forall (fun b => b = 10 \/ b = 32) out.
Proof.
  intros Ht. unfold vt52_emu.
  destruct (Z.eqb_spec (escape_target s) 0); [contradiction |].
  cbn [negb escape_index set_escape_index].
  unfold vt52_escape_end, vt52_position, pad.
  repeat match goal with
         | |- context [if ?b then _ else _] => destruct b
         end;
    first
      [ eexists _, []; rewrite app_nil_r; split; [reflexivity | constructor]
      | eexists _, _; rewrite <- ?app_assoc; split; [reflexivity |];
        repeat (apply Forall_app; split);
        try (apply Forall_forall; intros b Hb; apply repeat_spec in Hb;
             right; exact Hb);
        repeat constructor; now left ].
Qed.

Lemma vt52_escape_bytes_not_printed_witness :
  exists s' out,
    vt52_emu 65 vt52_after_row [] = Some (s', [] ++ out)
    /\ Forall (fun b => b = 10 \/ b = 32) out.
Proof.
  apply (vt52_escape_bytes_not_printed 65 vt52_after_row []).
  vm_compute. discriminate.
Defined.

(** X13.  Escape sequences other than cursor movement are ignored.  Read
    from rest, the colour sequences [ESC b x] and [ESC c x] (any argument
    [x]) and [ESC] followed by any byte other than ['E'], ['b'], ['c'] and
    ['Y'] print nothing, leave both columns and the pending-newline flag as
    they were, and leave the machine at rest. *)
Theorem vt52_other_sequences_ignored (s : vt52_state) (stderr : list Z)
    (k x : Z) :
  escape_target s = 0 ->
  (k = ch "b" \/ k = ch "c" ->
   exists s',
     vt52_feed [27; k; x] s stderr = Some (s', stderr)
     /\ hpos_host s' = hpos_host s /\ hpos_tos s' = hpos_tos s
     /\ need_nl s' = need_nl s /\ escape_target s' = 0)
  /\ (k <> ch "E" -> k <> ch "b" -> k <> ch "c" -> k <> ch "Y" ->
      exists s',
        vt52_feed [27; k] s stderr = Some (s', stderr)
        /\ hpos_host s' = hpos_host s /\ hpos_tos s' = hpos_tos s
        /\ need_nl s' = need_nl s /\ escape_target s' = 0).
Proof.
  intros H0. split.
  - intros [-> | ->]; unfold vt52_feed, vt52_emu; rewrite H0; simpl;
      eexists; (split; [reflexivity |]); repeat split; reflexivity.
  - intros HE Hb Hc HY. unfold vt52_feed, vt52_emu. rewrite H0. simpl.
    destruct (Z.eqb_spec k (ch "E")); [contradiction |].
    destruct (Z.eqb_spec k (ch "b")); [contradiction |].
    destruct (Z.eqb_spec k (ch "c")); [contradiction |].
    destruct (Z.eqb_spec k (ch "Y")); [contradiction |].
    simpl. eexists. split; [reflexivity |]. repeat split; reflexivity.
Qed.

Lemma vt52_other_sequences_ignored_witness :
  (ch "b" = ch "b" \/ ch "b" = ch "c" ->
   exists s',
     vt52_feed [27; ch "b"; 27] vt52_init [7] = Some (s', [7])
     /\ hpos_host s' = hpos_host vt52_init /\ hpos_tos s' = hpos_tos vt52_init
     /\ need_nl s' = need_nl vt52_init /\ escape_target s' = 0)
  /\ (ch "b" <> ch "E" -> ch "b" <> ch "b" -> ch "b" <> ch "c" ->
      ch "b" <> ch "Y" ->
      exists s',
        vt52_feed [27; ch "b"] vt52_init [7] = Some (s', [7])
        /\ hpos_host s' = hpos_host vt52_init
        /\ hpos_tos s' = hpos_tos vt52_init
        /\ need_nl s' = need_nl vt52_init /\ escape_target s' = 0).
Proof. apply (vt52_other_sequences_ignored vt52_init [7] (ch "b") 27). reflexivity. Defined.

(** X14.  [ESC E] (clear screen and home) read from rest prints exactly
    one line feed and puts the host column at 0; the TOS column and a
    pending newline are left as they were. *)
Theorem vt52_clear_home_is_newline (s : vt52_state) (stderr : list Z) :
  escape_target s = 0 ->
  exists s',
    vt52_feed [27; ch "E"] s stderr = Some (s', stderr ++ [10])
    /\ hpos_host s' = 0 /\ hpos_tos s' = hpos_tos s
    /\ need_nl s' = need_nl s /\ escape_target s' = 0.
Proof.
  intros H0. unfold vt52_feed, vt52_emu. rewrite H0. simpl.
  eexists. split; [reflexivity |]. repeat split; reflexivity.
Qed.

Lemma vt52_clear_home_is_newline_witness :
  exists s',
    vt52_feed [27; ch "E"] vt52_init [65; 66] = Some (s', [65; 66] ++ [10])
    /\ hpos_host s' = 0 /\ hpos_tos s' = hpos_tos vt52_init
    /\ need_nl s' = need_nl vt52_init /\ escape_target s' = 0.
Proof. apply (vt52_clear_home_is_newline vt52_init [65; 66]). reflexivity. Defined.

(** X15.  At rest with no newline pending, every byte other than [ESC]
    puts exactly one byte on the stream, the one [map_character] gives for
    it, and the host column follows: back by one for backspace, to 0 for
    line feed and carriage return, forward by one for every byte other than
    these and tab. *)
Theorem vt52_plain_byte (value : Z) (s : vt52_state) (stderr : list Z) :
  0 <= value < 256 -> value <> 27 ->
  escape_target s = 0 -> need_nl s = false ->
  - 2 ^ 31 < hpos_host s < 2 ^ 31 - 1 ->
  exists s' c,
    vt52_emu value s stderr = Some (s', stderr ++ [c])
    /\ map_character value stderr = Some (stderr ++ [c])
    /\ escape_target s' = 0 /\ need_nl s' = false
    /\ hpos_tos s' = hpos_tos s
    /\ (value = 8 -> hpos_host s' = hpos_host s - 1)
    /\ (value = 10 \/ value = 13 -> hpos_host s' = 0)
    /\ (value <> 8 -> value <> 9 -> value <> 10 -> value <> 13 ->
        hpos_host s' = hpos_host s + 1).
Proof.
  intros Hv H27 H0 Hnl Hh. unfold vt52_emu. rewrite H0, Hnl. simpl.
  destruct (Z.eqb_spec value 27); [contradiction |].
  destruct (vt52_host_mapped value s stderr Hv)
    as (s' & -> & _ & Ht & Htos & Hn & _ & Hhost).
  exists s', (mapped_byte value).
  rewrite map_character_mapped by exact Hv.
  rewrite Ht, Htos, Hn, Hhost.
  repeat split; try assumption.
  - intros ->. simpl. unfold int_sub, CInt.sub.
    apply CIntFacts.wrap_small. apply CIntFacts.in_range_wide; lia.
  - intros [-> | ->]; reflexivity.
  - intros H8 H9 H10 H13.
    destruct (Z.eqb_spec value 8); [contradiction |].
    destruct (Z.eqb_spec value 9); [contradiction |].
    destruct (Z.eqb_spec value 13); [contradiction |].
    destruct (Z.eqb_spec value 10); [contradiction |].
    simpl. unfold int_add, CInt.add.
    apply CIntFacts.wrap_small. apply CIntFacts.in_range_wide; lia.
Qed.

Lemma vt52_plain_byte_witness :
  exists s' c,
    vt52_emu 132 vt52_init [] = Some (s', [] ++ [c])
    /\ map_character 132 [] = Some ([] ++ [c])
    /\ escape_target s' = 0 /\ need_nl s' = false
    /\ hpos_tos s' = hpos_tos vt52_init
    /\ (132 = 8 -> hpos_host s' = hpos_host vt52_init - 1)
    /\ (132 = 10 \/ 132 = 13 -> hpos_host s' = 0)
    /\ (132 <> 8 -> 132 <> 9 -> 132 <> 10 -> 132 <> 13 ->
        hpos_host s' = hpos_host vt52_init + 1).
Proof.
  apply (vt52_plain_byte 132 vt52_init []);
    [lia | lia | reflexivity | reflexivity | vm_compute; split; reflexivity].
Defined.


(** X16.  With a newline pending, blank, backspace and tab print nothing
    and leave the host column and the pending newline alone; any other byte
    (other than [ESC]) first prints a line feed, then as many blanks as the
    TOS column when that is within 1..79 (the column is 0 for line feed and
    carriage return), then the byte's mapping, and clears the pending
    newline. *)
Theorem vt52_pending_newline (value : Z) (s : vt52_state) (stderr : list Z) :
  0 <= value < 256 -> value <> 27 ->
  escape_target s = 0 -> need_nl s = true ->
  (is_blank_move value = true ->
   exists s',
     vt52_emu value s stderr = Some (s', stderr)
     /\ need_nl s' = true /\ hpos_host s' = hpos_host s)
  /\ (is_blank_move value = false ->
      exists s' c,
        let col := if (value =? 13) || (value =? 10) then 0 else hpos_tos s in
        let indent := if (0 <? col) && (col <? 80) then col else 0 in
        vt52_emu value s stderr
        = Some (s', stderr ++ [10] ++ repeat 32 (Z.to_nat indent) ++ [c])
        /\ map_character value [] = Some [c]
        /\ need_nl s' = false).
Proof.
  intros Hv H27 H0 Hnl. unfold vt52_emu, is_blank_move.
  rewrite H0, Hnl. cbn [negb Z.eqb].
  destruct (Z.eqb_spec value 27); [contradiction |].
  split.
  - intros Hb.
    destruct (value =? ch " ");
      [eexists; split; [reflexivity | split; [exact Hnl | reflexivity]] |].
    destruct (value =? 8);
      [eexists; split; [reflexivity | split; [exact Hnl | reflexivity]] |].
    destruct (value =? 9);
      [eexists; split; [reflexivity | split; [exact Hnl | reflexivity]] |].
    discriminate Hb.
  - intros Hb. apply orb_false_iff in Hb as [Hb H9].
    apply orb_false_iff in Hb as [H32 H8].
    rewrite H32, H8, H9. cbv zeta.
    rewrite (map_character_mapped value []) by exact Hv.
    destruct ((value =? 13) || (value =? 10)); cbn [hpos_tos set_hpos_tos].
    + cbn [Z.gtb Z.compare Z.ltb andb].
      destruct (vt52_host_mapped value
                  (set_need_nl false (set_hpos_host 0 (set_hpos_tos 0 s)))
                  (stderr ++ [10]) Hv) as (s' & E & _ & _ & _ & Hn & _).
      rewrite E. exists s', (mapped_byte value).
      split; [now rewrite <- app_assoc | split; [reflexivity | exact Hn]].
    + replace (hpos_tos s >? 0) with (0 <? hpos_tos s)
        by (rewrite Z.gtb_ltb; reflexivity).
      destruct ((0 <? hpos_tos s) && (hpos_tos s <? 80)) eqn:Hc.
      * apply andb_true_iff in Hc as [Hc _]. apply Z.ltb_lt in Hc.
        destruct (vt52_host_mapped value
                    (set_need_nl false (set_hpos_host (hpos_tos s) s))
                    (pad (hpos_tos s) (stderr ++ [10])) Hv)
          as (s' & E & _ & _ & _ & Hn & _).
        rewrite E. exists s', (mapped_byte value).
        split; [| split; [reflexivity | exact Hn]].
        unfold pad. rewrite Z.abs_eq by lia.
        now rewrite <- !app_assoc.
      * destruct (vt52_host_mapped value
                    (set_need_nl false (set_hpos_host 0 s))
                    (stderr ++ [10]) Hv) as (s' & E & _ & _ & _ & Hn & _).
        rewrite E. exists s', (mapped_byte value).
        split; [now rewrite <- app_assoc | split; [reflexivity | exact Hn]].
Qed.

Lemma vt52_pending_newline_witness :
  let s := {| escape_index := 3; escape_target := 0; hpos_host := 40;
              hpos_tos := 12; need_nl := true;
              escape_type := ESCAPE_POSITION |} in
  (is_blank_move 65 = true ->
   exists s',
     vt52_emu 65 s [] = Some (s', [])
     /\ need_nl s' = true /\ hpos_host s' = hpos_host s)
  /\ (is_blank_move 65 = false ->
      exists s' c,
        let col := if (65 =? 13) || (65 =? 10) then 0 else hpos_tos s in
        let indent := if (0 <? col) && (col <? 80) then col else 0 in
        vt52_emu 65 s []
        = Some (s', [] ++ [10] ++ repeat 32 (Z.to_nat indent) ++ [c])
        /\ map_character 65 [] = Some [c]
        /\ need_nl s' = false).
Proof.
  apply (vt52_pending_newline 65
           {| escape_index := 3; escape_target := 0; hpos_host := 40;
              hpos_tos := 12; need_nl := true;
              escape_type := ESCAPE_POSITION |} []);
    [lia | lia | reflexivity | reflexivity].
Defined.

Lemma land_fff0 x : 0 <= x < 65536 -> Z.land x 65520 = 16 * (x / 16).
Proof.
  intros Hx.
  assert (E : Z.land x 65520 = Z.shiftl (Z.land (Z.shiftr x 4) 4095) 4).
  { apply Z.bits_inj'. intros n Hn.
    rewrite Z.land_spec.
    destruct (Z.lt_ge_cases n 4) as [H4 | H4].
    - rewrite (Z.shiftl_spec_low _ _ _ H4).
      change 65520 with (Z.shiftl 4095 4).
      rewrite (Z.shiftl_spec_low _ _ _ H4). apply andb_false_r.
    - rewrite Z.shiftl_spec by exact Hn.
      rewrite Z.land_spec, Z.shiftr_spec by lia.
      change 65520 with (Z.shiftl 4095 4).
      rewrite (Z.shiftl_spec 4095) by exact Hn.
      replace (n - 4 + 4) with n by lia. reflexivity. }
  rewrite E. change 4095 with (Z.ones 12).
  rewrite Z.land_ones by lia.
  rewrite Z.shiftr_div_pow2, Z.shiftl_mul_pow2 by lia.
  change (2 ^ 4) with 16. change (2 ^ 12) with 4096.
  rewrite Z.mod_small; [lia |].
  split; [apply Z.div_pos; lia | apply Z.div_lt_upper_bound; lia].
Qed.

(** X17.  The tab stop of the host column.  At rest with no newline
    pending, a tab is printed as a tab and moves the host column, when it is
    within 0..65527, to [hpos_host + 8] rounded down to a multiple of 16:
    never more than 8 columns forward, up to 7 columns back, and from the
    columns 0..7 to column 0. *)
Theorem vt52_tab_stop (s : vt52_state) (stderr : list Z) :
  escape_target s = 0 -> need_nl s = false ->
  0 <= hpos_host s < 65528 ->
  exists s',
    vt52_emu 9 s stderr = Some (s', stderr ++ [9])
    /\ hpos_host s' = 16 * ((hpos_host s + 8) / 16)
    /\ hpos_host s - 7 <= hpos_host s' <= hpos_host s + 8
    /\ (hpos_host s < 8 -> hpos_host s' = 0).
Proof.
  intros H0 Hnl Hh. unfold vt52_emu. rewrite H0, Hnl. cbn [negb Z.eqb Pos.eqb].
  destruct (vt52_host_mapped 9 s stderr ltac:(lia))
    as (s' & E & _ & _ & _ & _ & _ & Hhost).
  rewrite E. exists s'. split; [reflexivity |].
  cbn [Z.eqb Pos.eqb] in Hhost. rewrite Hhost.
  assert (Ea : int_add (hpos_host s) 8 = hpos_host s + 8).
  { unfold int_add, CInt.add. apply CIntFacts.wrap_small.
    apply CIntFacts.in_range_wide; lia. }
  rewrite Ea, land_fff0 by lia.
  pose proof (Z.div_mod (hpos_host s + 8) 16 ltac:(lia)) as D.
  pose proof (Z.mod_pos_bound (hpos_host s + 8) 16 ltac:(lia)) as B.
  split; [reflexivity |]. split; [lia |].
  intros H8. rewrite Z.div_small by lia. reflexivity.
Qed.

Lemma vt52_tab_stop_witness :
  exists s',
    vt52_emu 9 vt52_init [] = Some (s', [] ++ [9])
    /\ hpos_host s' = 16 * ((hpos_host vt52_init + 8) / 16)
    /\ hpos_host vt52_init - 7 <= hpos_host s' <= hpos_host vt52_init + 8
    /\ (hpos_host vt52_init < 8 -> hpos_host s' = 0).
Proof.
  apply (vt52_tab_stop vt52_init []);
    [reflexivity | reflexivity | vm_compute; split; [discriminate | reflexivity]].
Defined.


(** * Properties of the libretro colour packing *)

Lemma five_bit_In x : 0 <= x < 32 -> In x five_bit.
Proof.
  intros Hx. unfold five_bit. apply in_map_iff.
  exists (Z.to_nat x). split; [lia |]. apply in_seq. lia.
Qed.

Lemma RGB565_five_bit_fields :
  forallb (fun x => forallb (fun y => forallb (fun z =>
    let p := RGB565 x y z in
    (p =? x * 2048 + y * 64 + z)
    && (Z.shiftr p 11 =? x)
    && (Z.land (Z.shiftr p 6) 31 =? y)
    && (Z.land p 31 =? z)
    && negb (Z.testbit p 5)) five_bit) five_bit) five_bit = true.
Proof. vm_compute. reflexivity. Qed.

Lemma shr3_byte v : 0 <= v < 256 -> CInt.shr 32 v 3 = v / 8 /\ 0 <= v / 8 < 32.
Proof.
  intros Hv.
  assert (0 <= v / 8 < 32)
    by (split; [apply Z.div_pos; lia | apply Z.div_lt_upper_bound; lia]).
  split; [| assumption].
  rewrite CIntFacts.shr_small; [reflexivity | lia | lia |].
  apply CIntFacts.in_range_wide; lia.
Qed.

(** X18.  [SDL_MapRGB] packs three 8-bit components into a 16-bit pixel
    without overlap, keeping the top five bits of each: red in bits 11..15,
    green in bits 6..10, blue in bits 0..4.  Bit 5 is always clear, so green
    gets five bits, not the six of a 5-6-5 pixel. *)
Theorem SDL_MapRGB_fields (a r g b : Z) :
  0 <= r < 256 -> 0 <= g < 256 -> 0 <= b < 256 ->
  let p := SDL_MapRGB a r g b in
  p = (r / 8) * 2048 + (g / 8) * 64 + b / 8
  /\ 0 <= p < 65536
  /\ Z.shiftr p 11 = r / 8
  /\ Z.land (Z.shiftr p 6) 31 = g / 8
  /\ Z.land p 31 = b / 8
  /\ Z.testbit p 5 = false.
Proof.
  intros Hr Hg Hb.
  destruct (shr3_byte r Hr) as [Er Br].
  destruct (shr3_byte g Hg) as [Eg Bg].
  destruct (shr3_byte b Hb) as [Eb Bb].
  unfold SDL_MapRGB. rewrite Er, Eg, Eb.
  pose proof RGB565_five_bit_fields as T.
  rewrite forallb_forall in T. specialize (T _ (five_bit_In _ Br)).
  rewrite forallb_forall in T. specialize (T _ (five_bit_In _ Bg)).
  rewrite forallb_forall in T. specialize (T _ (five_bit_In _ Bb)).
  cbv zeta in T.
  rewrite !andb_true_iff, !Z.eqb_eq, negb_true_iff in T.
  destruct T as ((((T1 & T2) & T3) & T4) & T5).
  cbv zeta. repeat split; try assumption; rewrite T1; lia.
Qed.

Lemma SDL_MapRGB_fields_witness :
  let p := SDL_MapRGB 0 255 255 255 in
  p = (255 / 8) * 2048 + (255 / 8) * 64 + 255 / 8
  /\ 0 <= p < 65536
  /\ Z.shiftr p 11 = 255 / 8
  /\ Z.land (Z.shiftr p 6) 31 = 255 / 8
  /\ Z.land p 31 = 255 / 8
  /\ Z.testbit p 5 = false.
Proof. apply (SDL_MapRGB_fields 0 255 255 255); lia. Defined.

(** X19.  [RGB565] on its own does not keep a six-bit green apart from
    red: a green component of 32 or more reaches bit 11.  For five-bit red
    and blue and a green in 32..63, red's lowest bit reads as set whatever
    red was. *)
Theorem RGB565_green_reaches_red (r g b : Z) :
  0 <= r < 32 -> 32 <= g < 64 -> 0 <= b < 32 ->
  Z.testbit (RGB565 r g b) 11 = true
  /\ Z.shiftr (RGB565 r g b) 11 = Z.lor r 1.
Proof.
  intros Hr Hg Hb.
  assert (T : forallb (fun x => forallb (fun y => forallb (fun z =>
              Z.testbit (RGB565 x (32 + y) z) 11
              && (Z.shiftr (RGB565 x (32 + y) z) 11 =? Z.lor x 1))
              five_bit) five_bit) five_bit = true)
    by (vm_compute; reflexivity).
  rewrite forallb_forall in T. specialize (T _ (five_bit_In r Hr)).
  rewrite forallb_forall in T.
  specialize (T _ (five_bit_In (g - 32) ltac:(lia))).
  rewrite forallb_forall in T. specialize (T _ (five_bit_In b Hb)).
  replace (32 + (g - 32)) with g in T by lia.
  apply andb_true_iff in T as [T1 T2]. apply Z.eqb_eq in T2. now split.
Qed.

Lemma RGB565_green_reaches_red_witness :
  Z.testbit (RGB565 0 63 0) 11 = true
  /\ Z.shiftr (RGB565 0 63 0) 11 = Z.lor 0 1.
Proof. apply (RGB565_green_reaches_red 0 63 0); lia. Defined.


(** * Properties of gst2ascii.c *)

Section Gst2asciiFacts.

Import Gst2ascii.

(** X20.  [symbols_by_address] is a comparator fit for [qsort]: it returns
    -1, 0 or 1, it returns 0 exactly for equal addresses, swapping the
    arguments negates the result, and "not after" is transitive. *)
Theorem symbols_by_address_comparator (a b c : symbol_t) :
  (symbols_by_address a b = -1 \/ symbols_by_address a b = 0
   \/ symbols_by_address a b = 1)
  /\ (symbols_by_address a b = 0 <-> address a = address b)
  /\ symbols_by_address b a = - symbols_by_address a b
  /\ (symbols_by_address a b <= 0 -> symbols_by_address b c <= 0 ->
      symbols_by_address a c <= 0).
Proof.
  unfold symbols_by_address. cbv zeta.
  destruct (Z.ltb_spec (address a) (address b)),
    (Z.gtb_spec (address a) (address b)),
    (Z.ltb_spec (address b) (address a)),
    (Z.gtb_spec (address b) (address a)),
    (Z.ltb_spec (address b) (address c)),
    (Z.gtb_spec (address b) (address c)),
    (Z.ltb_spec (address a) (address c)),
    (Z.gtb_spec (address a) (address c)); lia.
Qed.

Lemma strcmp_swap a b : strcmp b a = - strcmp a b.
Proof.
  revert b. induction a as [| x a IH]; intros [| y b]; simpl; try lia.
  rewrite (Z.eqb_sym y x). destruct (x =? y); [apply IH | lia].
Qed.

Lemma strcmp_eq a b :
  Forall (fun c => c <> 0) a -> Forall (fun c => c <> 0) b ->
  strcmp a b = 0 <-> a = b.
Proof.
  revert b. induction a as [| x a IH]; intros [| y b] Ha Hb; simpl.
  - tauto.
  - inversion Hb; subst. split; [lia | discriminate].
  - inversion Ha; subst. split; [lia | discriminate].
  - inversion Ha; inversion Hb; subst.
    destruct (Z.eqb_spec x y) as [-> | Hxy].
    + rewrite IH by assumption. split; congruence.
    + split; [lia | congruence].
Qed.

Lemma strcmp_trans a b c :
  Forall (fun x => 0 < x) a -> Forall (fun x => 0 < x) b ->
  Forall (fun x => 0 < x) c ->
  strcmp a b <= 0 -> strcmp b c <= 0 -> strcmp a c <= 0.
Proof.
  revert b c. induction a as [| x a IH]; intros [| y b] [| z c] Ha Hb Hc;
    simpl; try lia;
    try (inversion Ha; subst); try (inversion Hb; subst);
    try (inversion Hc; subst); try lia.
  destruct (Z.eqb_spec x y), (Z.eqb_spec y z), (Z.eqb_spec x z); try lia.
  now apply IH.
Qed.

(** X21.  [symbols_by_name] is a comparator fit for [qsort] on C strings
    (bytes 1..255): it returns 0 exactly for equal names, swapping the
    arguments negates the result, and "not after" is transitive. *)
Theorem symbols_by_name_comparator (a b c : symbol_t) :
  Forall (fun x => 0 < x) (name a) -> Forall (fun x => 0 < x) (name b) ->
  Forall (fun x => 0 < x) (name c) ->
  (symbols_by_name a b = 0 <-> name a = name b)
  /\ symbols_by_name b a = - symbols_by_name a b
  /\ (symbols_by_name a b <= 0 -> symbols_by_name b c <= 0 ->
      symbols_by_name a c <= 0).
Proof.
  intros Ha Hb Hc. unfold symbols_by_name. split; [| split].
  - apply strcmp_eq; eapply Forall_impl; try eassumption; simpl; lia.
  - apply strcmp_swap.
  - now apply strcmp_trans.
Qed.

Lemma symbols_by_name_comparator_witness :
  let a := {| name := str "_main"; address := 0; type := SYMTYPE_TEXT |} in
  let b := {| name := str "_mainloop"; address := 8; type := SYMTYPE_TEXT |} in
  let c := {| name := str "_zero"; address := 4; type := SYMTYPE_BSS |} in
  (symbols_by_name a b = 0 <-> name a = name b)
  /\ symbols_by_name b a = - symbols_by_name a b
  /\ (symbols_by_name a b <= 0 -> symbols_by_name b c <= 0 ->
      symbols_by_name a c <= 0).
Proof.
  apply (symbols_by_name_comparator
           {| name := str "_main"; address := 0; type := SYMTYPE_TEXT |}
           {| name := str "_mainloop"; address := 8; type := SYMTYPE_TEXT |}
           {| name := str "_zero"; address := 4; type := SYMTYPE_BSS |});
    vm_compute; repeat constructor.
Defined.

(** X22.  [symbol_char] gives the four symbol types four different
    letters, none of them the question mark, and gives the question mark
    for every other integer. *)
Theorem symbol_char_distinguishes_types :
  (forall t1 t2,
     symbol_char (symtype_val t1) = symbol_char (symtype_val t2) -> t1 = t2)
  /\ (forall t, symbol_char (symtype_val t) <> ch "?")
  /\ (forall v, (forall t, v <> symtype_val t) -> symbol_char v = ch "?").
Proof.
  split; [| split].
  - intros [] []; vm_compute; intros H; (reflexivity || discriminate H).
  - intros []; vm_compute; discriminate.
  - intros v Hv. unfold symbol_char.
    destruct (Z.eqb_spec v (symtype_val SYMTYPE_TEXT));
      [exfalso; now apply (Hv SYMTYPE_TEXT) |].
    destruct (Z.eqb_spec v (symtype_val SYMTYPE_DATA));
      [exfalso; now apply (Hv SYMTYPE_DATA) |].
    destruct (Z.eqb_spec v (symtype_val SYMTYPE_BSS));
      [exfalso; now apply (Hv SYMTYPE_BSS) |].
    destruct (Z.eqb_spec v (symtype_val SYMTYPE_ABS));
      [exfalso; now apply (Hv SYMTYPE_ABS) |].
    reflexivity.
Qed.

End Gst2asciiFacts.


Section Gst2asciiNames.

Import Gst2ascii.

Lemma ends_in_chars x y (s : cstring) :
  2 <= Z.of_nat (length s) ->
  char_at s (Z.of_nat (length s) - 2) = x
  /\ char_at s (Z.of_nat (length s) - 1) = y
  <-> ends_in x y s.
Proof.
  intros Hlen. unfold ends_in, char_at. split.
  - intros [Hx Hy].
    exists (firstn (length s - 2) s).
    assert (Hf : length (firstn (length s - 2) s) = (length s - 2)%nat)
      by (rewrite length_firstn; lia).
    assert (Hl : length (skipn (length s - 2) s) = 2%nat)
      by (rewrite length_skipn; lia).
    pose proof (firstn_skipn (length s - 2) s) as Hsplit.
    destruct (skipn (length s - 2) s) as [| u [| v [| ? ?]]];
      try discriminate Hl.
    set (p := firstn (length s - 2) s) in *.
    rewrite <- Hsplit in Hx at 2. rewrite <- Hsplit in Hy at 2.
    rewrite app_nth2 in Hx, Hy by lia. rewrite Hf in Hx, Hy.
    replace (Z.to_nat (Z.of_nat (length s) - 2) - (length s - 2))%nat
      with 0%nat in Hx by lia.
    replace (Z.to_nat (Z.of_nat (length s) - 1) - (length s - 2))%nat
      with 1%nat in Hy by lia.
    simpl in Hx, Hy. subst u v. now symmetry.
  - intros [p ->]. rewrite length_app. simpl length.
    rewrite !app_nth2 by lia.
    replace (Z.to_nat (Z.of_nat (length p + 2) - 2) - length p)%nat
      with 0%nat by lia.
    replace (Z.to_nat (Z.of_nat (length p + 2) - 1) - length p)%nat
      with 1%nat by lia.
    now split.
Qed.

Lemma gcc_sym_nonzero : Forall (Forall (fun c => c <> 0)) gcc_sym.
Proof. repeat constructor; discriminate. Qed.

Lemma gcc_sym_match (s : cstring) :
  Forall (fun c => c <> 0) s ->
  existsb (fun g => strcmp s g =? 0) gcc_sym = true <-> In s gcc_sym.
Proof.
  intros Hs. rewrite existsb_exists. split.
  - intros [g [Hg E]]. apply Z.eqb_eq in E.
    apply strcmp_eq in E; [now subst | exact Hs |].
    pose proof gcc_sym_nonzero as N. rewrite Forall_forall in N.
    now apply N.
  - intros Hin. exists s. split; [exact Hin |]. apply Z.eqb_eq.
    now apply strcmp_eq.
Qed.

(** X23.  Which names [symbol_remove_obj] takes for object symbols: a name
    of more than two characters that ends in [.a] or [.o] or holds a slash,
    and the two GCC-internal names; nothing else.  So a name of one or two
    characters is never taken for one, not even [.o] or [a/]. *)
Theorem symbol_remove_obj_spec (s : cstring) :
  Forall (fun c => c <> 0) s ->
  (symbol_remove_obj s = true
   <-> (2 < Z.of_nat (length s)
        /\ (ends_in (ch ".") (ch "a") s \/ ends_in (ch ".") (ch "o") s
            \/ In (ch "/") s))
       \/ s = str "___gnu_compiled_c" \/ s = str "gcc2_compiled.")
  /\ (Z.of_nat (length s) <= 2 -> symbol_remove_obj s = false).
Proof.
  intros Hs.
  assert (Hslash : existsb (Z.eqb (ch "/")) s = true <-> In (ch "/") s).
  { rewrite existsb_exists. split.
    - intros [c [Hc E]]. apply Z.eqb_eq in E. now subst.
    - intros H. exists (ch "/"). split; [exact H | apply Z.eqb_refl]. }
  assert (Hgcc : In s gcc_sym
                 <-> s = str "___gnu_compiled_c" \/ s = str "gcc2_compiled.").
  { unfold gcc_sym. simpl. intuition congruence. }
  assert (Hlong : In s gcc_sym -> 2 < Z.of_nat (length s)).
  { intros H. apply Hgcc in H as [-> | ->]; vm_compute; reflexivity. }
  assert (Main :
    symbol_remove_obj s = true
    <-> (2 < Z.of_nat (length s)
         /\ (ends_in (ch ".") (ch "a") s \/ ends_in (ch ".") (ch "o") s
             \/ In (ch "/") s))
        \/ In s gcc_sym).
  { unfold symbol_remove_obj. cbv zeta.
    destruct (Z.gtb_spec (Z.of_nat (length s)) 2) as [Hgt | Hle].
    - pose proof (ends_in_chars (ch ".") (ch "a") s ltac:(lia)) as Ea.
      pose proof (ends_in_chars (ch ".") (ch "o") s ltac:(lia)) as Eo.
      cbn [andb].
      destruct (Z.eqb_spec (char_at s (Z.of_nat (length s) - 2)) (ch "."))
        as [Hd | Hd];
        destruct (Z.eqb_spec (char_at s (Z.of_nat (length s) - 1)) (ch "a"))
          as [Ha | Ha];
        destruct (Z.eqb_spec (char_at s (Z.of_nat (length s) - 1)) (ch "o"))
          as [Ho | Ho];
        cbn [andb orb];
        try (split; [intros _; left; split; [lia | tauto] | reflexivity]);
        destruct (existsb (Z.eqb (ch "/")) s) eqn:Es;
        try (split; [intros _; left; split; [lia | tauto] | reflexivity]);
        rewrite (gcc_sym_match s Hs);
        (split; [tauto |]);
        (intros [[_ [H | [H | H]]] | H]; [| | | exact H]);
        try (apply Ea in H; tauto); try (apply Eo in H; tauto);
        try (apply Hslash in H; discriminate H).
    - cbn [andb]. rewrite (gcc_sym_match s Hs).
      split; [tauto | intros [[H _] | H]; [lia | exact H]]. }
  split.
  - rewrite Main, Hgcc. tauto.
  - intros Hle. apply not_true_is_false. intros E.
    apply Main in E as [[H _] | H]; [lia |].
    apply Hlong in H. lia.
Qed.

Lemma symbol_remove_obj_spec_witness :
  (symbol_remove_obj (str "lib/crt0.o") = true
   <-> (2 < Z.of_nat (length (str "lib/crt0.o"))
        /\ (ends_in (ch ".") (ch "a") (str "lib/crt0.o")
            \/ ends_in (ch ".") (ch "o") (str "lib/crt0.o")
            \/ In (ch "/") (str "lib/crt0.o")))
       \/ str "lib/crt0.o" = str "___gnu_compiled_c"
       \/ str "lib/crt0.o" = str "gcc2_compiled.")
  /\ (Z.of_nat (length (str "lib/crt0.o")) <= 2 ->
      symbol_remove_obj (str "lib/crt0.o") = false).
Proof.
  apply (symbol_remove_obj_spec (str "lib/crt0.o")).
  vm_compute. repeat constructor; discriminate.
Defined.

End Gst2asciiNames.


Section Gst2asciiMain.

Import Gst2ascii.

Lemma has_letter_snoc c pre arg :
  has_letter c (pre ++ [arg])
  = has_letter c pre || (tolower (char_at arg 1) =? c).
Proof.
  unfold has_letter. rewrite existsb_app. simpl. now rewrite orb_false_r.
Qed.

Ltac letter_case pre :=
    split; [| reflexivity];
    unfold set_notypes, set_no_local, set_no_obj, set_sort_name;
    cbn [notypes no_local no_obj sort_name];
    repeat match goal with
           | |- context [has_letter ?k pre] => destruct (has_letter k pre)
           end;
    reflexivity.

Lemma option_letter_step pre arg :
  match option_letter (tolower (char_at arg 1)) (options_of pre) with
  | Some o => o = options_of (pre ++ [arg])
              /\ existsb (Z.eqb (tolower (char_at arg 1))) (str "abdtlon")
                 = true
  | None => existsb (Z.eqb (tolower (char_at arg 1))) (str "abdtlon") = false
  end.
Proof.
  unfold option_letter, options_of. rewrite !has_letter_snoc.
  set (c := tolower (char_at arg 1)).
  assert (E : forall k, c <> k -> (c =? k) = false)
    by (intros k Hk; now apply Z.eqb_neq).
  destruct (Z.eqb_spec c (ch "a")) as [-> | Ha]; [letter_case pre |].
  destruct (Z.eqb_spec c (ch "b")) as [-> | Hb]; [letter_case pre |].
  destruct (Z.eqb_spec c (ch "d")) as [-> | Hd]; [letter_case pre |].
  destruct (Z.eqb_spec c (ch "t")) as [-> | Ht]; [letter_case pre |].
  destruct (Z.eqb_spec c (ch "l")) as [-> | Hl]; [letter_case pre |].
  destruct (Z.eqb_spec c (ch "o")) as [-> | Ho]; [letter_case pre |].
  destruct (Z.eqb_spec c (ch "n")) as [-> | Hn]; [letter_case pre |].
  cbn [existsb str map list_ascii_of_string].
  rewrite !E by assumption. reflexivity.
Qed.

Lemma main_options_two o arg y r :
  main_options o (arg :: y :: r)
  = if negb (char_at arg 0 =? ch "-")
    then main_after_options o (arg :: y :: r)
    else match option_letter (tolower (char_at arg 1)) o with
         | Some o' => main_options o' (y :: r)
         | None => Usage "unknown option"
         end.
Proof. reflexivity. Qed.

Lemma main_options_spec rest pre :
  match main_options (options_of pre) rest with
  | Load opts file =>
      exists optargs,
        rest = optargs ++ [file]
        /\ forallb option_arg optargs = true
        /\ opts = options_of (pre ++ optargs)
  | Usage _ =>
      forall optargs file,
        rest = optargs ++ [file] -> forallb option_arg optargs = false
  end.
Proof.
  revert pre. induction rest as [| arg rest IH]; intros pre.
  - cbn [main_options main_after_options].
    intros [| ? [| ? ?]] file H; discriminate H.
  - destruct rest as [| y r].
    + cbn [main_options main_after_options].
      exists []. rewrite app_nil_r. now repeat split.
    + rewrite main_options_two.
      destruct (Z.eqb_spec (char_at arg 0) (ch "-")) as [Hd | Hd]; cbn [negb].
      * pose proof (option_letter_step pre arg) as S.
        destruct (option_letter (tolower (char_at arg 1)) (options_of pre))
          as [o |].
        -- destruct S as [-> Hl]. specialize (IH (pre ++ [arg])).
           destruct (main_options (options_of (pre ++ [arg])) (y :: r))
             as [msg | opts file].
           ++ cbv iota in IH |- *.
              intros [| a optargs] file H; [destruct r; discriminate H |].
              injection H as <- H. cbn [forallb].
              rewrite (IH optargs file H). apply andb_false_r.
           ++ cbv iota in IH |- *. destruct IH as (optargs & E & Hall & ->).
              exists (arg :: optargs). rewrite E. split; [reflexivity |].
              split.
              ** cbn [forallb]. rewrite Hall. unfold option_arg.
                 apply Z.eqb_eq in Hd. now rewrite Hd, Hl.
              ** now rewrite <- app_assoc.
        -- intros [| a optargs] file H; [destruct r; discriminate H |].
           injection H as <- H. cbn [forallb]. unfold option_arg.
           now rewrite S, andb_false_r.
      * unfold main_after_options.
        intros [| a optargs] file H; [destruct r; discriminate H |].
        injection H as <- H. cbn [forallb]. unfold option_arg.
        apply Z.eqb_neq in Hd. now rewrite Hd.
Qed.

(** X24.  Which command lines [main] accepts.  [main] goes on to load a
    file exactly when, after the program name, every argument but the last
    is a dash followed by one of the letters a, b, d, t, l, o, n in either
    case (what follows the letter is not looked at); the file is then the
    last argument, whatever it looks like, and the options are those the
    letters stand for, in any order and however often repeated.  Every
    other command line ends in [usage]. *)
Theorem main_command_line (argv : list cstring) :
  match main argv with
  | Load opts file =>
      exists prog optargs,
        argv = prog :: optargs ++ [file]
        /\ forallb option_arg optargs = true
        /\ opts = options_of optargs
  | Usage _ =>
      forall prog optargs file,
        argv = prog :: optargs ++ [file] -> forallb option_arg optargs = false
  end.
Proof.
  unfold main. change Options0 with (options_of []).
  pose proof (main_options_spec (tl argv) []) as S.
  destruct (main_options (options_of []) (tl argv)) as [msg | opts file].
  - intros prog optargs file ->. exact (S optargs file eq_refl).
  - destruct S as (optargs & E & Hall & ->).
    destruct argv as [| prog rest]; [destruct optargs; discriminate E |].
    simpl in E. subst rest. now exists prog, optargs.
Qed.

(** The last argument is the file even when it starts with a dash, and
    option letters in upper case and with a tail are accepted. *)
Example main_dash_file :
  main [str "gst2ascii"; str "-Bogus"; str "-n"; str "-a"]
  = Load {| notypes := 4; no_local := false; no_obj := false;
            sort_name := true |} (str "-a").
Proof. reflexivity. Qed.

End Gst2asciiMain.


Section Gst2asciiLoadDri.

Import Gst2ascii.

Variable Options : options_t.
Variable heap : heap_t.
Variable sections : list prg_section_t.

Lemma fread_some n fp a fp' :
  fread n fp = Some (a, fp') ->
  length a = n /\ length fp = (n + length fp')%nat.
Proof.
  unfold fread. destruct (Nat.ltb_spec (length fp) n); [discriminate |].
  intros E. injection E as <- <-.
  rewrite length_firstn, length_skipn. lia.
Qed.

Lemma fread_enough n fp :
  (n <= length fp)%nat -> exists a fp', fread n fp = Some (a, fp').
Proof.
  intros H. unfold fread. destruct (Nat.ltb_spec (length fp) n); [lia |].
  now eexists _, _.
Qed.

Lemma fread_none n fp : fread n fp = None -> (length fp < n)%nat.
Proof.
  unfold fread. destruct (Nat.ltb_spec (length fp) n); [trivial | discriminate].
Qed.

Lemma c_string_nonzero buf : Forall (fun c => c <> 0) (c_string buf).
Proof.
  induction buf as [| b r IH]; simpl; [constructor |].
  destruct (Z.eqb_spec b 0); [constructor | now constructor].
Qed.

Lemma c_string_terminated (x y : list Z) :
  (length (c_string (x ++ 0%Z :: y)) <= length x)%nat.
Proof.
  induction x as [| b r IH]; simpl; [lia |].
  destruct (b =? 0); simpl; lia.
Qed.

Lemma c_string_head buf a b r :
  c_string buf = a :: b :: r -> char_at buf 0 = a /\ char_at buf 1 = b.
Proof.
  unfold char_at. destruct buf as [| x [| y t]]; simpl.
  - discriminate.
  - destruct (x =? 0); discriminate.
  - destruct (x =? 0); [discriminate |]. destruct (y =? 0); [discriminate |].
    intros E. injection E as <- <- _. now split.
Qed.

Lemma dri_start_inv : dri_inv Options sections dri_start.
Proof. unfold dri_inv. simpl. repeat split; (constructor || lia). Qed.

Lemma dri_slot_inv i buf symid address st st' :
  (exists x y, buf = x ++ 0 :: y /\ (length x <= 22)%nat) ->
  dri_inv Options sections st ->
  dri_slot Options heap sections i buf symid address st = Some st' ->
  dri_inv Options sections st' /\ tally st' = tally st + 1.
Proof.
  intros (x & y & -> & Hx) (Hk & Hc & Hi & Hd & Hn & Hl & Ho).
  assert (Hlen : (length (c_string (x ++ 0%Z :: y)) <= 22)%nat)
    by (pose proof (c_string_terminated x y); lia).
  assert (Store : forall sym,
             symbol_kept Options sections sym ->
             store_asserted heap sym st = Some st' ->
             dri_inv Options sections st' /\ tally st' = tally st + 1).
  { intros sym Hs. unfold store_asserted.
    destruct (strdup_ok heap (n_count st)); [| discriminate].
    intros [= <-]. unfold dri_inv, tally. simpl. rewrite length_app. simpl.
    repeat split; try lia. apply Forall_app. split; [exact Hk |].
    now constructor. }
  assert (Inval : forall w,
             Some (bump_invalid w st) = Some st' ->
             dri_inv Options sections st' /\ tally st' = tally st + 1).
  { intros w [= <-]. unfold dri_inv, tally. simpl. rewrite length_app. simpl.
    repeat split; try lia. exact Hk. }
  assert (Bump : forall st1,
             stored st1 = stored st -> n_count st1 = n_count st ->
             n_invalid st1 = n_invalid st -> warnings st1 = warnings st ->
             0 <= n_dtypes st1 -> 0 <= n_notypes st1 -> 0 <= n_locals st1 ->
             0 <= n_ofiles st1 -> tally st1 = tally st + 1 ->
             Some st1 = Some st' ->
             dri_inv Options sections st' /\ tally st' = tally st + 1).
  { intros st1 E1 E2 E3 E4 ? ? ? ? Ht [= <-]. unfold dri_inv.
    rewrite E1, E2, E3, E4. repeat split; assumption. }
  unfold dri_slot. cbv zeta.
  destruct (dri_classify symid) as [symtype section | |] eqn:Ec.
  - destruct (Z.eqb_spec (Z.land (notypes Options) (symtype_val symtype)) 0)
      as [Hmask | Hmask]; cbn [negb];
      [| apply Bump; unfold tally; simpl; (reflexivity || lia)].
    destruct (no_local Options
              && (char_at (x ++ 0 :: y) 0 =? ch ".")
              && (char_at (x ++ 0 :: y) 1 =? ch "L")) eqn:Eloc;
      [apply Bump; unfold tally; simpl; (reflexivity || lia) |].
    destruct (no_obj Options && symbol_remove_obj (c_string (x ++ 0 :: y)))
      eqn:Eobj;
      [apply Bump; unfold tally; simpl; (reflexivity || lia) |].
    assert (Hloc : no_local Options = true ->
                   forall r, c_string (x ++ 0 :: y) <> ch "." :: ch "L" :: r).
    { intros Ht r E. apply c_string_head in E as [E0 E1].
      rewrite Ht, E0, E1 in Eloc. discriminate Eloc. }
    assert (Hobj : no_obj Options = true ->
                   symbol_remove_obj (c_string (x ++ 0 :: y)) = false).
    { intros Ht. now rewrite Ht in Eobj. }
    assert (Kept : forall a,
               match symtype with
               | SYMTYPE_TEXT => a <= end_ (section_at sections 0)
               | SYMTYPE_DATA => a <= end_ (section_at sections 1)
               | SYMTYPE_BSS => a <= end_ (section_at sections 2)
               | SYMTYPE_ABS => True
               end ->
               symbol_kept Options sections
                 {| name := c_string (x ++ 0 :: y); address := a;
                    type := symtype |}).
    { intros a Ha. unfold symbol_kept. simpl.
      repeat split; try assumption. apply c_string_nonzero. }
    assert (Hsec : match symtype, section with
                   | SYMTYPE_TEXT, Some k => k = 0%nat
                   | SYMTYPE_DATA, Some k => k = 1%nat
                   | SYMTYPE_BSS, Some k => k = 2%nat
                   | SYMTYPE_ABS, None => True
                   | _, _ => False
                   end).
    { unfold dri_classify in Ec. cbv zeta in Ec.
      repeat match type of Ec with
             | (if ?b then _ else _) = _ => destruct b
             end; try discriminate Ec; injection Ec as <- <-; exact I ||
                                                               reflexivity. }
    destruct section as [k |].
    + destruct (Z.gtb_spec
                  (uint32 (address + offset (section_at sections k)))
                  (end_ (section_at sections k))) as [Hgt | Hle];
        [apply Inval |].
      apply Store, Kept.
      destruct symtype; try contradiction; subst k; exact Hle.
    + apply Store, Kept. destruct symtype; try contradiction. exact I.
  - apply Bump; unfold tally; simpl; (reflexivity || lia).
  - apply Inval.
Qed.

(** The assertion fails only at a [strdup] that gave no memory, and the
    index it was asked for is that of a slot. *)
Lemma dri_slot_assert i buf symid address st :
  dri_slot Options heap sections i buf symid address st = None ->
  strdup_ok heap (n_count st) = false.
Proof.
  unfold dri_slot, store_asserted. cbv zeta.
  repeat match goal with
         | |- context [match ?x with _ => _ end] => destruct x
         end; (discriminate || reflexivity || trivial).
Qed.

Lemma dri_loop_inv fuel symbols i fp st i' st' :
  dri_loop fuel Options heap sections symbols i fp st
  = Some (LoopLeft i' st') ->
  dri_inv Options sections st -> tally st <= i - 1 -> tally st <= symbols ->
  dri_inv Options sections st' /\ tally st' <= symbols.
Proof.
  revert i fp st. induction fuel as [| fuel IH]; intros i fp st; simpl;
    [discriminate |].
  destruct (Z.leb_spec i symbols) as [Hi | Hi];
    [| intros E; injection E as <- <-; now split].
  destruct (fread 8 fp) as [[name8 fp1] |] eqn:E1;
    [| intros E; injection E as <- <-; now split].
  destruct (fread 2 fp1) as [[symid fp2] |] eqn:E2;
    [| intros E; injection E as <- <-; now split].
  destruct (fread 4 fp2) as [[address fp3] |] eqn:E3;
    [| intros E; injection E as <- <-; now split].
  apply fread_some in E1 as [L1 _].
  cbv zeta.
  destruct (negb (Z.land (big_endian symid) 72 =? 0)).
  - destruct (fread 14 fp3) as [[more fp4] |] eqn:E4;
      [| intros E; injection E as <- <-; now split].
    apply fread_some in E4 as [L4 _].
    destruct (dri_slot Options heap sections (i + 1) (name8 ++ more ++ [0])
                (big_endian symid) (big_endian address) st) as [st1 |] eqn:Es;
      [| discriminate].
    intros E Hinv Ht Hs.
    destruct (dri_slot_inv _ _ _ _ _ _
                ltac:(exists (name8 ++ more), []; rewrite <- app_assoc; split;
                      [reflexivity | rewrite length_app; lia]) Hinv Es)
      as [Hinv' Ht'].
    apply (IH _ _ _ E); [exact Hinv' | lia | lia].
  - destruct (dri_slot Options heap sections i (name8 ++ [0])
                (big_endian symid) (big_endian address) st) as [st1 |] eqn:Es;
      [| discriminate].
    intros E Hinv Ht Hs.
    destruct (dri_slot_inv _ _ _ _ _ _
                ltac:(exists name8, []; split; [reflexivity | lia]) Hinv Es)
      as [Hinv' Ht'].
    apply (IH _ _ _ E); [exact Hinv' | lia | lia].
Qed.

(** When the assertion fails, a [strdup] asked for one of the first
    [symbols] items of the array gave no memory. *)
Lemma dri_loop_assert fuel symbols i fp st :
  dri_loop fuel Options heap sections symbols i fp st = Some AssertionFailed ->
  dri_inv Options sections st -> tally st <= i - 1 ->
  exists n, 0 <= n < symbols /\ strdup_ok heap n = false.
Proof.
  revert i fp st. induction fuel as [| fuel IH]; intros i fp st; simpl;
    [discriminate |].
  destruct (Z.leb_spec i symbols) as [Hi | Hi]; [| discriminate].
  destruct (fread 8 fp) as [[name8 fp1] |] eqn:E1; [| discriminate].
  destruct (fread 2 fp1) as [[symid fp2] |] eqn:E2; [| discriminate].
  destruct (fread 4 fp2) as [[address fp3] |] eqn:E3; [| discriminate].
  apply fread_some in E1 as [L1 _].
  cbv zeta.
  assert (Hn : forall st, dri_inv Options sections st -> tally st <= i - 1 ->
                           0 <= n_count st < symbols).
  { intros st0 (_ & Hc & Hw & ? & ? & ? & ?) Ht. unfold tally in Ht. lia. }
  destruct (negb (Z.land (big_endian symid) 72 =? 0)).
  - destruct (fread 14 fp3) as [[more fp4] |] eqn:E4; [| discriminate].
    apply fread_some in E4 as [L4 _].
    destruct (dri_slot Options heap sections (i + 1) (name8 ++ more ++ [0])
                (big_endian symid) (big_endian address) st) as [st1 |] eqn:Es.
    + intros E Hinv Ht.
      destruct (dri_slot_inv _ _ _ _ _ _
                  ltac:(exists (name8 ++ more), []; rewrite <- app_assoc;
                        split; [reflexivity | rewrite length_app; lia])
                  Hinv Es) as [Hinv' Ht'].
      apply (IH _ _ _ E); [exact Hinv' | lia].
    + intros _ Hinv Ht. exists (n_count st).
      split; [now apply Hn | now apply dri_slot_assert in Es].
  - destruct (dri_slot Options heap sections i (name8 ++ [0])
                (big_endian symid) (big_endian address) st) as [st1 |] eqn:Es.
    + intros E Hinv Ht.
      destruct (dri_slot_inv _ _ _ _ _ _
                  ltac:(exists name8, []; split; [reflexivity | lia])
                  Hinv Es) as [Hinv' Ht'].
      apply (IH _ _ _ E); [exact Hinv' | lia].
    + intros _ Hinv Ht. exists (n_count st).
      split; [now apply Hn | now apply dri_slot_assert in Es].
Qed.

(** With one unit of fuel per slot still to come, and one more, the loop
    does not run out. *)
Lemma dri_loop_fuel fuel symbols i fp st :
  symbols - i + 1 < Z.of_nat fuel -> 0 < Z.of_nat fuel ->
  dri_loop fuel Options heap sections symbols i fp st <> None.
Proof.
  revert i fp st. induction fuel as [| fuel IH]; intros i fp st Hf H0; simpl;
    [lia |].
  destruct (Z.leb_spec i symbols) as [Hi | Hi]; [| discriminate].
  destruct (fread 8 fp) as [[name8 fp1] |]; [| discriminate].
  destruct (fread 2 fp1) as [[symid fp2] |]; [| discriminate].
  destruct (fread 4 fp2) as [[address fp3] |]; [| discriminate].
  cbv zeta.
  destruct (negb (Z.land (big_endian symid) 72 =? 0)).
  - destruct (fread 14 fp3) as [[more fp4] |]; [| discriminate].
    destruct (dri_slot _ _ _ _ _ _ _ _); [apply IH; lia | discriminate].
  - destruct (dri_slot _ _ _ _ _ _ _ _); [apply IH; lia | discriminate].
Qed.

(** When the file holds the slots still to come, the loop is left past the
    last slot, if it is left. *)
Lemma dri_loop_whole fuel symbols i fp st i' st' :
  dri_loop fuel Options heap sections symbols i fp st
  = Some (LoopLeft i' st') ->
  14 * (symbols - i + 1) <= Z.of_nat (length fp) ->
  symbols < i'.
Proof.
  revert i fp st. induction fuel as [| fuel IH]; intros i fp st; cbn [dri_loop];
    [discriminate |].
  destruct (Z.leb_spec i symbols) as [Hi | Hi];
    [| intros E _; injection E as <- <-; exact Hi].
  intros E Hlen.
  destruct (fread_enough 8 fp ltac:(lia)) as (name8 & fp1 & E1).
  rewrite E1 in E. apply fread_some in E1 as [_ L1].
  destruct (fread_enough 2 fp1 ltac:(lia)) as (symid & fp2 & E2).
  rewrite E2 in E. apply fread_some in E2 as [_ L2].
  destruct (fread_enough 4 fp2 ltac:(lia)) as (address & fp3 & E3).
  rewrite E3 in E. apply fread_some in E3 as [_ L3].
  cbv zeta in E.
  destruct (negb (Z.land (big_endian symid) 72 =? 0)).
  - destruct (fread 14 fp3) as [[more fp4] |] eqn:E4.
    + apply fread_some in E4 as [_ L4].
      destruct (dri_slot _ _ _ _ _ _ _ _); [| discriminate].
      apply (IH _ _ _ E). lia.
    + apply fread_none in E4. injection E as <- <-. lia.
  - destruct (dri_slot _ _ _ _ _ _ _ _); [| discriminate].
    apply (IH _ _ _ E). lia.
Qed.

(** When fewer than 14 bytes are left at a slot, the loop is left there. *)
Lemma dri_loop_short fuel symbols i fp st :
  (length fp < 14)%nat -> i <= symbols ->
  dri_loop (S fuel) Options heap sections symbols i fp st
  = Some (LoopLeft i st).
Proof.
  intros Hlen Hi. simpl.
  destruct (Z.leb_spec i symbols) as [_ | ?]; [| lia].
  destruct (fread 8 fp) as [[name8 fp1] |] eqn:E1; [| reflexivity].
  apply fread_some in E1 as [_ L1].
  destruct (fread 2 fp1) as [[symid fp2] |] eqn:E2; [| reflexivity].
  apply fread_some in E2 as [_ L2].
  destruct (fread 4 fp2) as [[address fp3] |] eqn:E3; [| reflexivity].
  apply fread_some in E3 as [_ L3]. lia.
Qed.

(** Whether [symbol_list_alloc] gives a list. *)
Lemma symbol_list_alloc_spec symbols :
  symbol_list_alloc heap symbols = true
  <-> symbols <> 0 /\ calloc_ok heap = true /\ malloc_ok heap = true.
Proof.
  unfold symbol_list_alloc.
  destruct (Z.eqb_spec symbols 0), (calloc_ok heap), (malloc_ok heap);
    intuition congruence.
Qed.

(** X25.  [symbols_load_dri] always comes to an end: it returns, or the
    assertion on [strdup] aborts it.  It returns NULL for a table size that
    is no multiple of 14, and otherwise when [symbol_list_alloc] gives no
    list, which is for an empty table and when [calloc] or [malloc] give no
    memory.  With a list allocated, it reports a failed read when the file
    ends within the first slot; the assertion fails only when a [strdup]
    for one of the slots gave no memory; and when the file holds the whole
    table and every [strdup] gives memory, a list is loaded. *)
Theorem symbols_load_dri_returns (fp : list Z) (tablesize : Z) :
  0 <= tablesize ->
  exists r,
    symbols_load_dri Options heap fp sections tablesize = Some r
    /\ (r = inl InvalidTableSize <-> tablesize mod 14 <> 0)
    /\ (r = inl NoList
        <-> tablesize mod 14 = 0
            /\ (tablesize = 0 \/ calloc_ok heap = false
                \/ malloc_ok heap = false))
    /\ (tablesize mod 14 = 0 ->
        symbol_list_alloc heap (tablesize / 14) = true ->
        (length fp < 14)%nat -> r = inl ReadFailed)
    /\ (r = inl AssertFailed ->
        exists n, 0 <= n < tablesize / 14 /\ strdup_ok heap n = false)
    /\ (tablesize mod 14 = 0 ->
        symbol_list_alloc heap (tablesize / 14) = true ->
        tablesize <= Z.of_nat (length fp) ->
        (forall n, 0 <= n < tablesize / 14 -> strdup_ok heap n = true) ->
        exists loaded, r = inr loaded).
Proof.
  intros Hts. unfold symbols_load_dri, DRI_ENTRY_SIZE.
  destruct (Z.eqb_spec (tablesize mod 14) 0) as [Hm | Hm]; cbn [negb].
  2:{ eexists. split; [reflexivity |].
      repeat split; try (intros; congruence); try discriminate.
      intros [? _]. contradiction. }
  cbv zeta.
  pose proof (Z.div_mod tablesize 14 ltac:(lia)) as Hdm.
  pose proof (symbol_list_alloc_spec (tablesize / 14)) as Ha.
  destruct (symbol_list_alloc heap (tablesize / 14)) eqn:Ealloc; cbn [negb].
  2:{ eexists. split; [reflexivity |].
      split; [split; [discriminate | congruence] |].
      split.
      - split; [| reflexivity]. intros _. split; [exact Hm |].
        destruct (Z.eq_dec (tablesize / 14) 0) as [Hz | Hz]; [left; lia |].
        destruct (calloc_ok heap); [| now right; left].
        destruct (malloc_ok heap); [| now right; right].
        exfalso. assert (false = true) by (apply Ha; auto). discriminate.
      - repeat split; try discriminate. }
  destruct Ha as [Ha _]. destruct (Ha eq_refl) as (Hz & Hcal & Hmal).
  assert (Hpos : 0 < tablesize / 14)
    by (pose proof (Z.div_pos tablesize 14); lia).
  destruct (dri_loop (S (Z.to_nat (tablesize / 14))) Options heap sections
              (tablesize / 14) 1 fp dri_start) as [[i st |] |] eqn:E.
  3:{ exfalso. revert E. apply dri_loop_fuel; lia. }
  - destruct (Z.leb_spec i (tablesize / 14)) as [Hi | Hi].
    + eexists. split; [reflexivity |].
      split; [split; [discriminate | congruence] |].
      split; [split; [discriminate |];
              intros (_ & [? | [? | ?]]); (lia || congruence) |].
      split; [reflexivity |]. split; [discriminate |].
      intros _ _ Hlen _. apply dri_loop_whole in E; lia.
    + eexists. split; [reflexivity |].
      split; [split; [discriminate | congruence] |].
      split; [split; [discriminate |];
              intros (_ & [? | [? | ?]]); (lia || congruence) |].
      split.
      * intros _ _ Hlen. rewrite dri_loop_short in E by (assumption || lia).
        injection E as <- _. lia.
      * split; [discriminate |]. intros _ _ _ _. now eexists.
  - eexists. split; [reflexivity |].
    split; [split; [discriminate | congruence] |].
    split; [split; [discriminate |];
            intros (_ & [? | [? | ?]]); (lia || congruence) |].
    split.
    + intros _ _ Hlen. rewrite dri_loop_short in E by (assumption || lia).
      discriminate E.
    + split.
      * intros _. apply (dri_loop_assert _ _ _ _ _ E dri_start_inv).
        unfold tally. simpl. lia.
      * intros _ _ _ Hall. exfalso.
        destruct (dri_loop_assert _ _ _ _ _ E dri_start_inv)
          as (n & Hn & Hf); [unfold tally; simpl; lia |].
        rewrite (Hall n Hn) in Hf. discriminate.
Qed.

(** X26.  What a loaded list holds.  The slot count is the table size
    over 14; [count] is the number of stored symbols; the counters account
    for no more slots than there are; there is one warning per invalid
    symbol; and every stored symbol has a type that is not masked out, a
    name of at most 22 characters without NUL that does not start with
    [.L] under [-l] and is no object name under [-o], and, unless it is
    absolute, an address that is not beyond the end of its section. *)
Theorem symbols_load_dri_loaded (fp : list Z) (tablesize : Z)
    (list : symbol_list_t) (st : dri_state) :
  0 <= tablesize ->
  symbols_load_dri Options heap fp sections tablesize
  = Some (inr (list, st)) ->
  symbols list = tablesize / 14
  /\ count list = Z.of_nat (length (names list))
  /\ count list <= symbols list
  /\ count list + n_invalid st + n_dtypes st + n_notypes st + n_locals st
     + n_ofiles st <= symbols list
  /\ n_invalid st = Z.of_nat (length (warnings st))
  /\ Forall (symbol_kept Options sections) (names list).
Proof.
  intros Hts. unfold symbols_load_dri, DRI_ENTRY_SIZE.
  destruct (negb (tablesize mod 14 =? 0)); [discriminate |].
  cbv zeta.
  destruct (negb (symbol_list_alloc heap (tablesize / 14)));
    [discriminate |].
  destruct (dri_loop (S (Z.to_nat (tablesize / 14))) Options heap sections
              (tablesize / 14) 1 fp dri_start) as [[i st1 |] |] eqn:E;
    [| discriminate | discriminate].
  destruct (Z.leb_spec i (tablesize / 14)) as [Hi | Hi]; [discriminate |].
  intros H. injection H as <- <-. cbn [symbols count names].
  assert (Hpos : 0 <= tablesize / 14) by (apply Z.div_pos; lia).
  destruct (dri_loop_inv _ _ _ _ _ _ _ E dri_start_inv) as [Hinv Ht];
    [unfold tally; simpl; lia | unfold tally; simpl; lia |].
  destruct Hinv as (Hk & Hc & Hw & Hd & Hn & Hl & Ho).
  unfold tally in Ht.
  repeat split; try assumption; lia.
Qed.

End Gst2asciiLoadDri.

Section Gst2asciiLoadDriWitnesses.

Import Gst2ascii.

Lemma symbols_load_dri_returns_witness :
  exists r,
    symbols_load_dri sample_options sample_heap sample_table sample_sections
      56 = Some r
    /\ (r = inl InvalidTableSize <-> 56 mod 14 <> 0)
    /\ (r = inl NoList
        <-> 56 mod 14 = 0
            /\ (56 = 0 \/ calloc_ok sample_heap = false
                \/ malloc_ok sample_heap = false))
    /\ (56 mod 14 = 0 ->
        symbol_list_alloc sample_heap (56 / 14) = true ->
        (length sample_table < 14)%nat -> r = inl ReadFailed)
    /\ (r = inl AssertFailed ->
        exists n, 0 <= n < 56 / 14 /\ strdup_ok sample_heap n = false)
    /\ (56 mod 14 = 0 ->
        symbol_list_alloc sample_heap (56 / 14) = true ->
        56 <= Z.of_nat (length sample_table) ->
        (forall n, 0 <= n < 56 / 14 -> strdup_ok sample_heap n = true) ->
        exists loaded, r = inr loaded).
Proof.
  apply (symbols_load_dri_returns sample_options sample_heap sample_sections
           sample_table 56).
  lia.
Defined.

Lemma symbols_load_dri_loaded_witness :
  symbols (fst sample_loaded) = 56 / 14
  /\ count (fst sample_loaded)
     = Z.of_nat (length (names (fst sample_loaded)))
  /\ count (fst sample_loaded) <= symbols (fst sample_loaded)
  /\ count (fst sample_loaded) + n_invalid (snd sample_loaded)
     + n_dtypes (snd sample_loaded) + n_notypes (snd sample_loaded)
     + n_locals (snd sample_loaded) + n_ofiles (snd sample_loaded)
     <= symbols (fst sample_loaded)
  /\ n_invalid (snd sample_loaded)
     = Z.of_nat (length (warnings (snd sample_loaded)))
  /\ Forall (symbol_kept sample_options sample_sections)
       (names (fst sample_loaded)).
Proof.
  apply (symbols_load_dri_loaded sample_options sample_heap sample_sections
           sample_table 56 (fst sample_loaded) (snd sample_loaded));
    [lia | vm_compute; reflexivity].
Defined.

(** Without memory for the second name the assertion stops the loader, and
    without memory for the list it returns NULL. *)
Example symbols_load_dri_no_memory :
  symbols_load_dri
    {| notypes := 0; no_local := false; no_obj := false; sort_name := false |}
    {| calloc_ok := true; malloc_ok := true;
       strdup_ok := fun n => negb (n =? 1) |}
    sample_table sample_sections 56
  = Some (inl AssertFailed)
  /\ symbols_load_dri sample_options
       {| calloc_ok := true; malloc_ok := false; strdup_ok := fun _ => true |}
       sample_table sample_sections 56
     = Some (inl NoList).
Proof. split; reflexivity. Qed.

End Gst2asciiLoadDriWitnesses.


(** * Properties of Console_Check *)

Section ConsoleCheckFacts.

Variable STMemory_ReadLong : Z -> Z.
Variable STMemory_ReadWord : Z -> Z.
Variable ConOutDevice : Z.
Variable pc : Z.
Variable a7 : Z.

Hypothesis a7_range : 0 <= a7 < 2 ^ 32 - 20.

Abbreviation find_args :=
  (find_stack_args STMemory_ReadWord 4 2 ConOutDevice).
Abbreviation device_at o := (STMemory_ReadWord (a7 + o) =? ConOutDevice).

Lemma Uint32_small z : 0 <= z < 2 ^ 32 -> Uint32 z = z.
Proof. intros H. unfold Uint32. now apply Z.mod_small. Qed.

(** One turn of the search loop at offset [o] from the stack pointer. *)
Lemma find_args_step fuel o inc err :
  0 <= o <= 16 -> 0 < inc <= 4 ->
  find_args (S fuel) a7 (Uint32 (a7 + 16)) (a7 + o) inc err
  = if device_at o then Some (Some (a7 + o), err)
    else if o + inc >? 16 then
           if inc =? 4
           then find_args fuel a7 (Uint32 (a7 + 16)) a7 2
                  (err ++ warn_short_skipping)
           else Some (None, err ++ warn_not_found)
         else find_args fuel a7 (Uint32 (a7 + 16)) (a7 + (o + inc)) inc err.
Proof.
  intros Ho Hinc. cbn [find_stack_args].
  destruct (device_at o); cbn [negb]; [reflexivity |].
  change (2 ^ 32) with 4294967296 in a7_range.
  rewrite !Uint32_small by (change (2 ^ 32) with 4294967296; lia).
  replace (a7 + o + inc) with (a7 + (o + inc)) by lia.
  destruct (Z.gtb_spec (a7 + (o + inc)) (a7 + 16)),
    (Z.gtb_spec (o + inc) 16); try lia; reflexivity.
Qed.

Lemma find_args_start fuel inc err :
  0 < inc <= 4 ->
  find_args (S fuel) a7 (Uint32 (a7 + 16)) a7 inc err
  = if device_at 0 then Some (Some (a7 + 0), err)
    else find_args fuel a7 (Uint32 (a7 + 16)) (a7 + inc) inc err.
Proof.
  intros Hinc. cbn [find_stack_args]. rewrite Z.add_0_r.
  destruct (STMemory_ReadWord a7 =? ConOutDevice); cbn [negb]; [reflexivity |].
  change (2 ^ 32) with 4294967296 in a7_range.
  rewrite !Uint32_small by (change (2 ^ 32) with 4294967296; lia).
  destruct (Z.gtb_spec (a7 + inc) (a7 + 16)); [lia | reflexivity].
Qed.

(** The search looks at the offsets 0, 4, 8, 12, 16 and then at 0, 2, ...,
    16, and stops at the first that holds the device number. *)
Lemma find_args_search fuel err :
  (14 <= fuel)%nat ->
  find_args fuel a7 (Uint32 (a7 + 16)) a7 4 err
  = Some
      (option_map (Z.add a7)
         (first_device_word STMemory_ReadWord ConOutDevice a7),
       err
       ++ (if existsb (fun o => device_at o) [0; 4; 8; 12; 16]
           then [] else warn_short_skipping)
       ++ (if existsb (fun o => device_at o) search_offsets
           then [] else warn_not_found)).
Proof.
  intros Hf.
  replace fuel with (14 + (fuel - 14))%nat by lia. cbn [Nat.add].
  unfold first_device_word, search_offsets.
  cbn [find existsb app].
  rewrite find_args_start by lia.
  destruct (device_at 0) eqn:E0; cbn [orb option_map];
    [now rewrite !app_nil_r |].
  cbn [Z.add Z.gtb Z.compare Pos.add Pos.succ Pos.compare Pos.compare_cont].
  rewrite find_args_step by lia.
  destruct (device_at 4) eqn:E4; cbn [orb option_map];
    [now rewrite !app_nil_r |].
  cbn [Z.add Z.gtb Z.compare Pos.add Pos.succ Pos.compare Pos.compare_cont].
  rewrite find_args_step by lia.
  destruct (device_at 8) eqn:E8; cbn [orb option_map];
    [now rewrite !app_nil_r |].
  cbn [Z.add Z.gtb Z.compare Pos.add Pos.succ Pos.compare Pos.compare_cont].
  rewrite find_args_step by lia.
  destruct (device_at 12) eqn:E12; cbn [orb option_map];
    [now rewrite !app_nil_r |].
  cbn [Z.add Z.gtb Z.compare Pos.add Pos.succ Pos.compare Pos.compare_cont].
  rewrite find_args_step by lia.
  destruct (device_at 16) eqn:E16; cbn [orb option_map];
    [now rewrite !app_nil_r |].
  cbn [Z.add Z.gtb Z.compare Pos.add Pos.succ Pos.compare Pos.compare_cont
         Z.eqb Pos.eqb].
  (* the word steps; offset 0 was looked at already *)
  rewrite find_args_start by lia. rewrite E0.
  cbn [Z.add Z.gtb Z.compare Pos.add Pos.succ Pos.compare Pos.compare_cont].
  rewrite find_args_step by lia.
  destruct (device_at 2) eqn:E2; cbn [orb option_map];
    [now rewrite !app_nil_r |].
  cbn [Z.add Z.gtb Z.compare Pos.add Pos.succ Pos.compare Pos.compare_cont].
  rewrite find_args_step by lia. rewrite E4.
  cbn [Z.add Z.gtb Z.compare Pos.add Pos.succ Pos.compare Pos.compare_cont].
  rewrite find_args_step by lia.
  destruct (device_at 6) eqn:E6; cbn [orb option_map];
    [now rewrite !app_nil_r |].
  cbn [Z.add Z.gtb Z.compare Pos.add Pos.succ Pos.compare Pos.compare_cont].
  rewrite find_args_step by lia. rewrite E8.
  cbn [Z.add Z.gtb Z.compare Pos.add Pos.succ Pos.compare Pos.compare_cont].
  rewrite find_args_step by lia.
  destruct (device_at 10) eqn:E10; cbn [orb option_map];
    [now rewrite !app_nil_r |].
  cbn [Z.add Z.gtb Z.compare Pos.add Pos.succ Pos.compare Pos.compare_cont].
  rewrite find_args_step by lia. rewrite E12.
  cbn [Z.add Z.gtb Z.compare Pos.add Pos.succ Pos.compare Pos.compare_cont].
  rewrite find_args_step by lia.
  destruct (device_at 14) eqn:E14; cbn [orb option_map];
    [now rewrite !app_nil_r |].
  cbn [Z.add Z.gtb Z.compare Pos.add Pos.succ Pos.compare Pos.compare_cont].
  rewrite find_args_step by lia. rewrite E16.
  cbn [Z.add Z.gtb Z.compare Pos.add Pos.succ Pos.compare Pos.compare_cont
         Z.eqb Pos.eqb].
  now rewrite app_assoc.
Qed.

Hypothesis word_range : forall x, 0 <= STMemory_ReadWord x < 65536.

Lemma high_bits_clear chr :
  0 <= chr < 65536 -> (Z.land chr 0xff00 =? 0) = (chr <? 256).
Proof.
  intros Hc.
  assert (E : Z.land chr 0xff00 = Z.shiftl (Z.land (Z.shiftr chr 8) 255) 8).
  { apply Z.bits_inj'. intros n Hn.
    rewrite Z.land_spec.
    change 0xff00 with (Z.shiftl 255 8).
    destruct (Z.lt_ge_cases n 8) as [H8 | H8].
    - rewrite !(Z.shiftl_spec_low _ _ _ H8). apply andb_false_r.
    - rewrite !Z.shiftl_spec by exact Hn.
      rewrite Z.land_spec, Z.shiftr_spec by lia.
      replace (n - 8 + 8) with n by lia. reflexivity. }
  rewrite E. change 255 with (Z.ones 8). rewrite Z.land_ones by lia.
  rewrite Z.shiftr_div_pow2, Z.shiftl_mul_pow2 by lia.
  change (2 ^ 8) with 256.
  assert (0 <= chr / 256 < 256)
    by (split; [apply Z.div_pos; lia | apply Z.div_lt_upper_bound; lia]).
  rewrite Z.mod_small by assumption.
  destruct (Z.ltb_spec chr 256) as [Hlt | Hge].
  - rewrite Z.div_small by lia. reflexivity.
  - apply Z.eqb_neq.
    assert (1 <= chr / 256) by (apply Z.div_le_lower_bound; lia). lia.
Qed.

Lemma first_device_word_range o :
  first_device_word STMemory_ReadWord ConOutDevice a7 = Some o ->
  0 <= o <= 16.
Proof.
  unfold first_device_word. intros H. apply find_some in H as [H _].
  unfold search_offsets in H. simpl in H.
  repeat (destruct H as [<- | H]; [lia |]). contradiction.
Qed.

Lemma Console_Check_first_match_eq (fuel : nat) (s : vt52_state)
    (stderr : list Z) :
  (14 <= fuel)%nat ->
  Console_Check STMemory_ReadLong STMemory_ReadWord 4 2 ConOutDevice pc a7
    fuel s stderr
  = if negb (pc =? STMemory_ReadLong
                     (Uint32 (int_add 0x57e (CInt.mul 32 ConOutDevice 4))))
    then Some (s, stderr)
    else
      let skipped :=
        if existsb (fun o => device_at o) [0; 4; 8; 12; 16]
        then [] else warn_short_skipping in
      match first_device_word STMemory_ReadWord ConOutDevice a7 with
      | None => Some (s, stderr ++ skipped ++ warn_not_found)
      | Some o =>
          let chr := STMemory_ReadWord (a7 + o + 2) in
          if 255 <? chr
          then Some (s, stderr ++ skipped ++ warn_high_bits chr)
          else if ConOutDevice =? 2 then vt52_emu chr s (stderr ++ skipped)
          else if (ConOutDevice =? 1) || (ConOutDevice =? 3)
                  || (ConOutDevice =? 5)
          then Some (s, stderr ++ skipped ++ [mapped_byte chr])
          else Some (s, stderr ++ skipped)
      end.
Proof.
  intros Hf. unfold Console_Check. cbv zeta.
  destruct (negb (pc =? _)); [reflexivity |].
  rewrite (find_args_search fuel stderr Hf).
  pose proof first_device_word_range as R.
  unfold first_device_word in *.
  destruct (find (fun o => device_at o) search_offsets) as [o |] eqn:Ef.
  - specialize (R o eq_refl). cbn [option_map].
    assert (Ex : existsb (fun o => device_at o) search_offsets = true).
    { apply existsb_exists. apply find_some in Ef as [Hin Hd].
      now exists o. }
    rewrite Ex, app_nil_r.
    change (2 ^ 32) with 4294967296 in a7_range.
    rewrite Uint32_small by (change (2 ^ 32) with 4294967296; lia).
    pose proof (word_range (a7 + o + 2)) as Hc.
    rewrite high_bits_clear by exact Hc.
    replace (255 <? STMemory_ReadWord (a7 + o + 2))
      with (negb (STMemory_ReadWord (a7 + o + 2) <? 256))
      by (destruct (Z.ltb_spec (STMemory_ReadWord (a7 + o + 2)) 256),
            (Z.ltb_spec 255 (STMemory_ReadWord (a7 + o + 2)));
          (reflexivity || lia)).
    destruct (Z.ltb_spec (STMemory_ReadWord (a7 + o + 2)) 256) as [Hlt | Hge];
      cbn [negb]; [| now rewrite app_assoc].
    rewrite Z.mod_small by lia.
    destruct (ConOutDevice =? 2); [reflexivity |].
    destruct ((ConOutDevice =? 1) || (ConOutDevice =? 3)
              || (ConOutDevice =? 5)); [| reflexivity].
    rewrite map_character_mapped by lia. now rewrite app_assoc.
  - cbn [option_map].
    assert (Ex : existsb (fun o => device_at o) search_offsets = false).
    { apply not_true_is_false. intros H. apply existsb_exists in H.
      destruct H as (o & Hin & Hd).
      apply (find_none _ _ Ef) in Hin. cbv beta in Hin. congruence. }
    now rewrite Ex.
Qed.



End ConsoleCheckFacts.

Lemma sample_stack_range x : 0 <= sample_stack x < 65536.
Proof. unfold sample_stack. destruct (x =? 1004), (x =? 1006); lia. Qed.

Lemma sample_a7_range : 0 <= 1000 < 2 ^ 32 - 20.
Proof. split; [lia | reflexivity]. Qed.



(** * Properties of the duplicate checks of gst2ascii.c *)

Section SortedSymbols.

Import Gst2ascii.

(** A name that is a C string: no byte of it is the NUL. *)
Abbreviation c_name s := (Forall (fun x => 0 < x) (name s)).
Abbreviation name_ordered := (fun a b => symbols_by_name a b <= 0).
Abbreviation address_ordered := (fun a b => symbols_by_address a b <= 0).
Abbreviation addressed l :=
  (map address (filter (fun s => negb (is_abs s)) l)).

Lemma name_sorted_head a t :
  c_name a -> Forall (fun s => c_name s) t -> Sorted name_ordered (a :: t) ->
  Forall (fun c => strcmp (name a) (name c) <= 0) t.
Proof.
  revert a. induction t as [| b t IH]; intros a Ha Ht Hs; [constructor |].
  inversion Ht as [| ? ? Hb Ht']; subst.
  inversion Hs as [| ? ? Hs' Hr]; subst.
  inversion Hr as [| ? ? Hab]; subst. unfold symbols_by_name in Hab.
  constructor; [exact Hab |].
  specialize (IH b Hb Ht' Hs').
  rewrite Forall_forall in IH |- *. intros c Hc.
  apply (strcmp_trans (name a) (name b) (name c)); try assumption.
  - rewrite Forall_forall in Ht'. now apply Ht'.
  - now apply IH.
Qed.

Lemma same_name_pairs_none l :
  Forall (fun s => c_name s) l -> Sorted name_ordered l ->
  same_name_pairs l = [] <-> NoDup (map name l).
Proof.
  induction l as [| a t IH]; intros Hv Hs.
  - simpl. split; [constructor | reflexivity].
  - inversion Hv as [| ? ? Ha Ht]; subst.
    pose proof (name_sorted_head a t Ha Ht Hs) as Hle.
    inversion Hs as [| ? ? Hs' _]; subst.
    specialize (IH Ht Hs').
    destruct t as [| b t'].
    + simpl. split; [repeat constructor; intros [] | reflexivity].
    + cbn [same_name_pairs]. change (map name (a :: b :: t'))
        with (name a :: map name (b :: t')).
      inversion Ht as [| ? ? Hb Ht']; subst.
      assert (Hnz : forall s, c_name s -> Forall (fun c => c <> 0) (name s)).
      { intros s H. eapply Forall_impl; [| exact H]. simpl. lia. }
      destruct (Z.eqb_spec (strcmp (name a) (name b)) 0) as [E | E].
      * split; [discriminate |]. intros Hn. exfalso.
        inversion Hn as [| ? ? Hni _]; subst. apply Hni.
        apply (strcmp_eq _ _ (Hnz a Ha) (Hnz b Hb)) in E.
        rewrite E. now left.
      * rewrite IH. split; [| intros Hn; now inversion Hn].
        intros Hn. constructor; [| exact Hn].
        intros Hin. apply in_map_iff in Hin as (c & Hc & Hin).
        destruct Hin as [<- | Hin].
        -- apply E. apply strcmp_eq; auto.
        -- pose proof (name_sorted_head b t' Hb Ht' Hs') as Hbc.
           rewrite Forall_forall in Hbc. specialize (Hbc c Hin).
           rewrite Hc in Hbc. rewrite strcmp_swap in Hbc.
           inversion Hle; subst. lia.
Qed.

Lemma address_ordered_le a b :
  symbols_by_address a b <= 0 <-> address a <= address b.
Proof.
  unfold symbols_by_address. cbv zeta.
  destruct (Z.ltb_spec (address a) (address b)),
    (Z.gtb_spec (address a) (address b)); lia.
Qed.

Lemma same_address_pairs_none l : forall cur,
  StronglySorted (fun a b => address a <= address b) l ->
  (forall c, cur = Some c -> Forall (fun s => address c <= address s) l) ->
  same_address_pairs cur l = []
  <-> NoDup (match cur with
             | Some c => address c :: addressed l
             | None => addressed l
             end).
Proof.
  induction l as [| s t IH]; intros cur Hs Hc.
  - simpl. destruct cur; split; try reflexivity; intros _;
      repeat constructor. intros [].
  - inversion Hs as [| ? ? Hs' Hst]; subst.
    assert (Hnot : forall x, x < address s -> ~ In x (addressed t)).
    { intros x Hx Hin. apply in_map_iff in Hin as (u & Hu & Hin).
      apply filter_In in Hin as [Hin _].
      rewrite Forall_forall in Hst. specialize (Hst u Hin). lia. }
    cbn [same_address_pairs filter map]. cbv zeta.
    destruct cur as [c |].
    + pose proof (Hc c eq_refl) as Hcl.
      inversion Hcl as [| ? ? Hcs Hct]; subst.
      destruct (Z.eqb_spec (address c) (address s)) as [E | E].
      * destruct (is_abs s); cbn [negb map].
        -- apply IH; [exact Hs' |]. intros c' [= <-]. exact Hct.
        -- split; [discriminate |]. intros Hn. exfalso.
           inversion Hn as [| ? ? Hni _]; subst. apply Hni.
           rewrite E. now left.
      * destruct (is_abs s); cbn [negb map].
        -- rewrite (IH None Hs') by discriminate.
           split; [| intros Hn; now inversion Hn].
           intros Hn. constructor; [| exact Hn]. apply Hnot. lia.
        -- rewrite (IH (Some s) Hs') by (intros c' [= <-]; exact Hst).
           split; [| intros Hn; now inversion Hn].
           intros Hn. constructor; [| exact Hn].
           intros [Heq | Hin]; [lia |]. apply (Hnot (address c)); [lia | exact Hin].
    + destruct (is_abs s); cbn [negb map].
      * apply IH; [exact Hs' | discriminate].
      * apply IH; [exact Hs' |]. intros c' [= <-]. exact Hst.
Qed.

Lemma address_sorted_strongly l :
  Sorted address_ordered l ->
  StronglySorted (fun a b => address a <= address b) l.
Proof.
  intros Hs. apply Sorted_StronglySorted.
  - intros a b c. lia.
  - induction Hs as [| a l Hs IH Hr]; constructor; [exact IH |].
    destruct Hr; constructor. now apply address_ordered_le.
Qed.

Lemma warnings_none {A} (f : A -> list Z) (l : list A) (stderr : list Z) :
  (forall a, f a <> []) ->
  Some (stderr ++ flat_map f l) = Some stderr <-> l = [].
Proof.
  intros Hf. split.
  - intros [= H]. destruct l as [| a l]; [reflexivity | exfalso].
    rewrite <- (app_nil_r stderr) in H at 2. apply app_inv_head in H.
    cbn [flat_map] in H. apply app_eq_nil in H as [H _]. now apply (Hf a).
  - intros ->. cbn. now rewrite app_nil_r.
Qed.

Lemma warn_same_name_some a b : warn_same_name a b <> [].
Proof. discriminate. Qed.

Lemma warn_same_address_some a b : warn_same_address a b <> [].
Proof. discriminate. Qed.

End SortedSymbols.

Section SymbolChecksFacts.

Import Gst2ascii.

Variable syms : list symbol_t.
Variable count : Z.
Hypothesis count_range : 0 <= count <= Z.of_nat (length syms).
Hypothesis count_int : count < 2 ^ 31.

(** The [count] entries the checks are given. *)
Abbreviation given := (firstn (Z.to_nat count) syms).
Abbreviation from i := (skipn (Z.to_nat i) given).

Lemma int_add_one i : 0 <= i < count -> int_add i 1 = i + 1.
Proof.
  intros Hi. apply CIntFacts.wrap_small. unfold CInt.in_range.
  change (2 ^ (32 - 1)) with (2 ^ 31). lia.
Qed.

Lemma int_sub_one : int_sub count 1 = count - 1.
Proof.
  apply CIntFacts.wrap_small. unfold CInt.in_range.
  change (2 ^ (32 - 1)) with (2 ^ 31).
  assert (0 < 2 ^ 31) by reflexivity. lia.
Qed.

Lemma syms_get_given i :
  0 <= i < count ->
  exists s, syms_get syms i = Some s /\ from i = s :: from (i + 1).
Proof.
  intros Hi. unfold syms_get.
  destruct (Z.ltb_spec i 0) as [? | _]; [lia |].
  assert (Hlt : (Z.to_nat i < length given)%nat).
  { rewrite length_firstn. lia. }
  destruct (nth_error given (Z.to_nat i)) as [s |] eqn:E;
    [| apply nth_error_None in E; lia].
  exists s. split.
  - rewrite nth_error_firstn in E.
    destruct (Nat.ltb_spec (Z.to_nat i) (Z.to_nat count)); [exact E | lia].
  - replace (Z.to_nat (i + 1)) with (S (Z.to_nat i)) by lia.
    clear Hlt. revert E. generalize (Z.to_nat i). generalize given.
    induction l as [| x l IH]; intros [| n] E; simpl in *; try discriminate.
    + congruence.
    + destruct l; [destruct n; discriminate | now apply IH].
Qed.

Lemma from_end i : count <= i -> from i = [].
Proof.
  intros Hi. apply skipn_all2. rewrite length_firstn. lia.
Qed.

Abbreviation name_warnings l :=
  (flat_map (fun p => warn_same_name (fst p) (snd p)) (same_name_pairs l)).

Lemma check_names_inner_spec fuel : forall i stderr,
  0 <= i < count -> (Z.to_nat (count - i) <= fuel)%nat ->
  exists i' stderr',
    check_names_inner fuel syms count i (i + 1) stderr = Some (i', stderr')
    /\ i <= i' < count
    /\ stderr' ++ name_warnings (from (i' + 1))
       = stderr ++ name_warnings (from i).
Proof.
  induction fuel as [| fuel IH]; intros i stderr Hi Hf; [lia |].
  cbn [check_names_inner].
  destruct (syms_get_given i Hi) as (si & Gi & Fi).
  destruct (Z.ltb_spec (i + 1) count) as [Hj | Hj].
  - destruct (syms_get_given (i + 1) ltac:(lia)) as (sj & Gj & Fj).
    rewrite Gi, Gj, Fi, Fj. cbn [same_name_pairs].
    destruct (strcmp (name si) (name sj) =? 0).
    + rewrite int_add_one by lia.
      destruct (IH (i + 1) (stderr ++ warn_same_name si sj) ltac:(lia)
                  ltac:(lia)) as (i' & stderr' & E & Hi' & Hw).
      exists i', stderr'. split; [exact E |]. split; [lia |].
      rewrite Hw, Fj. cbn [flat_map fst snd same_name_pairs].
      now rewrite <- app_assoc.
    + exists i, stderr. split; [reflexivity |]. split; [lia |].
      now rewrite Fj.
  - exists i, stderr. split; [reflexivity |]. split; [lia |].
    rewrite Fi, (from_end (i + 1)) by lia. reflexivity.
Qed.

Lemma check_names_outer_spec fuel : forall i stderr,
  0 <= i -> (Z.to_nat (count - i) < fuel)%nat ->
  check_names_outer fuel syms count i stderr
  = Some (stderr ++ name_warnings (from i)).
Proof.
  induction fuel as [| fuel IH]; intros i stderr Hi Hf; [lia |].
  cbn [check_names_outer]. rewrite int_sub_one.
  destruct (Z.ltb_spec i (count - 1)) as [Hlt | Hge].
  - rewrite int_add_one by lia.
    destruct (check_names_inner_spec fuel i stderr ltac:(lia) ltac:(lia))
      as (i' & stderr' & E & Hi' & Hw).
    rewrite E, int_add_one by lia.
    rewrite IH by lia. now rewrite Hw.
  - destruct (Z.lt_ge_cases i count) as [Hc | Hc].
    + destruct (syms_get_given i ltac:(lia)) as (si & _ & Fi).
      rewrite Fi, (from_end (i + 1)) by lia.
      cbn. now rewrite app_nil_r.
    + rewrite from_end by lia. cbn. now rewrite app_nil_r.
Qed.

Abbreviation address_warnings cur l :=
  (flat_map (fun p => warn_same_address (fst p) (snd p))
     (same_address_pairs cur l)).

Lemma skip_abs n : forall i j,
  0 <= i <= j -> j <= count -> Z.to_nat (j - i) = n ->
  (forall k s, i <= k < j -> syms_get syms k = Some s -> is_abs s = true) ->
  same_address_pairs None (from i) = same_address_pairs None (from j).
Proof.
  induction n as [| n IH]; intros i j Hi Hj Hn Habs.
  - replace j with i by lia. reflexivity.
  - destruct (syms_get_given i ltac:(lia)) as (si & Gi & Fi).
    rewrite Fi. cbn [same_address_pairs].
    rewrite (Habs i si ltac:(lia) Gi).
    apply IH; try lia. intros k s Hk. apply Habs. lia.
Qed.

Lemma check_addresses_inner_spec fuel : forall i j stderr si,
  0 <= i < j -> j <= count -> syms_get syms i = Some si ->
  (forall k s, i < k < j -> syms_get syms k = Some s -> is_abs s = true) ->
  (Z.to_nat (count - j) < fuel)%nat ->
  exists i' stderr',
    check_addresses_inner fuel syms count i j stderr = Some (i', stderr')
    /\ i <= i' < count
    /\ stderr' ++ address_warnings None (from (i' + 1))
       = stderr ++ address_warnings (Some si) (from j).
Proof.
  induction fuel as [| fuel IH]; intros i j stderr si Hi Hj Gi Habs Hf; [lia |].
  cbn [check_addresses_inner].
  destruct (Z.ltb_spec j count) as [Hlt | Hge].
  - destruct (syms_get_given j ltac:(lia)) as (sj & Gj & Fj).
    rewrite Gi, Gj, Fj. cbn [same_address_pairs].
    destruct (address si =? address sj).
    + destruct (is_abs sj) eqn:Eabs.
      * rewrite int_add_one by lia.
        apply IH; try lia; try assumption.
        intros k s Hk Gk.
        destruct (Z.eq_dec k j) as [-> | Hne];
          [congruence | apply (Habs k s); [lia | exact Gk]].
      * rewrite int_add_one by lia.
        destruct (IH j (j + 1) (stderr ++ warn_same_address si sj) sj
                    ltac:(lia) ltac:(lia) Gj ltac:(intros; lia) ltac:(lia))
          as (i' & stderr' & E & Hi' & Hw).
        exists i', stderr'. split; [exact E |]. split; [lia |].
        rewrite Hw. cbn [flat_map fst snd]. now rewrite <- app_assoc.
    + exists i, stderr. split; [reflexivity |]. split; [lia |].
      f_equal. f_equal.
      rewrite (skip_abs (Z.to_nat (j - (i + 1))) (i + 1) j) by
        first [lia | reflexivity | (intros k s Hk; apply Habs; lia)].
      rewrite Fj. reflexivity.
  - exists i, stderr. split; [reflexivity |]. split; [lia |].
    f_equal. f_equal.
    rewrite (skip_abs (Z.to_nat (j - (i + 1))) (i + 1) j) by
      first [lia | reflexivity | (intros k s Hk; apply Habs; lia)].
    now rewrite from_end by lia.
Qed.

Lemma check_addresses_outer_spec fuel : forall i stderr,
  0 <= i -> (Z.to_nat (count - i) < fuel)%nat ->
  check_addresses_outer fuel syms count i stderr
  = Some (stderr ++ address_warnings None (from i)).
Proof.
  induction fuel as [| fuel IH]; intros i stderr Hi Hf; [lia |].
  cbn [check_addresses_outer]. rewrite int_sub_one.
  destruct (Z.ltb_spec i (count - 1)) as [Hlt | Hge].
  - destruct (syms_get_given i ltac:(lia)) as (si & Gi & Fi).
    rewrite Gi, Fi, int_add_one by lia. cbn [same_address_pairs].
    destruct (is_abs si); [apply IH; lia |].
    destruct (check_addresses_inner_spec fuel i (i + 1) stderr si
                ltac:(lia) ltac:(lia) Gi ltac:(intros; lia) ltac:(lia))
      as (i' & stderr' & E & Hi' & Hw).
    rewrite E, int_add_one by lia.
    rewrite IH by lia. now rewrite Hw.
  - destruct (Z.lt_ge_cases i count) as [Hc | Hc].
    + destruct (syms_get_given i ltac:(lia)) as (si & _ & Fi).
      rewrite Fi, (from_end (i + 1)) by lia.
      cbn. now rewrite app_nil_r.
    + rewrite from_end by lia. cbn. now rewrite app_nil_r.
Qed.

Lemma symbols_check_names_eq (fuel : nat) (stderr : list Z) :
  (Z.to_nat count < fuel)%nat ->
  symbols_check_names fuel syms count stderr
  = Some (stderr ++ name_warnings given).
Proof.
  intros Hf. unfold symbols_check_names.
  rewrite check_names_outer_spec by lia. reflexivity.
Qed.

Lemma symbols_check_addresses_eq (fuel : nat) (stderr : list Z) :
  (Z.to_nat count < fuel)%nat ->
  symbols_check_addresses fuel syms count stderr
  = Some (stderr ++ address_warnings None given).
Proof.
  intros Hf. unfold symbols_check_addresses.
  rewrite check_addresses_outer_spec by lia. reflexivity.
Qed.

(** X29.  [symbols_check_names] on [count] symbols returns, reads no entry
    beyond them, and prints one warning for each pair of neighbours with
    the same name, in order.  On symbols sorted with [symbols_by_name], as
    [symbols_load] passes them, it prints nothing exactly when no two
    symbols have the same name. *)
Theorem symbols_check_names_neighbours (fuel : nat) (stderr : list Z) :
  (Z.to_nat count < fuel)%nat ->
  symbols_check_names fuel syms count stderr
  = Some (stderr
          ++ flat_map (fun p => warn_same_name (fst p) (snd p))
               (same_name_pairs (firstn (Z.to_nat count) syms)))
  /\ (Forall (fun s => Forall (fun x => 0 < x) (name s))
        (firstn (Z.to_nat count) syms) ->
      Sorted (fun a b => symbols_by_name a b <= 0)
        (firstn (Z.to_nat count) syms) ->
      symbols_check_names fuel syms count stderr = Some stderr
      <-> NoDup (map name (firstn (Z.to_nat count) syms))).
Proof.
  intros Hf. split; [now apply symbols_check_names_eq |].
  intros Hv Hs. rewrite symbols_check_names_eq by exact Hf.
  rewrite warnings_none by (intros p; apply warn_same_name_some).
  now apply same_name_pairs_none.
Qed.

(** X30.  [symbols_check_addresses] on [count] symbols returns, reads no
    entry beyond them, and warns of each symbol that is not absolute
    together with the next such symbol, as long as all symbols from the one
    to the other have the same address.  On symbols sorted with
    [symbols_by_address], as [symbols_load] passes them, it prints nothing
    exactly when no two symbols that are not absolute have the same
    address. *)
Theorem symbols_check_addresses_runs (fuel : nat) (stderr : list Z) :
  (Z.to_nat count < fuel)%nat ->
  symbols_check_addresses fuel syms count stderr
  = Some (stderr
          ++ flat_map (fun p => warn_same_address (fst p) (snd p))
               (same_address_pairs None (firstn (Z.to_nat count) syms)))
  /\ (Sorted (fun a b => symbols_by_address a b <= 0)
        (firstn (Z.to_nat count) syms) ->
      symbols_check_addresses fuel syms count stderr = Some stderr
      <-> NoDup (map address
                   (filter (fun s => negb (is_abs s))
                      (firstn (Z.to_nat count) syms)))).
Proof.
  intros Hf. split; [now apply symbols_check_addresses_eq |].
  intros Hs. rewrite symbols_check_addresses_eq by exact Hf.
  rewrite warnings_none by (intros p; apply warn_same_address_some).
  apply (same_address_pairs_none _ None).
  - now apply address_sorted_strongly.
  - discriminate.
Qed.

End SymbolChecksFacts.

Section SymbolChecksWitnesses.

Import Gst2ascii.

Lemma symbols_check_names_neighbours_witness :
  symbols_check_names 5 sample_names 4 []
  = Some ([]
          ++ flat_map (fun p => warn_same_name (fst p) (snd p))
               (same_name_pairs (firstn (Z.to_nat 4) sample_names)))
  /\ (Forall (fun s => Forall (fun x => 0 < x) (name s))
        (firstn (Z.to_nat 4) sample_names) ->
      Sorted (fun a b => symbols_by_name a b <= 0)
        (firstn (Z.to_nat 4) sample_names) ->
      symbols_check_names 5 sample_names 4 [] = Some []
      <-> NoDup (map name (firstn (Z.to_nat 4) sample_names))).
Proof.
  apply (symbols_check_names_neighbours sample_names 4);
    first [reflexivity | cbn; lia].
Defined.

Lemma symbols_check_addresses_runs_witness :
  symbols_check_addresses 6 sample_addresses 5 []
  = Some ([]
          ++ flat_map (fun p => warn_same_address (fst p) (snd p))
               (same_address_pairs None
                  (firstn (Z.to_nat 5) sample_addresses)))
  /\ (Sorted (fun a b => symbols_by_address a b <= 0)
        (firstn (Z.to_nat 5) sample_addresses) ->
      symbols_check_addresses 6 sample_addresses 5 [] = Some []
      <-> NoDup (map address
                   (filter (fun s => negb (is_abs s))
                      (firstn (Z.to_nat 5) sample_addresses)))).
Proof.
  apply (symbols_check_addresses_runs sample_addresses 5);
    first [reflexivity | cbn; lia].
Defined.

(** The two sample lists are sorted as [symbols_load] sorts them, and each
    draws one warning: for the two [_main], and for [_exit] and [_quit]
    around the absolute [_zero]. *)
Example sample_names_checked :
  Sorted (fun a b => symbols_by_name a b <= 0) sample_names
  /\ symbols_check_names 5 sample_names 4 []
     = Some (str "WARNING: addresses 0x0 & 0x200 have the same '_main' name."
             ++ [10]).
Proof.
  split; [| reflexivity].
  repeat constructor; vm_compute; discriminate.
Qed.

Example sample_addresses_checked :
  Sorted (fun a b => symbols_by_address a b <= 0) sample_addresses
  /\ symbols_check_addresses 6 sample_addresses 5 []
     = Some (str "WARNING: symbols '_exit' & '_quit' have the same 0x40 address."
             ++ [10]).
Proof.
  split; [| reflexivity].
  repeat constructor; vm_compute; discriminate.
Qed.

End SymbolChecksWitnesses.
